(** * Client_App anti-malware core: a shallow embedding and its properties

    The development follows the C++ sources of the service:
    - [threat_engine.h] / [threat_engine.cpp]   (module [ThreatEngine])
    - [file_monitor.h]  / [file_monitor.cpp]    (module [FileMonitor])
    - [scanner.h]       / [scanner.cpp]         (module [Scanner])
    - [archive_scanner.h] / [archive_scanner.cpp] (module [ArchiveScanner])

    Conventions.
    - [std::vector<char>] is [list byte]; [std::wstring] and [std::string]
      are [string] (paths restricted to 8-bit code units, on which
      [towlower] acts as ASCII lower-casing).
    - [uint32_t], [uint64_t], [size_t] are [Z] with the wrap-around written
      at every arithmetic operation that can leave the range.
    - A C++ out-parameter ([ThreatInfo& threat]) is threaded explicitly:
      the function returns the [bool] together with the updated record.
    - The file system and the Win32 calls are an explicit world value.
    - [double] arithmetic is not modelled: [CalculateEntropy] is the exact
      value of the sum that the source accumulates in floating point, and
      statements about the entropy rule are made only where a margin far
      above the rounding error separates that value from the threshold.
    - Exceptions are modelled where the source handles them and this world
      can raise them: a callback that throws, a directory iterator that
      meets a sub-directory it may not read.  Memory exhaustion is not
      modelled.
    - A function that reads a member of an uninitialised structure has no
      result there ([None]). *)

From Stdlib Require Import ZArith ZifyNat List Sorted String Ascii Strings.Byte Bool Lia Reals Lra.
From stdpp Require Import base list gmap strings pretty.

Local Open Scope Z_scope.

(** ** Machine integers *)

Definition UINT32_MOD : Z := 2 ^ 32.
Definition UINT64_MOD : Z := 2 ^ 64.
Definition wrap32 (z : Z) : Z := z mod UINT32_MOD.
Definition wrap64 (z : Z) : Z := z mod UINT64_MOD.

(** [size_t] is 64 bits wide on the x64 service build. *)
Definition size_t_add (a b : Z) : Z := wrap64 (a + b).

(** [static_cast<size_t>] of an [int32_t]. *)
Definition size_t_of_int32 (z : Z) : Z := wrap64 z.

(** [std::vector::size()]. *)
Definition vsize {A} (v : list A) : Z := Z.of_nat (length v).

(** ** Characters and strings *)

Definition byte_eqb (a b : byte) : bool := Byte.eqb a b.

Definition ascii_eqb (a b : ascii) : bool := Ascii.eqb a b.

(** [::tolower] in the "C" locale, applied to one [char]. *)
Definition tolower (b : byte) : byte :=
  let n := Byte.to_N b in
  if ((65 <=? n) && (n <=? 90))%N
  then match Byte.of_N (n + 32)%N with Some c => c | None => b end
  else b.

(** [::towlower] on the 8-bit code units of a path. *)
Definition towlower (c : ascii) : ascii :=
  let n := N_of_ascii c in
  if ((65 <=? n) && (n <=? 90))%N then ascii_of_N (n + 32)%N else c.

(** [std::transform(s.begin(), s.end(), s.begin(), ::towlower)]. *)
Definition wstring_lower (s : string) : string :=
  string_of_list_ascii (map towlower (list_ascii_of_string s)).

(** ** Standard algorithms used by the engine *)

Section Algorithms.
Context {A : Type} (eqb : A -> A -> bool).

(** [std::equal(first1, last1, first2)]: the range [pat] against the
    elements starting at [first2].  The caller guarantees that the second
    range is long enough; past its end the model answers [false]. *)
Fixpoint std_equal (pat from : list A) : bool :=
  match pat, from with
  | [], _ => true
  | p :: ps, x :: xs => eqb p x && std_equal ps xs
  | _ :: _, [] => false
  end.

(** [std::search(first, last, s_first, s_last)]: index of the first
    occurrence of [pat] in [data], or [length data] (the [last] iterator)
    when there is none. *)
Fixpoint std_search (data pat : list A) : nat :=
  if std_equal pat data then 0%nat
  else match data with
       | [] => 0%nat
       | _ :: rest => S (std_search rest pat)
       end.

(** [basic_string::find(needle) != npos]. *)
Definition string_contains (content needle : list A) : bool :=
  match needle with
  | [] => true
  | _ :: _ => negb (Nat.eqb (std_search content needle) (length content))
  end.
End Algorithms.

(** [lowerPath.find(L"...") != std::wstring::npos]. *)
Definition wstring_contains (s needle : string) : bool :=
  string_contains ascii_eqb (list_ascii_of_string s) (list_ascii_of_string needle).

(** ** [std::filesystem::path] decomposition (Windows rules)

    [filename()] is what follows the last directory separator (after a
    drive root-name such as [C:]); [extension()] starts at the last dot of
    the filename, and is empty for ["."], [".."] and for a filename whose
    only dot is its first character. *)

Definition is_separator (c : ascii) : bool :=
  ascii_eqb c "\"%char || ascii_eqb c "/"%char.

Definition is_drive_letter (c : ascii) : bool :=
  let n := N_of_ascii c in
  ((65 <=? n) && (n <=? 90) || (97 <=? n) && (n <=? 122))%N.

Definition strip_root_name (p : list ascii) : list ascii :=
  match p with
  | d :: c :: rest => if is_drive_letter d && ascii_eqb c ":"%char then rest else p
  | _ => p
  end.

(** The part after the last separator, scanning left to right. *)
Fixpoint after_last_separator (p acc : list ascii) : list ascii :=
  match p with
  | [] => acc
  | c :: rest => if is_separator c then after_last_separator rest rest
                 else after_last_separator rest acc
  end.

Definition path_filename_chars (p : string) : list ascii :=
  let q := strip_root_name (list_ascii_of_string p) in
  after_last_separator q q.

Definition path_filename (p : string) : string :=
  string_of_list_ascii (path_filename_chars p).

(** The suffix starting at the last dot that is not at position 0. *)
Fixpoint last_dot_suffix (f : list ascii) (first : bool) (acc : list ascii) : list ascii :=
  match f with
  | [] => acc
  | c :: rest =>
      if ascii_eqb c "."%char && negb first
      then last_dot_suffix rest false (c :: rest)
      else last_dot_suffix rest false acc
  end.

Definition path_extension (p : string) : string :=
  let f := path_filename_chars p in
  match f with
  | ["."%char] => EmptyString
  | ["."%char; "."%char] => EmptyString
  | _ => string_of_list_ascii (last_dot_suffix f true [])
  end.

(** ** Logger *)

Inductive LogLevel := Debug | Info | Warning | Error | Critical.

(** One call of [Logger::LogFormat]: level, format string, arguments. *)
Record LogEvent := mkLog {
  log_level : LogLevel;
  log_format : string;
  log_args : list string
}.

(** ** The world outside the process

    Regular files with their contents, the directories with the regular
    files a recursive directory iterator yields below each (in its order,
    sub-directories that cannot be read being skipped), the paths that
    cannot be opened (sharing violation, ACL), the moves the system
    refuses, the directories the system refuses to create, the wall clock
    in seconds since the epoch, and the log written so far.

    [unreadable_below] describes a directory below which some
    sub-directory cannot be read: the number of regular files a recursive
    iterator yields before it reaches that sub-directory, and the message
    of the [filesystem_error] it raises there unless it was told to skip
    what it may not read. *)
Record World := mkWorld {
  files : gmap string (list byte);
  directories : gmap string (list string);
  open_denied : string -> bool;
  move_denied : string -> string -> bool;
  mkdir_denied : string -> bool;
  unreadable_below : string -> option (nat * string);
  clock : Z;
  log : list LogEvent
}.

Definition with_files (w : World) (f : gmap string (list byte)) : World :=
  {| files := f; directories := directories w;
     open_denied := open_denied w; move_denied := move_denied w;
     mkdir_denied := mkdir_denied w; unreadable_below := unreadable_below w;
     clock := clock w; log := log w |}.

Definition with_log (w : World) (l : list LogEvent) : World :=
  {| files := files w; directories := directories w;
     open_denied := open_denied w; move_denied := move_denied w;
     mkdir_denied := mkdir_denied w; unreadable_below := unreadable_below w;
     clock := clock w; log := l |}.

Definition with_directories (w : World) (d : gmap string (list string)) : World :=
  {| files := files w; directories := d;
     open_denied := open_denied w; move_denied := move_denied w;
     mkdir_denied := mkdir_denied w; unreadable_below := unreadable_below w;
     clock := clock w; log := log w |}.

(** [if (m_logger) m_logger->LogFormat(...)]. *)
Definition log_if (logger : bool) (lvl : LogLevel) (fmt : string)
    (args : list string) (w : World) : World :=
  if logger then with_log w (log w ++ [mkLog lvl fmt args]) else w.

Module Utils.

(** [std::filesystem::exists(path) && is_regular_file(path)]. *)
Definition FileExists (w : World) (path : string) : bool :=
  match files w !! path with Some _ => true | None => false end.

(** [std::filesystem::exists(path) && is_directory(path)]. *)
Definition DirectoryExists (w : World) (path : string) : bool :=
  match directories w !! path with Some _ => true | None => false end.

Definition GetFileSize (w : World) (path : string) : Z :=
  match files w !! path with Some c => vsize c | None => 0 end.

End Utils.

(** Win32 [MoveFile]: fails when the source is missing, the target exists
    or the system refuses; a failed call changes nothing. *)
Definition MoveFile (w : World) (src dst : string) : bool * World :=
  match files w !! src with
  | None => (false, w)
  | Some c =>
      match files w !! dst with
      | Some _ => (false, w)
      | None =>
          if move_denied w src dst then (false, w)
          else (true, with_files w (<[dst := c]> (delete src (files w))))
      end
  end.

(** [std::vector<char> buffer(n); file.read(buffer.data(), n)] on a stream
    positioned at [pos]: the bytes that exist, then the zeros the vector
    was created with. *)
Definition ifstream_read (content : list byte) (pos n : nat) : list byte :=
  let got := take n (drop pos content) in
  got ++ replicate (n - length got) "000"%byte.

(** ** Little-endian serialisation *)

Definition byte_of_Z (z : Z) : byte :=
  match Byte.of_N (Z.to_N (z mod 256)) with Some b => b | None => "000"%byte end.

Fixpoint le_bytes (n : nat) (z : Z) : list byte :=
  match n with
  | O => []
  | S k => byte_of_Z z :: le_bytes k (z / 256)
  end.

Fixpoint le_value (bs : list byte) : Z :=
  match bs with
  | [] => 0
  | b :: rest => Z.of_N (Byte.to_N b) + 256 * le_value rest
  end.

(** A [std::wstring] written as raw [wchar_t] (two bytes per unit). *)
Definition wchar_bytes (s : string) : list byte :=
  flat_map (fun c => [byte_of_Z (Z.of_N (N_of_ascii c)); "000"%byte])
           (list_ascii_of_string s).

(** * threat_engine.h / threat_engine.cpp *)

Module ThreatEngine.

(** ** Data of [threat_engine.h] *)

Record ThreatInfo := mkThreatInfo {
  file_path : string;
  threat_name : string;
  threat_level : Z;      (* uint32_t *)
  file_size : Z          (* uint64_t *)
}.

Record VirusSignature := mkVirusSignature {
  name : string;
  signature : list byte;
  severity : Z;          (* uint32_t *)
  offset : Z             (* int32_t: -1 for anywhere, >= 0 for fixed offset *)
}.

Record HeuristicRule := mkHeuristicRule {
  rule_name : string;
  rule_description : string;
  rule_severity : Z      (* uint32_t *)
}.

Record QuarantineEntry := mkQuarantineEntry {
  originalPath : string;
  quarantinePath : string;
  threatName : string;
  quarantineTime : Z     (* uint64_t *)
}.

(** The members of [class ThreatEngine]; [m_logger] records whether the
    pointer is non-null. *)
Record Engine := mkEngine {
  m_logger : bool;
  m_initialized : bool;
  m_databaseVersion : Z;                 (* uint32_t *)
  m_signatureCount : Z;                  (* uint32_t *)
  m_heuristicsEnabled : bool;
  m_cloudEnabled : bool;
  m_databasePath : string;
  m_quarantinePath : string;
  m_signatures : list VirusSignature;
  m_fileTypeSignatures : gmap string (list VirusSignature);
  m_heuristicRules : list HeuristicRule;
  m_quarantineEntries : list QuarantineEntry
}.

Definition empty_threat : ThreatInfo := mkThreatInfo "" "" 0 0.

Definition set_threat (t : ThreatInfo) (n : string) (lvl : Z) : ThreatInfo :=
  {| file_path := file_path t; threat_name := n;
     threat_level := lvl; file_size := file_size t |}.

Definition set_file (t : ThreatInfo) (p : string) (sz : Z) : ThreatInfo :=
  {| file_path := p; threat_name := threat_name t;
     threat_level := threat_level t; file_size := sz |}.

(** ** [ThreatEngine::ScanWithSignatures] *)

(** The test made for one signature inside the loop. *)
Definition signature_hits (s : VirusSignature) (data : list byte) : bool :=
  if 0 <=? offset s then
    (* Fixed offset signature *)
    if size_t_add (size_t_of_int32 (offset s)) (vsize (signature s)) <=? vsize data
    then std_equal byte_eqb (signature s) (drop (Z.to_nat (offset s)) data)
    else false
  else
    (* Search anywhere in file *)
    negb (Nat.eqb (std_search byte_eqb data (signature s)) (length data)).

Fixpoint ScanWithSignatures (sigs : list VirusSignature) (data : list byte)
    (threat : ThreatInfo) : bool * ThreatInfo :=
  match sigs with
  | [] => (false, threat)
  | s :: rest =>
      match signature s with
      | [] => ScanWithSignatures rest data threat     (* continue *)
      | _ :: _ =>
          if signature_hits s data
          then (true, set_threat threat (name s) (severity s))
          else ScanWithSignatures rest data threat
      end
  end.

(** ** [ThreatEngine::InitializeHeuristicsEngine] *)

Definition InitializeHeuristicsEngine : list HeuristicRule :=
  [ mkHeuristicRule "Heuristic.Suspicious.TinyExecutable"
      "Executable file with suspiciously small size" 6;
    mkHeuristicRule "Heuristic.Suspicious.HighEntropy"
      "File content has high entropy, possibly packed or encrypted" 7;
    mkHeuristicRule "Heuristic.Suspicious.Strings"
      "Contains suspicious strings or API calls" 5 ].

(** ** [ThreatEngine::CalculateEntropy]

    [std::map<char,int> frequency] is an association list kept in key
    order ([char] is signed).  The source computes the sum in [double]
    with the C library's [log2]; [CalculateEntropy] below is the value of
    the same loop in exact arithmetic, from which the source's result
    differs by rounding.  What is proved about the entropy rule is
    therefore stated only for buffers whose exact entropy is far from the
    threshold; the counting loop is exact and is specified in full. *)

Definition char_value (b : byte) : Z :=
  let n := Z.of_N (Byte.to_N b) in if n <? 128 then n else n - 256.

(** [frequency[byte]++]. *)
Fixpoint frequency_incr (b : byte) (m : list (byte * Z)) : list (byte * Z) :=
  match m with
  | [] => [(b, 1)]
  | (k, c) :: rest =>
      if char_value b <? char_value k then (b, 1) :: m
      else if char_value b =? char_value k then (k, c + 1) :: rest
      else (k, c) :: frequency_incr b rest
  end.

Definition frequency (data : list byte) : list (byte * Z) :=
  fold_left (fun m b => frequency_incr b m) data [].

(** [frequency[b]] read without inserting: 0 for an absent key. *)
Fixpoint frequency_get (b : byte) (m : list (byte * Z)) : Z :=
  match m with
  | [] => 0
  | (k, c) :: rest => if byte_eqb k b then c else frequency_get b rest
  end.

(** The order in which [std::map] keeps its entries: strictly increasing
    keys. *)
Definition keys_above (lo : Z) (m : list (byte * Z)) : Prop :=
  Forall (fun p => lo < char_value (fst p)) m.

Inductive frequency_sorted : list (byte * Z) -> Prop :=
| fs_nil : frequency_sorted []
| fs_cons k c rest :
    keys_above (char_value k) rest -> frequency_sorted rest ->
    frequency_sorted ((k, c) :: rest).

Definition log2 (x : R) : R := (ln x / ln 2)%R.

Definition entropy_step (dataSize : R) (entropy : R) (pair : byte * Z) : R :=
  let probability := (IZR (snd pair) / dataSize)%R in
  if Rlt_dec 0 probability
  then (entropy - probability * log2 probability)%R
  else entropy.

Definition CalculateEntropy (data : list byte) : R :=
  match data with
  | [] => 0%R
  | _ :: _ =>
      fold_left (entropy_step (IZR (vsize data))) (frequency data) 0%R
  end.

(** ** [ThreatEngine::ContainsSuspiciousStrings] *)

Definition suspiciousStrings : list string :=
  [ "cryptolocker"; "ransomware"; "bitcoin";
    "your files have been encrypted"; "pay the ransom"; "keylogger";
    "password stealer"; "backdoor"; "trojan" ]%string.

Definition ContainsSuspiciousStrings (data : list byte) : bool :=
  let content := map tolower data in
  existsb (fun suspicious =>
             string_contains byte_eqb content (list_byte_of_string suspicious))
          suspiciousStrings.

(** ** [ThreatEngine::ScanWithHeuristics] *)

Definition isExecutable (ext : string) : bool :=
  String.eqb ext ".exe" || String.eqb ext ".dll" ||
  String.eqb ext ".scr" || String.eqb ext ".com".

Definition ScanWithHeuristics (data : list byte) (filePath : string)
    (threat : ThreatInfo) : bool * ThreatInfo :=
  let ext := wstring_lower (path_extension filePath) in
  (* Rule 1: Tiny executable check *)
  if isExecutable ext && (vsize data <? 1024) then
    (true, set_threat threat "Heuristic.Suspicious.TinyExecutable" 6)
  (* Rule 2: High entropy check *)
  else if Rlt_dec (15 / 2) (CalculateEntropy data) then
    (true, set_threat threat "Heuristic.Suspicious.HighEntropy" 7)
  (* Rule 3: Suspicious strings check *)
  else if ContainsSuspiciousStrings data then
    (true, set_threat threat "Heuristic.Suspicious.Strings" 5)
  else (false, threat).

(** ** [ThreatEngine::ScanFile] *)

Definition MAX_SCAN_SIZE : Z := 100 * 1024 * 1024.

(** Lines 127-151: the two passes over the buffer that was read. *)
Definition scan_buffer (e : Engine) (w : World) (filePath : string)
    (fileSize : Z) (buffer : list byte) (threat : ThreatInfo)
    : bool * ThreatInfo * World :=
  (* Perform signature-based scan *)
  let '(found, threat1) := ScanWithSignatures (m_signatures e) buffer threat in
  if found then
    let threat2 := set_file threat1 filePath fileSize in
    (true, threat2,
     log_if (m_logger e) Warning "Threat detected: %s in file %s"
            [threat_name threat2; filePath] w)
  else
    (* Perform heuristic analysis *)
    if m_heuristicsEnabled e then
      let '(hfound, threat3) := ScanWithHeuristics buffer filePath threat1 in
      if hfound then
        let threat4 := set_file threat3 filePath fileSize in
        (true, threat4,
         log_if (m_logger e) Warning "Heuristic threat detected: %s in file %s"
                [threat_name threat4; filePath] w)
      else (false, threat3, w)
    else (false, threat1, w).

Definition ScanFile (e : Engine) (w : World) (filePath : string)
    (threat : ThreatInfo) : bool * ThreatInfo * World :=
  if negb (m_initialized e) then (false, threat, w)
  (* Check if file exists and is accessible *)
  else if negb (Utils.FileExists w filePath) then (false, threat, w)
  else
    let fileSize := Utils.GetFileSize w filePath in
    if fileSize =? 0 then (false, threat, w)   (* Empty file, no threat *)
    (* Skip very large files to avoid performance issues *)
    else if MAX_SCAN_SIZE <? fileSize then
      (false, threat,
       log_if (m_logger e) Info "Skipping large file: %s (Size: %llu bytes)"
              [filePath; pretty fileSize] w)
    else if open_denied w filePath then (false, threat, w)
    else
      let content := default [] (files w !! filePath) in
      let buffer := ifstream_read content 0 (Z.to_nat fileSize) in
      scan_buffer e w filePath fileSize buffer threat.

(** ** Quarantine *)

(** [ThreatEngine::SaveQuarantineMetadata]: the bytes written to
    [metadata.dat]. *)
Definition serialize_wstring (s : string) : list byte :=
  le_bytes 4 (wrap32 (Z.of_nat (String.length s))) ++ wchar_bytes s.

Definition serialize_entry (q : QuarantineEntry) : list byte :=
  serialize_wstring (originalPath q) ++ serialize_wstring (quarantinePath q) ++
  serialize_wstring (threatName q) ++ le_bytes 8 (quarantineTime q).

Definition serialize_index (entries : list QuarantineEntry) : list byte :=
  le_bytes 4 (wrap32 (vsize entries)) ++ flat_map serialize_entry entries.

Definition metadataFile (e : Engine) : string :=
  m_quarantinePath e +:+ "\metadata.dat".

Definition SaveQuarantineMetadata (e : Engine) (w : World) : World :=
  if open_denied w (metadataFile e) then w
  else with_files w (<[metadataFile e := serialize_index (m_quarantineEntries e)]> (files w)).

Definition with_quarantineEntries (e : Engine) (q : list QuarantineEntry) : Engine :=
  {| m_logger := m_logger e; m_initialized := m_initialized e;
     m_databaseVersion := m_databaseVersion e;
     m_signatureCount := m_signatureCount e;
     m_heuristicsEnabled := m_heuristicsEnabled e;
     m_cloudEnabled := m_cloudEnabled e;
     m_databasePath := m_databasePath e;
     m_quarantinePath := m_quarantinePath e;
     m_signatures := m_signatures e;
     m_fileTypeSignatures := m_fileTypeSignatures e;
     m_heuristicRules := m_heuristicRules e;
     m_quarantineEntries := q |}.

(** The unique quarantine filename built from the clock and the basename. *)
Definition quarantineFile (e : Engine) (w : World) (filePath : string) : string :=
  m_quarantinePath e +:+ "\" +:+ pretty (clock w) +:+ "_" +:+ path_filename filePath.

Definition QuarantineFile (e : Engine) (w : World) (filePath threatName : string)
    : bool * Engine * World :=
  if negb (m_initialized e) then (false, e, w)
  else if negb (Utils.FileExists w filePath) then (false, e, w)
  else
    let timestamp := clock w in
    let target := quarantineFile e w filePath in
    (* Move file to quarantine *)
    let '(moved, w1) := MoveFile w filePath target in
    if moved then
      (* Store quarantine metadata *)
      let entry := mkQuarantineEntry filePath target threatName timestamp in
      let e1 := with_quarantineEntries e (m_quarantineEntries e ++ [entry]) in
      let w2 := SaveQuarantineMetadata e1 w1 in
      (true, e1,
       log_if (m_logger e) Info "File quarantined: %s -> %s (Threat: %s)"
              [filePath; target; threatName] w2)
    else
      (false, e,
       log_if (m_logger e) Error "Failed to quarantine file: %s" [filePath] w1).

(** ** [ThreatEngine::UpdateDatabase] *)

Definition with_databaseVersion (e : Engine) (v : Z) : Engine :=
  {| m_logger := m_logger e; m_initialized := m_initialized e;
     m_databaseVersion := v;
     m_signatureCount := m_signatureCount e;
     m_heuristicsEnabled := m_heuristicsEnabled e;
     m_cloudEnabled := m_cloudEnabled e;
     m_databasePath := m_databasePath e;
     m_quarantinePath := m_quarantinePath e;
     m_signatures := m_signatures e;
     m_fileTypeSignatures := m_fileTypeSignatures e;
     m_heuristicRules := m_heuristicRules e;
     m_quarantineEntries := m_quarantineEntries e |}.

Definition UpdateDatabase (e : Engine) (w : World) : bool * Engine * World :=
  let w1 := log_if (m_logger e) Info "Updating threat database..." [] w in
  (* m_databaseVersion++ on a uint32_t *)
  let e1 := with_databaseVersion e (wrap32 (m_databaseVersion e + 1)) in
  let w2 := log_if (m_logger e) Info "Database updated to version %d"
                   [pretty (m_databaseVersion e1)] w1 in
  (true, e1, w2).

(** ** [ThreatEngine::CreateDefaultDatabase]: the built-in signatures *)

Definition defaultSignatures : list VirusSignature :=
  [ mkVirusSignature "PE.Suspicious.Header" (list_byte_of_string "MZ") 3 0;
    mkVirusSignature "Script.Suspicious.PowerShell"
      (list_byte_of_string "powershell") 5 (-1);
    mkVirusSignature "Ransomware.Generic.Extension"
      (list_byte_of_string ".locked") 10 (-1) ].

(** ** [ThreatEngine::RestoreFromQuarantine] *)

Definition RestoreFromQuarantine (e : Engine) (w : World) (vaultPath : string)
    : bool * Engine * World :=
  match list_find (fun entry => quarantinePath entry = vaultPath)
                  (m_quarantineEntries e) with
  | Some (i, entry) =>
      let '(moved, w1) := MoveFile w (quarantinePath entry) (originalPath entry) in
      if moved then
        let w2 := log_if (m_logger e) Info "File restored from quarantine: %s -> %s"
                         [quarantinePath entry; originalPath entry] w1 in
        let e1 := with_quarantineEntries e (delete i (m_quarantineEntries e)) in
        (true, e1, SaveQuarantineMetadata e1 w2)
      else (false, e, w1)
  | None => (false, e, w)
  end.

(** ** [ThreatEngine::ScanDirectory] *)

Fixpoint ScanDirectory_loop (entries : list string) (e : Engine) (w : World)
    (threats : list ThreatInfo) : World * list ThreatInfo :=
  match entries with
  | [] => (w, threats)
  | path :: rest =>
      let '(found, threat, w1) := ScanFile e w path empty_threat in
      ScanDirectory_loop rest e w1 (if found then threats ++ [threat] else threats)
  end.

(** The iterator is created without [skip_permission_denied]: below a
    directory with a sub-directory that cannot be read it yields the files
    that come first and then throws; the handler logs the error and the
    scan returns false, the threats found so far staying in the caller's
    vector. *)
Definition ScanDirectory (e : Engine) (w : World) (dirPath : string)
    (threats : list ThreatInfo) : bool * World * list ThreatInfo :=
  if negb (m_initialized e) then (false, w, threats)
  else if negb (Utils.DirectoryExists w dirPath) then (false, w, threats)
  else
    let w0 := log_if (m_logger e) Info "Scanning directory: %s" [dirPath] w in
    let entries := default [] (directories w !! dirPath) in
    match unreadable_below w dirPath with
    | Some (yielded, what) =>
        let '(w1, threats1) :=
          ScanDirectory_loop (take yielded entries) e w0 threats in
        (false,
         log_if (m_logger e) Error "Error scanning directory %s: %S"
                [dirPath; what] w1,
         threats1)
    | None =>
        let '(w1, threats1) := ScanDirectory_loop entries e w0 threats in
        (true,
         log_if (m_logger e) Info "Directory scan complete. Threats found: %zu"
                [pretty (vsize threats1 - vsize threats)] w1,
         threats1)
    end.

(** ** The signature database file

    [SaveSignatureDatabase] writes, little endian: the magic number, the
    version, [m_signatureCount], and for every signature of the list the
    length of its name, the name as raw [wchar_t], the severity, the
    length of the pattern, the pattern and the offset. *)

Definition SIGS_MAGIC : Z := 0x53494753.

Definition databaseFile (e : Engine) : string :=
  m_databasePath e +:+ "\signatures.db".

Definition serialize_signature (sig : VirusSignature) : list byte :=
  let nameLen := wrap32 (Z.of_nat (String.length (name sig))) in
  let sigLen := wrap32 (vsize (signature sig)) in
  le_bytes 4 nameLen ++
  wchar_bytes (string_of_list_ascii
                 (take (Z.to_nat nameLen) (list_ascii_of_string (name sig)))) ++
  le_bytes 4 (severity sig) ++
  le_bytes 4 sigLen ++
  take (Z.to_nat sigLen) (signature sig) ++
  le_bytes 4 (offset sig).

Definition serialize_database (e : Engine) : list byte :=
  le_bytes 4 SIGS_MAGIC ++ le_bytes 4 (m_databaseVersion e) ++
  le_bytes 4 (m_signatureCount e) ++
  flat_map serialize_signature (m_signatures e).

Definition SaveSignatureDatabase (e : Engine) (w : World) : bool * World :=
  if open_denied w (databaseFile e) then (false, w)
  else (true, with_files w (<[databaseFile e := serialize_database e]> (files w))).

(** Reading side.  A reader consumes bytes from the front of what is left
    of the stream.  It yields no result when the stream ends inside a
    field: [ifstream::read] then leaves the variable it was filling
    unspecified, and what [LoadSignatureDatabase] does with it is not
    determined by the source.  The same holds for a name with a code unit
    above 255, which [string] cannot hold. *)
Definition Reader (A : Type) : Type := list byte -> option (A * list byte).

Definition reader_ret {A : Type} (a : A) : Reader A := fun bs => Some (a, bs).

Definition reader_bind {A B : Type} (r : Reader A) (k : A -> Reader B) : Reader B :=
  fun bs => match r bs with
            | Some (a, rest) => k a rest
            | None => None
            end.

Notation "x <-r r ;; k" := (reader_bind r (fun x => k))
  (at level 100, r at next level, right associativity).

Definition read_bytes (n : nat) : Reader (list byte) :=
  fun bs => if (n <=? length bs)%nat then Some (take n bs, drop n bs) else None.

Definition read_u32 : Reader Z :=
  bs <-r read_bytes 4 ;; reader_ret (le_value bs).

Definition read_i32 : Reader Z :=
  bs <-r read_bytes 4 ;;
  let v := le_value bs in
  reader_ret (if v <? 2 ^ 31 then v else v - 2 ^ 32).

(** [n] units of [wchar_t], low byte first. *)
Fixpoint decode_wchars (bs : list byte) : option (list ascii) :=
  match bs with
  | [] => Some []
  | lo :: hi :: rest =>
      if byte_eqb hi "000"%byte
      then option_map (cons (ascii_of_N (Byte.to_N lo))) (decode_wchars rest)
      else None
  | [_] => None
  end.

Definition read_wstring (n : nat) : Reader string :=
  fun bs => match read_bytes (2 * n) bs with
            | Some (raw, rest) =>
                option_map (fun cs => (string_of_list_ascii cs, rest))
                           (decode_wchars raw)
            | None => None
            end.

Definition read_signature : Reader VirusSignature :=
  nameLen <-r read_u32 ;;
  nm <-r read_wstring (Z.to_nat nameLen) ;;
  sev <-r read_u32 ;;
  sigLen <-r read_u32 ;;
  pat <-r read_bytes (Z.to_nat sigLen) ;;
  off <-r read_i32 ;;
  reader_ret (mkVirusSignature nm pat sev off).

(** The loop [for (i = 0; i < count; ++i)] with its [push_back]. *)
Fixpoint read_signatures (count : nat) (acc : list VirusSignature)
    : Reader (list VirusSignature) :=
  match count with
  | O => reader_ret acc
  | S k => sig <-r read_signature ;; read_signatures k (acc ++ [sig])
  end.

Definition read_header : Reader (Z * Z * Z) :=
  magic <-r read_u32 ;; version <-r read_u32 ;; count <-r read_u32 ;;
  reader_ret (magic, version, count).

Definition with_database (e : Engine) (version : Z)
    (sigs : list VirusSignature) (count : Z) : Engine :=
  {| m_logger := m_logger e; m_initialized := m_initialized e;
     m_databaseVersion := version;
     m_signatureCount := count;
     m_heuristicsEnabled := m_heuristicsEnabled e;
     m_cloudEnabled := m_cloudEnabled e;
     m_databasePath := m_databasePath e;
     m_quarantinePath := m_quarantinePath e;
     m_signatures := sigs;
     m_fileTypeSignatures := m_fileTypeSignatures e;
     m_heuristicRules := m_heuristicRules e;
     m_quarantineEntries := m_quarantineEntries e |}.

Definition LoadSignatureDatabase (e : Engine) (w : World) : option (bool * Engine) :=
  if open_denied w (databaseFile e) then Some (false, e)
  else match files w !! databaseFile e with
       | None => Some (false, e)
       | Some content =>
           match read_header content with
           | None => None
           | Some ((magic, version, count), rest) =>
               if negb (magic =? SIGS_MAGIC) then Some (false, e)
               else match read_signatures (Z.to_nat count) [] rest with
                    | None => None
                    | Some (sigs, _) =>
                        Some (true, with_database e version sigs (wrap32 (vsize sigs)))
                    end
           end
       end.


(** ** [ThreatEngine::ThreatEngine], [Initialize], [Shutdown] *)


(** The prefixes of a path that end before a separator, and the path. *)
Fixpoint path_prefixes (seen rest : list ascii) : list (list ascii) :=
  match rest with
  | [] => [seen]
  | c :: r => (if is_separator c then [seen] else []) ++ path_prefixes (seen ++ [c]) r
  end.

(** The empty prefix and a root name such as [C:] are no directories to
    create. *)
Definition is_root_name (q : list ascii) : bool :=
  match q with
  | [] => true
  | [d; c] => is_drive_letter d && ascii_eqb c ":"%char
  | _ => false
  end.

Definition path_components (p : string) : list string :=
  map string_of_list_ascii
      (List.filter (fun q => negb (is_root_name q))
                   (path_prefixes [] (list_ascii_of_string p))).

(** [std::filesystem::create_directories]: creates every component that
    does not exist yet; throws ([None]) when a component exists and is not
    a directory.  A new directory holds no file. *)
Fixpoint create_each (components : list string) (w : World) : option World :=
  match components with
  | [] => Some w
  | d :: rest =>
      match files w !! d with
      | Some _ => None
      | None =>
          match directories w !! d with
          | Some _ => create_each rest w
          | None => create_each rest (with_directories w (<[d := []]> (directories w)))
          end
      end
  end.

Definition create_directories (w : World) (p : string) : option World :=
  create_each (path_components p) w.






(** [ThreatEngine::Shutdown]. *)
Definition Shutdown (e : Engine) (w : World) : Engine * World :=
  if negb (m_initialized e) then (e, w)
  else
    let w1 := log_if (m_logger e) Info "Shutting down Threat Engine..." [] w in
    let e1 :=
      {| m_logger := m_logger e; m_initialized := false;
         m_databaseVersion := m_databaseVersion e;
         m_signatureCount := m_signatureCount e;
         m_heuristicsEnabled := m_heuristicsEnabled e;
         m_cloudEnabled := m_cloudEnabled e;
         m_databasePath := m_databasePath e;
         m_quarantinePath := m_quarantinePath e;
         m_signatures := []; m_fileTypeSignatures := ∅;
         m_heuristicRules := [];
         m_quarantineEntries := m_quarantineEntries e |} in
    (e1, log_if (m_logger e) Info "Threat Engine shutdown complete" [] w1).

End ThreatEngine.

(** * std::priority_queue over std::vector

    [push] is [push_back] followed by [std::push_heap]; [pop] is
    [std::pop_heap] followed by [pop_back]; [top] is [front].  The two heap
    algorithms are the ones of the MSVC and GNU standard libraries: a hole
    is moved up towards the root ([push_heap_by_index]), respectively down
    to a leaf along the larger children and then up again
    ([pop_heap_hole_by_index]). *)

Section Heap.
Context {A : Type} `{Inhabited A} (lt : A -> A -> bool).

(** Percolate [hole] to [top] or where [val] belongs.  The hole index
    strictly decreases, so [fuel = hole] iterations are enough. *)
Fixpoint push_heap_loop (fuel : nat) (v : list A) (hole top : nat) (val : A)
    : list A :=
  let idx := ((hole - 1) / 2)%nat in
  match fuel with
  | O => <[hole := val]> v
  | S f =>
      if (top <? hole)%nat && lt (v !!! idx) val
      then (* move hole up to parent *)
           push_heap_loop f (<[hole := v !!! idx]> v) idx top val
      else <[hole := val]> v   (* drop val into final hole *)
  end.

Definition push_heap_by_index (v : list A) (hole top : nat) (val : A) : list A :=
  push_heap_loop hole v hole top val.

(** Move the hole down to the larger child while it has two children. *)
Fixpoint hole_down_loop (fuel : nat) (v : list A) (idx max_non_leaf : nat)
    : list A * nat :=
  match fuel with
  | O => (v, idx)
  | S f =>
      if (idx <? max_non_leaf)%nat then
        let r := (2 * idx + 2)%nat in
        let c := if lt (v !!! r) (v !!! (r - 1)%nat) then (r - 1)%nat else r in
        hole_down_loop f (<[idx := v !!! c]> v) c max_non_leaf
      else (v, idx)
  end.

Definition pop_heap_hole_by_index (v : list A) (hole bottom : nat) (val : A)
    : list A :=
  let top := hole in
  let max_non_leaf := ((bottom - 1) / 2)%nat in
  let '(v1, idx) := hole_down_loop bottom v hole max_non_leaf in
  let '(v2, hole2) :=
    if (idx =? max_non_leaf)%nat && (bottom mod 2 =? 0)%nat
    then (* only child at bottom, move hole down to it *)
         (<[idx := v1 !!! (bottom - 1)%nat]> v1, (bottom - 1)%nat)
    else (v1, idx) in
  push_heap_by_index v2 hole2 top val.

(** [std::push_heap(first, last)]. *)
Definition push_heap (v : list A) : list A :=
  let count := length v in
  if (2 <=? count)%nat
  then push_heap_by_index v (count - 1) 0 (v !!! (count - 1)%nat)
  else v.

(** [std::pop_heap(first, last)]. *)
Definition pop_heap (v : list A) : list A :=
  let count := length v in
  if (2 <=? count)%nat then
    let val := v !!! (count - 1)%nat in
    let v1 := <[(count - 1)%nat := v !!! 0%nat]> v in
    pop_heap_hole_by_index v1 0 (count - 1) val
  else v.

Definition pq_push (v : list A) (x : A) : list A := push_heap (v ++ [x]).
Definition pq_top (v : list A) : option A := head v.
Definition pq_pop (v : list A) : list A := removelast (pop_heap v).

(** Pop until empty: the order in which a single consumer sees the items. *)
Fixpoint pq_drain (fuel : nat) (v : list A) : list A :=
  match fuel with
  | O => []
  | S f => match pq_top v with
           | None => []
           | Some x => x :: pq_drain f (pq_pop v)
           end
  end.
End Heap.

(** ** Heap order

    The comparison of the queue looks at one integer key of each item.
    A vector is a heap up to [n] when no item below index [n] has a larger
    key than its parent. *)

Definition key_lt {A : Type} (key : A -> Z) (a b : A) : bool := key a <? key b.

Definition parent (i : nat) : nat := ((i - 1) / 2)%nat.

Definition heap_upto {A : Type} `{Inhabited A} (key : A -> Z) (n : nat)
    (v : list A) : Prop :=
  forall i, (0 < i < n)%nat -> key (v !!! i) <= key (v !!! parent i).

Definition is_heap {A : Type} `{Inhabited A} (key : A -> Z) (v : list A) : Prop :=
  heap_upto key (length v) v.

(** A heap up to [n] with a hole at [idx]: the order holds along every
    edge that does not touch the hole, and the children of the hole are
    below the parent of the hole. *)
Definition hole_inv {A : Type} `{Inhabited A} (key : A -> Z) (n : nat)
    (v : list A) (idx : nat) : Prop :=
  (forall i, (0 < i < n)%nat -> i <> idx -> parent i <> idx ->
             key (v !!! i) <= key (v !!! parent i)) /\
  (forall i, (0 < i < n)%nat -> parent i = idx -> (0 < idx)%nat ->
             key (v !!! i) <= key (v !!! parent idx)).

(** The same, with the children of the hole below the value that is
    looking for its place. *)
Definition heap_except {A : Type} `{Inhabited A} (key : A -> Z) (n : nat)
    (v : list A) (hole : nat) (val : A) : Prop :=
  hole_inv key n v hole /\
  (forall i, (0 < i < n)%nat -> parent i = hole -> key (v !!! i) <= key val).

(** Items in the order of their keys, largest first. *)
Definition key_descending {A : Type} (key : A -> Z) (l : list A) : Prop :=
  StronglySorted (fun a b => key b <= key a) l.

(** * file_monitor.h / file_monitor.cpp *)

Module FileMonitor.

Import ThreatEngine.

Record ScanRequest := mkScanRequest {
  filePath : string;
  priority : Z;          (* uint32_t *)
  timestamp : Z          (* std::chrono::steady_clock::time_point *)
}.

#[global] Instance ScanRequest_inhabited : Inhabited ScanRequest :=
  populate (mkScanRequest "" 0 0).

(** [ScanRequest::operator<]: for the priority queue (higher priority first). *)
Definition request_lt (a other : ScanRequest) : bool :=
  priority a <? priority other.

(** The members of [class FileMonitor] the event and worker paths use;
    [m_threatEngine] records whether the pointer is non-null. *)
Record Monitor := mkMonitor {
  m_logger : bool;
  m_threatEngine : bool;
  m_running : bool;
  m_realTimeProtectionEnabled : bool;
  m_scanQueue : list ScanRequest;     (* the vector under the priority queue *)
  m_scanDelayMs : Z
}.

Definition with_scanQueue (m : Monitor) (q : list ScanRequest) : Monitor :=
  {| m_logger := m_logger m; m_threatEngine := m_threatEngine m;
     m_running := m_running m;
     m_realTimeProtectionEnabled := m_realTimeProtectionEnabled m;
     m_scanQueue := q; m_scanDelayMs := m_scanDelayMs m |}.

Definition FILE_ACTION_ADDED : Z := 1.
Definition FILE_ACTION_REMOVED : Z := 2.
Definition FILE_ACTION_MODIFIED : Z := 3.

Definition skipExtensions : list string :=
  [ ".log"; ".tmp"; ".temp"; ".swp"; ".bak"; ".txt"; ".ini"; ".xml"; ".json" ]%string.

Definition ShouldSkipFile (path : string) : bool :=
  let lowerPath := wstring_lower path in
  (* Skip temporary files *)
  if wstring_contains lowerPath "\temp\" ||
     wstring_contains lowerPath "\tmp\" ||
     wstring_contains lowerPath "\appdata\local\temp\" then true
  (* Skip system directories *)
  else if wstring_contains lowerPath "\windows\winsxs\" ||
          wstring_contains lowerPath "\windows\servicing\" ||
          wstring_contains lowerPath "\system volume information\" then true
  else
    (* Skip log files and other non-executable files *)
    let ext := wstring_lower (path_extension path) in
    existsb (String.eqb ext) skipExtensions.

Definition ext_in (ext : string) (l : list string) : bool :=
  existsb (String.eqb ext) l.

Definition DetermineScanPriority (path : string) : Z :=
  let ext := wstring_lower (path_extension path) in
  (* High priority for executables *)
  if ext_in ext [".exe"; ".dll"; ".scr"; ".com"; ".pif"]%string then 10
  (* Medium priority for scripts *)
  else if ext_in ext [".bat"; ".cmd"; ".ps1"; ".vbs"; ".js"]%string then 7
  (* Medium priority for documents *)
  else if ext_in ext [".doc"; ".docx"; ".xls"; ".xlsx"; ".ppt"; ".pptx"]%string then 5
  (* Low priority for archives *)
  else if ext_in ext [".zip"; ".rar"; ".7z"; ".tar"]%string then 3
  (* Default priority *)
  else 1.

(** [FileMonitor::ProcessFileEvent]; [now] is what
    [std::chrono::steady_clock::now()] returns for this event. *)
Definition ProcessFileEvent (m : Monitor) (w : World) (path : string)
    (action : Z) (now : Z) : Monitor * World :=
  if negb (m_realTimeProtectionEnabled m) then (m, w)
  (* Filter out system and temporary files *)
  else if ShouldSkipFile path then (m, w)
  (* Only process file creation and modification events *)
  else if (action =? FILE_ACTION_ADDED) || (action =? FILE_ACTION_MODIFIED) then
    (* Add to scan queue *)
    let request := mkScanRequest path (DetermineScanPriority path) now in
    (with_scanQueue m (pq_push request_lt (m_scanQueue m) request),
     log_if (m_logger m) Debug "Queued file for scan: %s" [path] w)
  else (m, w).

(** The report every detected threat leaves in the log. *)
Definition threat_report (m : Monitor) (threat : ThreatInfo) (w : World) : World :=
  log_if (m_logger m) Critical
    "THREAT DETECTED: %s in file %s (Level: %d)"
    [threat_name threat; file_path threat; pretty (threat_level threat)] w.

(** [FileMonitor::HandleThreatDetection]. *)
Definition HandleThreatDetection (m : Monitor) (e : Engine) (w : World)
    (threat : ThreatInfo) : Engine * World :=
  let w1 := threat_report m threat w in
  (* Automatically quarantine high-severity threats *)
  if 8 <=? threat_level threat then
    if m_threatEngine m then
      let '(ok, e1, w2) := QuarantineFile e w1 (file_path threat) (threat_name threat) in
      if ok then
        (e1, log_if (m_logger m) Info
               "High-severity threat automatically quarantined: %s"
               [file_path threat] w2)
      else (e1, w2)
    else (e, w1)
  else (e, w1).

(** [FileMonitor::ProcessScanRequest] (the debounce sleep does not change
    the state). *)
Definition ProcessScanRequest (m : Monitor) (e : Engine) (w : World)
    (request : ScanRequest) : Engine * World :=
  (* Check if file still exists and is accessible *)
  if negb (Utils.FileExists w (filePath request)) then (e, w)
  else if m_threatEngine m then
    let '(isThreat, threat, w1) := ScanFile e w (filePath request) empty_threat in
    if isThreat then HandleThreatDetection m e w1 threat   (* Threat detected! *)
    else (e, w1)
  else (e, w).

(** One iteration of [FileMonitor::WorkerThread] that finds work. *)
Definition WorkerThread_step (m : Monitor) (e : Engine) (w : World)
    : Monitor * Engine * World :=
  if negb (m_running m) then (m, e, w)
  else match pq_top (m_scanQueue m) with
       | None => (m, e, w)
       | Some request =>
           let m1 := with_scanQueue m (pq_pop request_lt (m_scanQueue m)) in
           let '(e1, w1) := ProcessScanRequest m1 e w request in
           (m1, e1, w1)
       end.

(** What happens to a monitor over time: the watch thread delivers a file
    event (with the clock reading taken at that moment), or a worker takes
    the next request. *)
Inductive MonitorStep :=
| FileEvent (path : string) (action : Z) (now : Z)
| WorkerStep.

Definition monitor_step (st : Monitor * Engine * World) (s : MonitorStep)
    : Monitor * Engine * World :=
  let '(m, e, w) := st in
  match s with
  | FileEvent path action now =>
      let '(m1, w1) := ProcessFileEvent m w path action now in (m1, e, w1)
  | WorkerStep => WorkerThread_step m e w
  end.

Definition run_monitor (m : Monitor) (e : Engine) (w : World)
    (steps : list MonitorStep) : Monitor * Engine * World :=
  fold_left monitor_step steps (m, e, w).

(** The scan queue after the steps. *)
Definition queue_after (m : Monitor) (e : Engine) (w : World)
    (steps : list MonitorStep) : list ScanRequest :=
  m_scanQueue (fst (fst (run_monitor m e w steps))).

(** ** The watch list: [AddWatchPath], [RemoveWatchPath], [Shutdown]

    [m_watchedPaths] and [m_watchHandles], together with the handles the
    monitor has given back to the system with [CloseHandle]. *)

Record WatchInfo := mkWatchInfo {
  handle : Z;              (* HANDLE *)
  path : string;
  buffer : list byte;
  overlapped_hEvent : Z    (* the OVERLAPPED structure after ZeroMemory *)
}.

Record Watches := mkWatches {
  m_watchedPaths : list string;
  m_watchHandles : gmap string WatchInfo;
  closed : gset Z
}.

Definition INVALID_HANDLE_VALUE : Z := -1.

Definition no_watches : Watches := mkWatches [] ∅ ∅.

(** [created] is what [CreateFile] returns for the directory, should the
    call be made. *)
Definition AddWatchPath (logger : bool) (ws : Watches) (w : World)
    (dir : string) (created : Z) : Watches * World :=
  if bool_decide (dir ∈ m_watchedPaths ws) then (ws, w)   (* Already watching *)
  else if negb (Utils.DirectoryExists w dir) then
    (ws, log_if logger Warning "Cannot watch non-existent path: %s" [dir] w)
  else if created =? INVALID_HANDLE_VALUE then
    (ws, log_if logger Error
           "Failed to create watch handle for path: %s (Error: %d)" [dir] w)
  else
    let watchInfo := mkWatchInfo created dir (replicate (64 * 1024) "000"%byte) 0 in
    (mkWatches (m_watchedPaths ws ++ [dir])
               (<[dir := watchInfo]> (m_watchHandles ws))
               (closed ws),
     log_if logger Info "Added watch path: %s" [dir] w).

(** [v.erase(std::find(v.begin(), v.end(), x))] when [x] is found. *)
Definition erase_first (x : string) (v : list string) : list string :=
  match list_find (fun y => y = x) v with
  | Some (i, _) => delete i v
  | None => v
  end.

Definition RemoveWatchPath (logger : bool) (ws : Watches) (w : World)
    (dir : string) : Watches * World :=
  let paths := erase_first dir (m_watchedPaths ws) in
  let ws1 :=
    match m_watchHandles ws !! dir with
    | Some info =>
        mkWatches paths (delete dir (m_watchHandles ws))
                  (if handle info =? INVALID_HANDLE_VALUE then closed ws
                   else closed ws ∪ {[ handle info ]})
    | None => mkWatches paths (m_watchHandles ws) (closed ws)
    end in
  (ws1, log_if logger Info "Removed watch path: %s" [dir] w).

(** [FileMonitor::Shutdown].  A monitor that is not running returns at
    once.  Otherwise the running flag is cleared, the threads are joined
    (which leaves no trace in this state), and the loop over
    [m_watchHandles] closes every handle that is not
    [INVALID_HANDLE_VALUE] before both containers are cleared.  The loop
    visits the entries of the map one by one; the set of closed handles
    it builds does not depend on the order of the visit. *)
Definition with_running (m : Monitor) (running : bool) : Monitor :=
  {| m_logger := m_logger m; m_threatEngine := m_threatEngine m;
     m_running := running;
     m_realTimeProtectionEnabled := m_realTimeProtectionEnabled m;
     m_scanQueue := m_scanQueue m; m_scanDelayMs := m_scanDelayMs m |}.

(** The body of the loop: [if (handle != INVALID_HANDLE_VALUE)
    CloseHandle(handle)]. *)
Definition close_watch (closed : gset Z) (watch : string * WatchInfo) : gset Z :=
  if handle (snd watch) =? INVALID_HANDLE_VALUE then closed
  else closed ∪ {[ handle (snd watch) ]}.

Definition Shutdown (m : Monitor) (ws : Watches) (w : World)
    : Monitor * Watches * World :=
  if negb (m_running m) then (m, ws, w)
  else
    let w1 := log_if (m_logger m) Info "Shutting down File Monitor..." [] w in
    let m1 := with_running m false in
    (* Clean up watch handles *)
    let closed1 :=
      foldl close_watch (closed ws) (map_to_list (m_watchHandles ws)) in
    (m1, mkWatches [] ∅ closed1,
     log_if (m_logger m) Info "File Monitor shutdown complete" [] w1).

(** A history of calls on the watch list. *)
Inductive WatchOp :=
| OpAdd (dir : string) (created : Z)
| OpRemove (dir : string).

Definition watch_step (logger : bool) (st : Watches * World) (op : WatchOp)
    : Watches * World :=
  match op with
  | OpAdd dir created => AddWatchPath logger (fst st) (snd st) dir created
  | OpRemove dir => RemoveWatchPath logger (fst st) (snd st) dir
  end.

End FileMonitor.

(** * scanner.h / scanner.cpp *)

Module Scanner.

Import ThreatEngine.

Inductive ScanResult := Success | Failed | Cancelled | AccessDenied.

Record ScanStatistics := mkStats {
  totalFiles : Z;        (* uint64_t *)
  scannedFiles : Z;
  skippedFiles : Z;
  threatsFound : Z;
  totalBytes : Z;
  scannedBytes : Z;
  progressPercent : Z;   (* uint32_t *)
  startTime : Z;
  endTime : Z
}.

Record ScanOptions := mkOptions {
  scanArchives : bool;
  deepScan : bool;
  heuristicAnalysis : bool;
  followSymlinks : bool;
  maxFileSize : Z;       (* uint64_t *)
  exclusions : list string;
  extensions : list string
}.

(** One invocation of the progress callback. *)
Record ProgressCall := mkProgressCall {
  pc_file : string;
  pc_percent : Z;
  pc_stats : ScanStatistics
}.

(** The members of [class Scanner]; the two [std::function] members are
    represented by whether they are set, by the calls made so far, and by
    what a call does: it returns, or it throws a [std::exception] with
    some message.  Which of the two may depend on all the calls the
    callback has received, the current one included.  (A callback that
    throws an object that is no [std::exception] is not described: no
    handler of the scanner catches it.) *)
Record Scanner := mkScanner {
  m_logger : bool;
  m_threatEngine : bool;
  m_options : ScanOptions;
  m_statistics : ScanStatistics;
  m_isScanning : bool;
  m_cancelRequested : bool;
  m_progressCallback : bool;
  m_threatCallback : bool;
  progress_calls : list ProgressCall;
  threat_calls : list ThreatInfo;
  progress_throws : list ProgressCall -> option string;
  threat_throws : list ThreatInfo -> option string
}.

(** [ScanStatistics()] *)
Definition ScanStatistics_default : ScanStatistics :=
  mkStats 0 0 0 0 0 0 0 0 0.

Definition defaultExclusions : list string :=
  [ "C:\Windows\WinSxS"; "C:\Windows\Servicing";
    "C:\System Volume Information"; "C:\$Recycle.Bin";
    "C:\hiberfil.sys"; "C:\pagefile.sys"; "C:\swapfile.sys" ]%string.

(** [ScanOptions()] followed by the constructor of [Scanner]. *)
Definition ScanOptions_default : ScanOptions :=
  mkOptions false false true false (100 * 1024 * 1024) defaultExclusions [].

Definition Scanner_new (logger engine : bool) : Scanner :=
  mkScanner logger engine ScanOptions_default ScanStatistics_default
            false false false false [] [] (fun _ => None) (fun _ => None).

Definition with_statistics (s : Scanner) (st : ScanStatistics) : Scanner :=
  {| m_logger := m_logger s; m_threatEngine := m_threatEngine s;
     m_options := m_options s; m_statistics := st;
     m_isScanning := m_isScanning s; m_cancelRequested := m_cancelRequested s;
     m_progressCallback := m_progressCallback s;
     m_threatCallback := m_threatCallback s;
     progress_calls := progress_calls s; threat_calls := threat_calls s;
     progress_throws := progress_throws s; threat_throws := threat_throws s |}.

Definition with_progress_calls (s : Scanner) (l : list ProgressCall) : Scanner :=
  {| m_logger := m_logger s; m_threatEngine := m_threatEngine s;
     m_options := m_options s; m_statistics := m_statistics s;
     m_isScanning := m_isScanning s; m_cancelRequested := m_cancelRequested s;
     m_progressCallback := m_progressCallback s;
     m_threatCallback := m_threatCallback s;
     progress_calls := l; threat_calls := threat_calls s;
     progress_throws := progress_throws s; threat_throws := threat_throws s |}.

Definition with_threat_calls (s : Scanner) (l : list ThreatInfo) : Scanner :=
  {| m_logger := m_logger s; m_threatEngine := m_threatEngine s;
     m_options := m_options s; m_statistics := m_statistics s;
     m_isScanning := m_isScanning s; m_cancelRequested := m_cancelRequested s;
     m_progressCallback := m_progressCallback s;
     m_threatCallback := m_threatCallback s;
     progress_calls := progress_calls s; threat_calls := l;
     progress_throws := progress_throws s; threat_throws := threat_throws s |}.

(** Field updates of [m_statistics]. *)
Definition incr_skipped (st : ScanStatistics) : ScanStatistics :=
  mkStats (totalFiles st) (scannedFiles st) (wrap64 (skippedFiles st + 1))
          (threatsFound st) (totalBytes st) (scannedBytes st)
          (progressPercent st) (startTime st) (endTime st).

Definition incr_scanned (st : ScanStatistics) (bytes : Z) : ScanStatistics :=
  mkStats (totalFiles st) (wrap64 (scannedFiles st + 1)) (skippedFiles st)
          (threatsFound st) (totalBytes st) (wrap64 (scannedBytes st + bytes))
          (progressPercent st) (startTime st) (endTime st).

Definition incr_threats (st : ScanStatistics) : ScanStatistics :=
  mkStats (totalFiles st) (scannedFiles st) (skippedFiles st)
          (wrap64 (threatsFound st + 1)) (totalBytes st) (scannedBytes st)
          (progressPercent st) (startTime st) (endTime st).

Definition incr_total (st : ScanStatistics) (bytes : Z) : ScanStatistics :=
  mkStats (wrap64 (totalFiles st + 1)) (scannedFiles st) (skippedFiles st)
          (threatsFound st) (wrap64 (totalBytes st + bytes)) (scannedBytes st)
          (progressPercent st) (startTime st) (endTime st).

Definition set_progress (st : ScanStatistics) (p : Z) : ScanStatistics :=
  mkStats (totalFiles st) (scannedFiles st) (skippedFiles st)
          (threatsFound st) (totalBytes st) (scannedBytes st)
          p (startTime st) (endTime st).

(** [Scanner::IsExcludedPath]: [lowerPath.find(lowerExclusion) == 0]. *)
Definition IsExcludedPath (s : Scanner) (path : string) : bool :=
  let lowerPath := list_ascii_of_string (wstring_lower path) in
  existsb (fun exclusion =>
             let lowerExclusion := list_ascii_of_string (wstring_lower exclusion) in
             (* found at position 0: the exclusion is a prefix of the path *)
             std_equal ascii_eqb lowerExclusion lowerPath)
          (exclusions (m_options s)).

(** [Scanner::IsAllowedExtension]. *)
Definition IsAllowedExtension (s : Scanner) (extension : string) : bool :=
  match extensions (m_options s) with
  | [] => true   (* No filter means allow all *)
  | _ :: _ => existsb (String.eqb (wstring_lower extension))
                      (extensions (m_options s))
  end.

(** [Scanner::ShouldScanFile]. *)
Definition ShouldScanFile (s : Scanner) (w : World) (path : string) : bool :=
  (* Check file size limit *)
  if maxFileSize (m_options s) <? Utils.GetFileSize w path then false
  (* Check extension filter *)
  else if match extensions (m_options s) with
          | [] => false
          | _ :: _ => negb (IsAllowedExtension s (wstring_lower (path_extension path)))
          end then false
  (* Check if path is excluded *)
  else negb (IsExcludedPath s path).

(** [Scanner::UpdateProgress]. *)
Definition UpdateProgress (st : ScanStatistics) : ScanStatistics :=
  let st1 :=
    if 0 <? totalFiles st
    then set_progress st (wrap32 (wrap64 (scannedFiles st * 100) / totalFiles st))
    else st in
  if 100 <? progressPercent st1 then set_progress st1 100 else st1.

(** The handler of [Scanner::ScanSingleFile]:
    [catch (const std::exception& e)]. *)
Definition scan_failed (s : Scanner) (w : World) (path what : string)
    (threats : list ThreatInfo) : ScanResult * Scanner * World * list ThreatInfo :=
  (Failed, with_statistics s (incr_skipped (m_statistics s)),
   log_if (m_logger s) Error "Error scanning file %s: %S" [path; what] w,
   threats).

(** [Scanner::ScanSingleFile].  The engine is only read by
    [ThreatEngine::ScanFile]; its log lines go to the world.  Inside the
    [try] block only the two callbacks can throw: [UpdateProgress] is
    arithmetic, [ThreatEngine::ScanFile] and [Utils::GetFileSize] catch
    what their bodies throw.  A callback that throws has been called, and
    what was done before the call stays done: a throwing threat callback
    leaves the file counted as scanned, the threat counted and appended,
    and the handler then counts the file as skipped too. *)
Definition ScanSingleFile (s : Scanner) (e : Engine) (w : World)
    (path : string) (threats : list ThreatInfo)
    : ScanResult * Scanner * World * list ThreatInfo :=
  if m_cancelRequested s then (Cancelled, s, w, threats)
  else if negb (ShouldScanFile s w path) then
    (Success, with_statistics s (incr_skipped (m_statistics s)), w, threats)
  else
    (* Update progress callback *)
    let s1 :=
      if m_progressCallback s then
        let st := UpdateProgress (m_statistics s) in
        with_progress_calls (with_statistics s st)
          (progress_calls s ++ [mkProgressCall path (progressPercent st) st])
      else s in
    match (if m_progressCallback s then progress_throws s1 (progress_calls s1)
           else None) with
    | Some what => scan_failed s1 w path what threats
    | None =>
        (* Scan the file *)
        let '(isThreat, threat, w1) :=
          if m_threatEngine s1 then ScanFile e w path empty_threat
          else (false, empty_threat, w) in
        let st2 := incr_scanned (m_statistics s1) (Utils.GetFileSize w1 path) in
        if isThreat then
          let s2 := with_statistics s1 (incr_threats st2) in
          (* Call threat callback *)
          let s3 := if m_threatCallback s2
                    then with_threat_calls s2 (threat_calls s2 ++ [threat])
                    else s2 in
          match (if m_threatCallback s2 then threat_throws s3 (threat_calls s3)
                 else None) with
          | Some what => scan_failed s3 w1 path what (threats ++ [threat])
          | None => (Success, s3, w1, threats ++ [threat])
          end
        else (Success, with_statistics s1 st2, w1, threats)
    end.

(** [Scanner::ScanDirectoryRecursive] over the regular files the recursive
    iterator yields.  The iterator skips what it may not read, and
    [ScanSingleFile] lets no [std::exception] out, so that the handler of
    this function is left to errors of the file system that this world
    does not have (a directory that disappears while it is read). *)
Fixpoint ScanDirectoryRecursive_loop (entries : list string) (s : Scanner)
    (e : Engine) (w : World) (threats : list ThreatInfo)
    : Scanner * World * list ThreatInfo :=
  match entries with
  | [] => (s, w, threats)
  | path :: rest =>
      if m_cancelRequested s then (s, w, threats)   (* break *)
      else
        let s1 := with_statistics s
                    (incr_total (m_statistics s) (Utils.GetFileSize w path)) in
        let '(_, s2, w2, threats2) := ScanSingleFile s1 e w path threats in
        ScanDirectoryRecursive_loop rest s2 e w2 threats2
  end.

Definition ScanDirectoryRecursive (s : Scanner) (e : Engine) (w : World)
    (dirPath : string) (threats : list ThreatInfo)
    : Scanner * World * list ThreatInfo :=
  ScanDirectoryRecursive_loop (default [] (directories w !! dirPath)) s e w threats.

(** [Scanner::ScanPath].  The two handlers of its [try] block are not
    reached here: [is_regular_file] and [is_directory] repeat the queries
    that [Utils::FileExists] and [Utils::DirectoryExists] have just
    answered for the same path, and the two functions called inside the
    block handle their exceptions themselves.  A scan of a path therefore
    returns [AccessDenied] only if the file system changes between two
    queries, which a sequential world does not show. *)
Definition ScanPath (s : Scanner) (e : Engine) (w : World) (path : string)
    (threats : list ThreatInfo) : ScanResult * Scanner * World * list ThreatInfo :=
  if negb (Utils.FileExists w path) && negb (Utils.DirectoryExists w path) then
    (Failed, s, log_if (m_logger s) Warning "Path does not exist: %s" [path] w, threats)
  else if IsExcludedPath s path then
    (Success, s, log_if (m_logger s) Debug "Skipping excluded path: %s" [path] w, threats)
  else if Utils.FileExists w path then ScanSingleFile s e w path threats
  else if Utils.DirectoryExists w path then
    let '(s1, w1, threats1) := ScanDirectoryRecursive s e w path threats in
    (Success, s1, w1, threats1)
  else (Success, s, w, threats).

(** [Scanner::ResetStatistics]; [now] is [steady_clock::now()]. *)
Definition ResetStatistics (s : Scanner) (now : Z) : Scanner :=
  with_statistics s (mkStats 0 0 0 0 0 0 0 now 0).

Definition finish_statistics (st : ScanStatistics) (now : Z) : ScanStatistics :=
  mkStats (totalFiles st) (scannedFiles st) (skippedFiles st)
          (threatsFound st) (totalBytes st) (scannedBytes st)
          100 (startTime st) now.

(** [Scanner::ScanFile]: a scan of one file. *)
Definition ScanFile (s : Scanner) (e : Engine) (w : World) (path : string)
    (threats : list ThreatInfo) (now : Z)
    : ScanResult * Scanner * World * list ThreatInfo :=
  let w0 := log_if (m_logger s) Info "Starting file scan: %s" [path] w in
  let s0 := ResetStatistics s now in
  let '(result, s1, w1, threats1) := ScanSingleFile s0 e w0 path threats in
  let s2 := with_statistics s1 (finish_statistics (m_statistics s1) now) in
  (result, s2,
   log_if (m_logger s) Info "File scan completed in %lld ms. Threats found: %llu"
          [pretty 0; pretty (threatsFound (m_statistics s2))] w1,
   threats1).

(** [Scanner::CustomScan]: a scan of a list of paths. *)
Fixpoint CustomScan_loop (paths : list string) (finalResult : ScanResult)
    (s : Scanner) (e : Engine) (w : World) (threats : list ThreatInfo)
    : ScanResult * Scanner * World * list ThreatInfo :=
  match paths with
  | [] => (finalResult, s, w, threats)
  | path :: rest =>
      if m_cancelRequested s then (Cancelled, s, w, threats)
      else
        let '(result, s1, w1, threats1) := ScanPath s e w path threats in
        let final1 :=
          match result, finalResult with
          | Success, _ => finalResult
          | _, Success => result
          | _, _ => finalResult
          end in
        CustomScan_loop rest final1 s1 e w1 threats1
  end.

Definition CustomScan (s : Scanner) (e : Engine) (w : World)
    (paths : list string) (threats : list ThreatInfo) (now : Z)
    : ScanResult * Scanner * World * list ThreatInfo :=
  let w0 := log_if (m_logger s) Info "Starting custom scan of %zu paths"
                   [pretty (vsize paths)] w in
  let s0 := ResetStatistics s now in
  let '(finalResult, s1, w1, threats1) :=
    CustomScan_loop paths Success s0 e w0 threats in
  let s2 := with_statistics s1 (finish_statistics (m_statistics s1) now) in
  (finalResult, s2,
   log_if (m_logger s) Info
          "Custom scan completed in %lld ms. Files: %llu, Threats: %llu"
          [pretty 0; pretty (scannedFiles (m_statistics s2));
           pretty (threatsFound (m_statistics s2))] w1,
   threats1).

(** [Scanner::ScanFolder]. *)
Definition ScanFolder (s : Scanner) (e : Engine) (w : World) (folderPath : string)
    (threats : list ThreatInfo) : ScanResult * Scanner * World * list ThreatInfo :=
  ScanPath s e (log_if (m_logger s) Info "Starting folder scan: %s" [folderPath] w)
           folderPath threats.

End Scanner.

(** * archive_scanner.h / archive_scanner.cpp *)

Module ArchiveScanner.

Record ArchiveEntry := mkArchiveEntry {
  name : string;
  compressedSize : Z;       (* uint32_t *)
  uncompressedSize : Z;     (* uint32_t *)
  crc32 : Z;                (* uint32_t *)
  encrypted : bool;
  isDirectory : bool;
  compressionMethod : Z;    (* uint16_t *)
  localHeaderOffset : Z     (* uint32_t *)
}.

(** [struct ZipLocalFileHeader], packed: 30 bytes, little endian. *)
Record ZipLocalFileHeader := mkLfh {
  lfh_signature : Z;        (* uint32_t, 0x04034b50 *)
  lfh_version : Z;
  lfh_flags : Z;
  lfh_compression : Z;
  lfh_modTime : Z;
  lfh_modDate : Z;
  lfh_crc32 : Z;
  lfh_compressedSize : Z;
  lfh_uncompressedSize : Z;
  lfh_fileNameLength : Z;
  lfh_extraFieldLength : Z
}.

Definition sizeof_lfh : nat := 30.

Definition field (raw : list byte) (pos len : nat) : Z :=
  le_value (take len (drop pos raw)).

(** [zipFile.read(reinterpret_cast<char*>(&lfh), sizeof(lfh))]. *)
Definition parse_lfh (raw : list byte) : ZipLocalFileHeader :=
  mkLfh (field raw 0 4) (field raw 4 2) (field raw 6 2) (field raw 8 2)
        (field raw 10 2) (field raw 12 2) (field raw 14 4) (field raw 18 4)
        (field raw 22 4) (field raw 26 2) (field raw 28 2).

(** The members of [class ArchiveScanner] used by extraction. *)
Record Archiver := mkArchiver {
  m_initialized : bool;
  m_maxNestingLevel : Z;
  m_maxExtractedSize : Z;   (* size_t *)
  m_tempDirectory : string
}.

Definition Archiver_new : Archiver := mkArchiver false 5 (100 * 1024 * 1024) "".

(** [Logger::log(level, message)] of the archive scanner. *)
Definition archive_log (lvl : LogLevel) (msg : string) (w : World) : World :=
  with_log w (log w ++ [mkLog lvl msg []]).

(** [outputFile.write(buffer)] on the stream opened on [path], and the
    truncation by the opening itself (with the empty content). *)
Definition write_file (w : World) (path : string) (content : list byte) : World :=
  with_files w (<[path := content]> (files w)).

Definition DeleteFileA (w : World) (path : string) : World :=
  with_files w (delete path (files w)).

(** [s.find_last_of("\\/")]: the index of the last separator, if any. *)
Fixpoint find_last_separator (s : list ascii) : option nat :=
  match s with
  | [] => None
  | c :: rest =>
      match find_last_separator rest with
      | Some i => Some (S i)
      | None => if is_separator c then Some 0%nat else None
      end
  end.

(** [outputPath.substr(0, outputPath.find_last_of("\\/"))]: what stands
    before the last separator, and the whole path when it has no
    separator ([substr(0, npos)]). *)
Definition output_directory (outputPath : string) : string :=
  match find_last_separator (list_ascii_of_string outputPath) with
  | Some i => substring 0 i outputPath
  | None => outputPath
  end.

(** Win32 [CreateDirectoryA], whose result the caller ignores: the
    directory is created when the name is not empty, nothing exists under
    it and the system allows it; a new directory holds no file. *)
Definition CreateDirectoryA (w : World) (dir : string) : World :=
  if String.eqb dir "" || mkdir_denied w dir then w
  else match files w !! dir, directories w !! dir with
       | None, None => with_directories w (<[dir := []]> (directories w))
       | _, _ => w
       end.

(** [std::ofstream outputFile(path, std::ios::binary); outputFile.is_open()]:
    the stream cannot be opened on a directory, on a name that ends with a
    separator or is empty, or when the system refuses. *)
Definition ofstream_opens (w : World) (path : string) : bool :=
  negb (open_denied w path) &&
  negb (bool_decide (is_Some (directories w !! path))) &&
  match last (list_ascii_of_string path) with
  | Some c => negb (is_separator c)
  | None => false
  end.

(** [ArchiveScanner::extractZipEntry].

    [zipFile.read(&lfh, sizeof(lfh))] fills an uninitialised structure and
    its outcome is not checked.  When the archive ends before the header
    does, the members that were not read hold indeterminate values: the
    result is [None] when the signature itself was not read in full, and
    when it was read, is the right one, and the members used afterwards
    were not all read.  A signature that was read and is wrong is rejected
    whatever follows.

    The output stream is opened, and the file truncated, before the data
    of the entry is read from the archive: the data is what the archive
    holds then. *)
Definition extractZipEntry (a : Archiver) (w : World) (zipPath : string)
    (entry : ArchiveEntry) (outputPath : string) : option (bool * World) :=
  if encrypted entry then
    Some (false, archive_log Warning ("Cannot extract encrypted file: " +:+ name entry) w)
  else if m_maxExtractedSize a / 10 <? uncompressedSize entry then
    Some (false, archive_log Warning ("File too large to extract: " +:+ name entry) w)
  else if open_denied w zipPath then Some (false, w)
  else
    match files w !! zipPath with
    | None => Some (false, w)
    | Some zip =>
        (* Read local file header *)
        let pos := Z.to_nat (localHeaderOffset entry) in
        let got := take sizeof_lfh (drop pos zip) in
        if (length got <? 4)%nat then None
        else if negb (field got 0 4 =? 0x04034b50) then
          Some (false, archive_log Error "Invalid local file header" w)
        else if (length got <? sizeof_lfh)%nat then None
        else
          let lfh := parse_lfh got in
          (* Skip filename and extra field *)
          let dataPos := (pos + sizeof_lfh +
                          Z.to_nat (lfh_fileNameLength lfh + lfh_extraFieldLength lfh))%nat in
          (* Create output directory if needed *)
          let w0 := CreateDirectoryA w (output_directory outputPath) in
          if negb (ofstream_opens w0 outputPath) then
            Some (false,
                  archive_log Error ("Cannot create output file: " +:+ outputPath) w0)
          else
            let w1 := write_file w0 outputPath [] in
            let read n := ifstream_read (default [] (files w1 !! zipPath)) dataPos n in
            (* Extract file data *)
            if lfh_compression lfh =? 0 then
              (* No compression (stored) *)
              let buffer := read (Z.to_nat (lfh_compressedSize lfh)) in
              Some (true, write_file w1 outputPath buffer)
            else if lfh_compression lfh =? 8 then
              (* Deflate compression - simplified extraction *)
              let w2 := archive_log Warning
                          ("Deflate compression not fully supported: " +:+ name entry) w1 in
              (* Copy compressed data *)
              let buffer := read (Z.to_nat (lfh_compressedSize lfh)) in
              if lfh_compressedSize lfh =? lfh_uncompressedSize lfh then
                Some (true, write_file w2 outputPath buffer)
              else Some (false, DeleteFileA w2 outputPath)
            else
              Some (false,
                    DeleteFileA
                      (archive_log Warning
                         ("Unsupported compression method: " +:+
                          pretty (lfh_compression lfh)) w1)
                      outputPath)
    end.

(** ** [ArchiveScanner::sanitizeFileName] *)

(** [std::replace(s.begin(), s.end(), old, new)]. *)
Definition std_replace (old new : ascii) (s : list ascii) : list ascii :=
  map (fun c => if ascii_eqb c old then new else c) s.

(** [while (!s.empty() && (s[0] == '.' || s[0] == ' ')) s.erase(0, 1)]. *)
Fixpoint erase_leading (s : list ascii) : list ascii :=
  match s with
  | c :: rest =>
      if ascii_eqb c "."%char || ascii_eqb c " "%char then erase_leading rest else s
  | [] => []
  end.

Definition sanitizeFileName_chars (fileName : list ascii) : list ascii :=
  (* Replace path separators and dangerous characters *)
  let s1 := std_replace "/"%char "_"%char fileName in
  let s2 := std_replace "\"%char "_"%char s1 in
  let s3 := std_replace ":"%char "_"%char s2 in
  let s4 := std_replace "*"%char "_"%char s3 in
  let s5 := std_replace "?"%char "_"%char s4 in
  let s6 := std_replace "034"%char "_"%char s5 in
  let s7 := std_replace "<"%char "_"%char s6 in
  let s8 := std_replace ">"%char "_"%char s7 in
  let s9 := std_replace "|"%char "_"%char s8 in
  (* Remove leading dots and spaces *)
  let s10 := erase_leading s9 in
  (* Truncate if too long *)
  let s11 := if (200 <? length s10)%nat then take 200 s10 else s10 in
  (* Ensure not empty *)
  match s11 with
  | [] => list_ascii_of_string "extracted_file"
  | _ :: _ => s11
  end.

Definition sanitizeFileName (fileName : string) : string :=
  string_of_list_ascii (sanitizeFileName_chars (list_ascii_of_string fileName)).

(** The characters no sanitized name may contain. *)
Definition dangerous_characters : list ascii :=
  ["/"; "\"; ":"; "*"; "?"; "034"; "<"; ">"; "|"]%char.

(** [ArchiveScanner::setMaxNestingLevel]. *)
Definition setMaxNestingLevel (a : Archiver) (maxLevel : Z) : Archiver :=
  mkArchiver (m_initialized a) (Z.max 1 (Z.min maxLevel 10))
             (m_maxExtractedSize a) (m_tempDirectory a).

End ArchiveScanner.

(** * The specification's vocabulary

    Predicates written after the words of the specification, to be
    compared with the functions above. *)

Module Spec.

Import ThreatEngine.

(** "[offset + len <= buffer_len] and compare at exactly that position". *)
Definition occurs_at (pat data : list byte) (off : nat) : Prop :=
  (off + length pat <= length data)%nat /\ take (length pat) (drop off data) = pat.

(** "substring search over the whole buffer". *)
Definition occurs_anywhere (pat data : list byte) : Prop :=
  exists off, occurs_at pat data off.

(** A signature matches a buffer: anchored when its offset is fixed (a
    non-negative value), anywhere otherwise. *)
Definition signature_matches (s : VirusSignature) (data : list byte) : Prop :=
  if offset s <? 0 then occurs_anywhere (signature s) data
  else occurs_at (signature s) data (Z.to_nat (offset s)).

(** The invariants of a signature in the data model: a non-empty pattern
    (shorter than [vector::max_size]) and an [int32_t] offset. *)
Definition signature_wf (s : VirusSignature) : Prop :=
  signature s <> [] /\ vsize (signature s) < 2 ^ 63 /\
  - 2 ^ 31 <= offset s < 2 ^ 31.

(** "Tiny-executable: extension in {exe, dll, scr, com} AND size < 1024". *)
Definition executable_extensions : list string :=
  [".exe"; ".dll"; ".scr"; ".com"]%string.

Definition tiny_executable (path : string) (data : list byte) : Prop :=
  In (wstring_lower (path_extension path)) executable_extensions /\
  vsize data < 1024.

(** The number of times a byte value occurs in a buffer, and the terms
    [- p * log2 p] of the entropy sum. *)
Definition occurrences (b : byte) (data : list byte) : Z :=
  Z.of_nat (count_occ Byte.byte_eq_dec data b).

Definition entropy_term (count : Z) (total : R) : R :=
  if 0 <? count
  then (- (IZR count / total * ThreatEngine.log2 (IZR count / total)))%R
  else 0%R.

Definition Rsum (l : list R) : R := fold_right Rplus 0%R l.

(** "Case-insensitive substring match of a fixed wordlist": some word of
    the list equals, up to the case of ASCII letters, a run of bytes of the
    file. *)
Definition suspicious_wordlist : list string :=
  [ "cryptolocker"; "ransomware"; "bitcoin";
    "your files have been encrypted"; "pay the ransom"; "keylogger";
    "password stealer"; "backdoor"; "trojan" ]%string.

Definition matches_ignoring_case (word run : list byte) : Prop :=
  map tolower run = word.

Definition suspicious_strings (data : list byte) : Prop :=
  exists word off,
    In word suspicious_wordlist /\
    (off + String.length word <= length data)%nat /\
    matches_ignoring_case (list_byte_of_string word)
      (take (String.length word) (drop off data)).

(** "Ordered by priority descending, then by enqueue time ascending":
    [a] may be dequeued before [b]. *)
Definition specified_order (a b : FileMonitor.ScanRequest) : Prop :=
  FileMonitor.priority b < FileMonitor.priority a \/
  (FileMonitor.priority a = FileMonitor.priority b /\
   FileMonitor.timestamp a <= FileMonitor.timestamp b).

Definition dequeued_in_specified_order (out : list FileMonitor.ScanRequest) : Prop :=
  StronglySorted specified_order out.

(** "If a path is already queued with equal-or-higher priority": *)
Definition already_queued (q : list FileMonitor.ScanRequest) (path : string)
    (prio : Z) : Prop :=
  exists r, r ∈ q /\ FileMonitor.filePath r = path /\ prio <= FileMonitor.priority r.



End Spec.

(** * Sample states

    Concrete engines, worlds and requests on which the properties below
    are evaluated. *)

Module Sample.

Import ThreatEngine.

(** A world with the given regular files in which nothing is refused. *)
Definition world (fs : gmap string (list byte)) : World :=
  {| files := fs; directories := ∅;
     open_denied := fun _ => false; move_denied := fun _ _ => false;
     mkdir_denied := fun _ => false; unreadable_below := fun _ => None;
     clock := 1700000000; log := [] |}.

(** The same world with every move refused. *)
Definition world_no_move (fs : gmap string (list byte)) : World :=
  {| files := fs; directories := ∅;
     open_denied := fun _ => false; move_denied := fun _ _ => true;
     mkdir_denied := fun _ => false; unreadable_below := fun _ => None;
     clock := 1700000000; log := [] |}.

(** The engine after [Initialize] with the default database. *)
Definition engine : Engine :=
  {| m_logger := true; m_initialized := true;
     m_databaseVersion := 1; m_signatureCount := 3;
     m_heuristicsEnabled := true; m_cloudEnabled := false;
     m_databasePath := "C:\ProgramData\AntivirusService\Database";
     m_quarantinePath := "C:\ProgramData\AntivirusService\Quarantine";
     m_signatures := defaultSignatures;
     m_fileTypeSignatures := ∅;
     m_heuristicRules := InitializeHeuristicsEngine;
     m_quarantineEntries := [] |}.

(** The same engine after loading a database whose header carries the
    largest version number. *)
Definition engine_last_version : Engine :=
  with_databaseVersion engine 4294967295.

End Sample.

(** Further sample states: a running monitor with an engine, and the
    verdict of the high-entropy rule for a file [C:\w\packed.bin]. *)

Module SampleMonitor.

Definition monitor : FileMonitor.Monitor :=
  FileMonitor.mkMonitor true true true true [] 100.



(** Four executables created one after the other in a watched directory. *)
Definition four_events : list FileMonitor.MonitorStep :=
  [ FileMonitor.FileEvent "C:\w\a.exe" FileMonitor.FILE_ACTION_ADDED 1;
    FileMonitor.FileEvent "C:\w\b.exe" FileMonitor.FILE_ACTION_ADDED 2;
    FileMonitor.FileEvent "C:\w\c.exe" FileMonitor.FILE_ACTION_ADDED 3;
    FileMonitor.FileEvent "C:\w\d.exe" FileMonitor.FILE_ACTION_ADDED 4 ].


(** The verdict of the ransomware signature (severity 10) for a file
    [C:\w\bad.exe], in a world that lets the file be moved and in one
    that refuses every move. *)
Definition ransom_verdict : ThreatEngine.ThreatInfo :=
  ThreatEngine.mkThreatInfo "C:\w\bad.exe" "Ransomware.Generic.Extension" 10 8.

Definition ransom_world : World :=
  Sample.world {[ "C:\w\bad.exe"%string := list_byte_of_string "x.locked" ]}.


(** The same file created and then modified. *)
Definition same_file_twice : list FileMonitor.MonitorStep :=
  [ FileMonitor.FileEvent "C:\w\a.exe" FileMonitor.FILE_ACTION_ADDED 1;
    FileMonitor.FileEvent "C:\w\a.exe" FileMonitor.FILE_ACTION_MODIFIED 2 ].

End SampleMonitor.

(** An archive whose single entry [a.txt], five bytes ["aaaaa"], is
    stored with the Deflate method; its deflated form ([4b 4c 04 02 00])
    is five bytes long as well. *)

Module SampleArchive.

Definition deflated_aaaaa : list byte :=
  ["K"; "L"; "004"; "002"; "000"]%byte.

Definition local_header_and_data : list byte :=
  le_bytes 4 0x04034b50 ++           (* signature *)
  le_bytes 2 20 ++ le_bytes 2 0 ++   (* version, flags *)
  le_bytes 2 8 ++                    (* compression: Deflate *)
  le_bytes 2 0 ++ le_bytes 2 0 ++    (* time, date *)
  le_bytes 4 0xeeac93b9 ++           (* crc32 of the content *)
  le_bytes 4 5 ++ le_bytes 4 5 ++    (* compressed, uncompressed size *)
  le_bytes 2 5 ++ le_bytes 2 0 ++    (* name length, extra length *)
  list_byte_of_string "a.txt" ++
  deflated_aaaaa.

Definition entry : ArchiveScanner.ArchiveEntry :=
  ArchiveScanner.mkArchiveEntry "a.txt" 5 5 0xeeac93b9 false false 8 0.

Definition archive_world : World :=
  Sample.world {[ "C:\t\a.zip"%string := local_header_and_data ]}.

End SampleArchive.

(** A scanner with the default options, an engine and no callbacks, and a
    world with one small file. *)

Module SampleScan.

Definition scanner : Scanner.Scanner := Scanner.Scanner_new true true.

Definition one_file_world : World :=
  Sample.world {[ "C:\w\notes.bin"%string := list_byte_of_string "hello" ]}.

(** The same file, seen through its directory. *)
Definition one_dir_world : World :=
  {| files := {[ "C:\w\notes.bin"%string := list_byte_of_string "hello" ]};
     directories := {[ "C:\w"%string := ["C:\w\notes.bin"%string] ]};
     open_denied := fun _ => false; move_denied := fun _ _ => false;
     mkdir_denied := fun _ => false; unreadable_below := fun _ => None;
     clock := 1700000000; log := [] |}.

End SampleScan.

(** An archive whose single entry is stored with the bzip2 method (12). *)

Module SampleArchiveBzip2.

Definition local_header_and_data : list byte :=
  le_bytes 4 0x04034b50 ++ le_bytes 2 46 ++ le_bytes 2 0 ++
  le_bytes 2 12 ++                   (* compression: bzip2 *)
  le_bytes 2 0 ++ le_bytes 2 0 ++ le_bytes 4 0 ++
  le_bytes 4 7 ++ le_bytes 4 5 ++
  le_bytes 2 5 ++ le_bytes 2 0 ++
  list_byte_of_string "a.txt" ++ list_byte_of_string "BZh91AY".

Definition entry : ArchiveScanner.ArchiveEntry :=
  ArchiveScanner.mkArchiveEntry "a.txt" 7 5 0 false false 12 0.

Definition archive_world : World :=
  Sample.world {[ "C:\t\b.zip"%string := local_header_and_data ]}.

End SampleArchiveBzip2.

(** * Value ranges of the fixed-width fields

    [uint32_t] and [int] members hold values of their type; a name or a
    pattern whose length does not fit [uint32_t] is cut by the cast in
    [SaveSignatureDatabase]. *)

Definition uint32_range (z : Z) : Prop := 0 <= z < UINT32_MOD.

Definition int32_range (z : Z) : Prop := - 2 ^ 31 <= z < 2 ^ 31.

Definition signature_in_range (sig : ThreatEngine.VirusSignature) : Prop :=
  Z.of_nat (String.length (ThreatEngine.name sig)) < UINT32_MOD /\
  vsize (ThreatEngine.signature sig) < UINT32_MOD /\
  uint32_range (ThreatEngine.severity sig) /\
  int32_range (ThreatEngine.offset sig).

(** * Consistency of the watch list

    [m_watchedPaths] and [m_watchHandles] describe the same set of
    directories: the vector holds each watched path once, the map has a
    [WatchInfo] for exactly these paths, and each [WatchInfo] carries the
    path it is stored under and a handle that [CreateFile] returned. *)

Definition watches_consistent (ws : FileMonitor.Watches) : Prop :=
  NoDup (FileMonitor.m_watchedPaths ws) /\
  (forall p, p ∈ FileMonitor.m_watchedPaths ws
             <-> is_Some (FileMonitor.m_watchHandles ws !! p)) /\
  (forall p info, FileMonitor.m_watchHandles ws !! p = Some info ->
     FileMonitor.path info = p /\
     FileMonitor.handle info <> FileMonitor.INVALID_HANDLE_VALUE).

(** * What a scan leaves behind

    A threat the scanner reports names a regular file that passes the
    scanner's filters and carries that file's size. *)

Definition reported_ok (s : Scanner.Scanner) (w : World)
    (t : ThreatEngine.ThreatInfo) : Prop :=
  Scanner.ShouldScanFile s w (ThreatEngine.file_path t) = true /\
  exists content,
    files w !! ThreatEngine.file_path t = Some content /\
    ThreatEngine.file_size t = vsize content.

(** A scan that starts at [(s, w, threats)] and ends at [(s', w', threats')]
    changes no file and no directory, no option and no flag of the
    scanner; the threats it found are appended to the caller's vector, each
    was handed to the threat callback (when one is set) in the same order,
    and each was counted in [threatsFound]. *)
Record scan_extends (s : Scanner.Scanner) (w : World)
    (threats : list ThreatEngine.ThreatInfo)
    (s' : Scanner.Scanner) (w' : World)
    (threats' : list ThreatEngine.ThreatInfo) : Prop := mkScanExtends {
  se_files : files w' = files w;
  se_directories : directories w' = directories w;
  se_open_denied : open_denied w' = open_denied w;
  se_options : Scanner.m_options s' = Scanner.m_options s;
  se_cancel : Scanner.m_cancelRequested s' = Scanner.m_cancelRequested s;
  se_engine : Scanner.m_threatEngine s' = Scanner.m_threatEngine s;
  se_threatCallback : Scanner.m_threatCallback s' = Scanner.m_threatCallback s;
  se_logger : Scanner.m_logger s' = Scanner.m_logger s;
  se_threats :
    exists new,
      threats' = threats ++ new /\
      Scanner.threat_calls s'
      = Scanner.threat_calls s ++ (if Scanner.m_threatCallback s then new else []) /\
      Scanner.threatsFound (Scanner.m_statistics s')
      = match new with
        | [] => Scanner.threatsFound (Scanner.m_statistics s)
        | _ :: _ => wrap64 (Scanner.threatsFound (Scanner.m_statistics s) + vsize new)
        end /\
      Forall (reported_ok s w) new
}.

(** The calls of the progress callback a scan makes: none when no callback
    is set; each call passes the percentage stored in the statistics it
    passes, and that percentage is at most 100 (and not negative when it
    was not negative before the scan). *)
Record progress_extends (s s' : Scanner.Scanner) : Prop := mkProgressExtends {
  pe_callback : Scanner.m_progressCallback s' = Scanner.m_progressCallback s;
  pe_calls :
    exists new,
      Scanner.progress_calls s' = Scanner.progress_calls s ++ new /\
      (Scanner.m_progressCallback s = false -> new = []) /\
      Forall (fun c => Scanner.pc_percent c
                       = Scanner.progressPercent (Scanner.pc_stats c) /\
                       Scanner.pc_percent c <= 100) new /\
      (0 <= Scanner.progressPercent (Scanner.m_statistics s) ->
       0 <= Scanner.progressPercent (Scanner.m_statistics s') /\
       Forall (fun c => 0 <= Scanner.pc_percent c) new)
}.

(** * The quarantine vault

    The paths below the quarantine directory of an engine. *)

Definition in_vault (e : ThreatEngine.Engine) (p : string) : Prop :=
  exists rest, p = ThreatEngine.m_quarantinePath e +:+ "\" +:+ rest.

(** From [w] to [w'] no file outside the vault has been created or
    changed: such a file is what it was, or is gone. *)
Definition kept_outside_vault (e : ThreatEngine.Engine) (w w' : World) : Prop :=
  forall p, ~ in_vault e p -> files w' !! p = files w !! p \/ files w' !! p = None.

(** * The local file header as bytes

    The object representation of the packed [ZipLocalFileHeader]: its
    eleven members in declaration order, little endian, 30 bytes. *)

Definition lfh_bytes (h : ArchiveScanner.ZipLocalFileHeader) : list byte :=
  le_bytes 4 (ArchiveScanner.lfh_signature h) ++
  le_bytes 2 (ArchiveScanner.lfh_version h) ++
  le_bytes 2 (ArchiveScanner.lfh_flags h) ++
  le_bytes 2 (ArchiveScanner.lfh_compression h) ++
  le_bytes 2 (ArchiveScanner.lfh_modTime h) ++
  le_bytes 2 (ArchiveScanner.lfh_modDate h) ++
  le_bytes 4 (ArchiveScanner.lfh_crc32 h) ++
  le_bytes 4 (ArchiveScanner.lfh_compressedSize h) ++
  le_bytes 4 (ArchiveScanner.lfh_uncompressedSize h) ++
  le_bytes 2 (ArchiveScanner.lfh_fileNameLength h) ++
  le_bytes 2 (ArchiveScanner.lfh_extraFieldLength h).

Definition uint16_range (z : Z) : Prop := 0 <= z < 2 ^ 16.

(** Every member holds a value of its type. *)
Definition lfh_in_range (h : ArchiveScanner.ZipLocalFileHeader) : Prop :=
  uint32_range (ArchiveScanner.lfh_signature h) /\
  uint16_range (ArchiveScanner.lfh_version h) /\
  uint16_range (ArchiveScanner.lfh_flags h) /\
  uint16_range (ArchiveScanner.lfh_compression h) /\
  uint16_range (ArchiveScanner.lfh_modTime h) /\
  uint16_range (ArchiveScanner.lfh_modDate h) /\
  uint32_range (ArchiveScanner.lfh_crc32 h) /\
  uint32_range (ArchiveScanner.lfh_compressedSize h) /\
  uint32_range (ArchiveScanner.lfh_uncompressedSize h) /\
  uint16_range (ArchiveScanner.lfh_fileNameLength h) /\
  uint16_range (ArchiveScanner.lfh_extraFieldLength h).

(** Files at the size limit of [ThreatEngine::ScanFile]. *)

Module SampleLimit.

Import ThreatEngine.
(** A file of exactly [MAX_SCAN_SIZE] bytes that starts like an
    executable, and the same file one byte longer. *)
Definition limit_file : list byte :=
  "M"%byte :: "Z"%byte :: replicate (Z.to_nat (MAX_SCAN_SIZE - 2)) "000"%byte.

Definition over_limit_file : list byte := limit_file ++ ["000"%byte].

Definition limit_world : World :=
  Sample.world {[ "C:\w\big.exe"%string := limit_file ]}.

Definition over_limit_world : World :=
  Sample.world {[ "C:\w\big.exe"%string := over_limit_file ]}.
End SampleLimit.

(** * The local header of an archive entry

    The header of the entry lies within the archive, so that reading it
    fills every member of the structure; and the header as read. *)

Definition header_complete (zip : list byte)
    (entry : ArchiveScanner.ArchiveEntry) : Prop :=
  (Z.to_nat (ArchiveScanner.localHeaderOffset entry) + ArchiveScanner.sizeof_lfh
   <= length zip)%nat.

Definition local_header (zip : list byte) (entry : ArchiveScanner.ArchiveEntry)
    : ArchiveScanner.ZipLocalFileHeader :=
  ArchiveScanner.parse_lfh
    (take ArchiveScanner.sizeof_lfh
          (drop (Z.to_nat (ArchiveScanner.localHeaderOffset entry)) zip)).

(** The output stream of an extraction can be opened once the directory
    of the output path has been created. *)
Definition output_opens (w : World) (outputPath : string) : Prop :=
  ArchiveScanner.ofstream_opens
    (ArchiveScanner.CreateDirectoryA w (ArchiveScanner.output_directory outputPath))
    outputPath = true.

(** * Callbacks that return

    A callback that is set returns from every call: it never throws. *)

Definition progress_callback_returns (s : Scanner.Scanner) : Prop :=
  Scanner.m_progressCallback s = true ->
  forall calls, Scanner.progress_throws s calls = None.

Definition threat_callback_returns (s : Scanner.Scanner) : Prop :=
  Scanner.m_threatCallback s = true ->
  forall calls, Scanner.threat_throws s calls = None.

(** Two states of a scanner with the same callbacks. *)
Definition same_callbacks (s s' : Scanner.Scanner) : Prop :=
  Scanner.m_progressCallback s' = Scanner.m_progressCallback s /\
  Scanner.m_threatCallback s' = Scanner.m_threatCallback s /\
  Scanner.progress_throws s' = Scanner.progress_throws s /\
  Scanner.threat_throws s' = Scanner.threat_throws s.

(** A scanner with both callbacks set, which return from every call, and
    a scanner whose threat callback throws whenever it is called. *)

Module SampleCallbacks.

Definition scanner : Scanner.Scanner :=
  Scanner.mkScanner true true Scanner.ScanOptions_default
    Scanner.ScanStatistics_default false false true true [] []
    (fun _ => None) (fun _ => None).

Definition throwing_scanner : Scanner.Scanner :=
  Scanner.mkScanner true true Scanner.ScanOptions_default
    Scanner.ScanStatistics_default false false false true [] []
    (fun _ => None) (fun _ => Some "callback failed"%string).

End SampleCallbacks.

(** * Properties *)

(** Linear arithmetic with division and remainder by constants. *)
Ltac div_lia := unfold parent in *; zify; Z.to_euclidean_division_equations; lia.

(** ** Characters *)

Lemma byte_eqb_eq a b : byte_eqb a b = true <-> a = b.
Proof.
  unfold byte_eqb. split.
  - apply Byte.byte_dec_bl.
  - apply Byte.byte_dec_lb.
Qed.

Lemma byte_eqb_refl a : byte_eqb a a = true.
Proof. by apply byte_eqb_eq. Qed.

(** ** [std::equal] and [std::search] on bytes *)

Lemma std_equal_prefix pat from :
  std_equal byte_eqb pat from = true <-> exists rest, from = pat ++ rest.
Proof.
  revert from. induction pat as [|p ps IH]; intros from; simpl.
  - split; [intros _; by exists from | done].
  - destruct from as [|x xs].
    + split; [done | intros [rest Hr]; discriminate].
    + rewrite andb_true_iff, byte_eqb_eq, IH. split.
      * intros [-> [rest ->]]. by exists rest.
      * intros [rest Hr]. injection Hr as -> ->. split; [done | by exists rest].
Qed.

Lemma std_equal_occurs_at pat data :
  std_equal byte_eqb pat data = true <-> Spec.occurs_at pat data 0.
Proof.
  rewrite std_equal_prefix. unfold Spec.occurs_at. rewrite drop_0. split.
  - intros [rest ->]. rewrite length_app. split; [lia |].
    by rewrite take_app_length.
  - intros [_ Ht]. exists (drop (length pat) data).
    rewrite <- Ht at 1. by rewrite take_drop.
Qed.

Lemma occurs_at_cons pat x data off :
  Spec.occurs_at pat (x :: data) (S off) <-> Spec.occurs_at pat data off.
Proof. unfold Spec.occurs_at. simpl. split; intros [? ?]; split; try lia; done. Qed.

Lemma std_search_le data pat : (std_search byte_eqb data pat <= length data)%nat.
Proof.
  induction data as [|x xs IH]; simpl.
  - destruct (std_equal byte_eqb pat []); lia.
  - destruct (std_equal byte_eqb pat (x :: xs)); simpl; lia.
Qed.

(** The search finds the pattern exactly when it occurs somewhere. *)
Lemma std_search_found data pat :
  pat <> [] ->
  std_search byte_eqb data pat <> length data <-> Spec.occurs_anywhere pat data.
Proof.
  intros Hne. induction data as [|x xs IH].
  - simpl. destruct pat as [|p ps]; [done |]. simpl. split; [done |].
    intros [off [Hlen _]]. simpl in Hlen. lia.
  - cbn [std_search]. destruct (std_equal byte_eqb pat (x :: xs)) eqn:Heq.
    + split; [| simpl; lia]. intros _. exists 0%nat.
      by apply std_equal_occurs_at.
    + simpl. split.
      * intros Hs. assert (Hs' : std_search byte_eqb xs pat <> length xs) by lia.
        apply IH in Hs' as [off Hoff]. exists (S off). by apply occurs_at_cons.
      * intros [off Hoff]. destruct off as [|off].
        -- apply std_equal_occurs_at in Hoff. congruence.
        -- apply occurs_at_cons in Hoff.
           assert (Hs' : std_search byte_eqb xs pat <> length xs)
             by (apply IH; by exists off).
           lia.
Qed.

(** The index returned is that of the first occurrence. *)
Lemma std_search_first data pat :
  pat <> [] ->
  std_search byte_eqb data pat <> length data ->
  Spec.occurs_at pat data (std_search byte_eqb data pat) /\
  forall off, (off < std_search byte_eqb data pat)%nat -> ~ Spec.occurs_at pat data off.
Proof.
  intros Hne. induction data as [|x xs IH]; cbn [std_search].
  - destruct (std_equal byte_eqb pat []) eqn:Heq; simpl; done.
  - destruct (std_equal byte_eqb pat (x :: xs)) eqn:Heq.
    + intros _. split; [by apply std_equal_occurs_at | intros; lia].
    + simpl. intros Hs. destruct IH as [Hat Hfirst]; [lia |]. split.
      * by apply occurs_at_cons.
      * intros [|off] Hlt Hocc.
        -- apply std_equal_occurs_at in Hocc. congruence.
        -- apply occurs_at_cons in Hocc. apply (Hfirst off); [lia | done].
Qed.

(** ** The signature pass *)

Section SignaturePass.
Import ThreatEngine.

Lemma size_t_no_wrap (s : VirusSignature) :
    Spec.signature_wf s -> 0 <= offset s ->
    size_t_add (size_t_of_int32 (offset s)) (vsize (signature s))
    = offset s + vsize (signature s).
Proof.
    intros (_ & Hlen & Hoff) Hpos.
    unfold size_t_add, size_t_of_int32, wrap64, UINT64_MOD, vsize in *.
    rewrite (Z.mod_small (offset s)) by lia.
    rewrite Z.mod_small; lia.
Qed.

Lemma drop_occurs_at pat data off :
    (off + length pat <= length data)%nat ->
    std_equal byte_eqb pat (drop off data) = true <-> Spec.occurs_at pat data off.
Proof.
    intros Hlen. rewrite std_equal_occurs_at. unfold Spec.occurs_at.
    rewrite length_drop, !drop_0. split; intros [_ Ht]; (split; [lia | done]).
Qed.

  (** The test of the loop body decides the specification's predicate. *)
Lemma signature_hits_spec s data :
    Spec.signature_wf s ->
    signature_hits s data = true <-> Spec.signature_matches s data.
Proof.
    intros Hwf. unfold signature_hits, Spec.signature_matches.
    destruct (Z.leb_spec 0 (offset s)) as [Hpos|Hneg].
    - destruct (Z.ltb_spec (offset s) 0) as [?|_]; [lia |].
      rewrite size_t_no_wrap by done. unfold vsize.
      destruct (Z.leb_spec (offset s + Z.of_nat (length (signature s)))
                           (Z.of_nat (length data))) as [Hfit|Hout].
      + apply drop_occurs_at. lia.
      + split; [done |]. intros [Hlen _]. lia.
    - destruct (Z.ltb_spec (offset s) 0) as [_|?]; [| lia].
      rewrite negb_true_iff, Nat.eqb_neq.
      apply std_search_found. by destruct Hwf.
Qed.


Lemma ScanWithSignatures_hit s rest data threat :
    Spec.signature_wf s -> Spec.signature_matches s data ->
    ScanWithSignatures (s :: rest) data threat
    = (true, set_threat threat (name s) (severity s)).
Proof.
    intros Hwf Hm. simpl.
    destruct (signature s) eqn:Hsig; [by destruct Hwf |].
    apply signature_hits_spec in Hm; [| done]. by rewrite Hm.
Qed.


End SignaturePass.


(** ** The database version counter *)

Section Database.
Import ThreatEngine.

(** C10 (as stated) fails at the last version number: the counter is a
    [uint32_t], and the update of version 4294967295 yields version 0, not
    4294967296. *)
Lemma UpdateDatabase_wraps_at_max :
  m_databaseVersion
    (snd (fst (UpdateDatabase Sample.engine_last_version (Sample.world ∅))))
  <> m_databaseVersion Sample.engine_last_version + 1.
Proof. vm_compute. discriminate. Qed.

Lemma UpdateDatabase_wraps_to_zero :
  m_databaseVersion
    (snd (fst (UpdateDatabase Sample.engine_last_version (Sample.world ∅)))) = 0.
Proof. reflexivity. Qed.

(** C10 (amended).  [UpdateDatabase] always returns [true], advances the
    version counter by one modulo [2^32] (by exactly one below the last
    version number), and leaves every other member of the engine as it
    was: the signature list, the signature count, the heuristic rules and
    the quarantine entries among them; no file changes. *)
Theorem UpdateDatabase_frame (e : Engine) (w : World) :
  exists e' w',
    UpdateDatabase e w = (true, e', w') /\
    m_databaseVersion e' = (m_databaseVersion e + 1) mod 2 ^ 32 /\
    (0 <= m_databaseVersion e < 2 ^ 32 - 1 ->
     m_databaseVersion e' = m_databaseVersion e + 1) /\
    m_signatures e' = m_signatures e /\
    m_signatureCount e' = m_signatureCount e /\
    m_heuristicRules e' = m_heuristicRules e /\
    m_quarantineEntries e' = m_quarantineEntries e /\
    m_fileTypeSignatures e' = m_fileTypeSignatures e /\
    m_initialized e' = m_initialized e /\
    m_heuristicsEnabled e' = m_heuristicsEnabled e /\
    m_cloudEnabled e' = m_cloudEnabled e /\
    m_databasePath e' = m_databasePath e /\
    m_quarantinePath e' = m_quarantinePath e /\
    m_logger e' = m_logger e /\
    files w' = files w.
Proof.
  unfold UpdateDatabase. eexists _, _. split; [reflexivity |].
  cbn [with_databaseVersion m_databaseVersion m_signatures m_signatureCount
       m_heuristicRules m_quarantineEntries m_fileTypeSignatures m_initialized
       m_heuristicsEnabled m_cloudEnabled m_databasePath m_quarantinePath
       m_logger].
  repeat split.
  - intros Hrange. unfold wrap32, UINT32_MOD. apply Z.mod_small. lia.
  - unfold log_if. by destruct (m_logger e).
Qed.
End Database.

(** ** The counting loop of [CalculateEntropy] *)

Section Entropy.
Import ThreatEngine.

Lemma to_N_inj (a b : byte) : Byte.to_N a = Byte.to_N b -> a = b.
Proof.
  intros Heq. pose proof (Byte.of_to_N a) as Ha. rewrite Heq, Byte.of_to_N in Ha.
  congruence.
Qed.

Lemma char_value_inj (a b : byte) : char_value a = char_value b -> a = b.
Proof.
  unfold char_value. intros Heq. apply to_N_inj.
  pose proof (Byte.to_N_bounded a). pose proof (Byte.to_N_bounded b).
  destruct (Z.ltb_spec (Z.of_N (Byte.to_N a)) 128),
           (Z.ltb_spec (Z.of_N (Byte.to_N b)) 128); lia.
Qed.

Lemma keys_above_incr lo b m :
  keys_above lo m -> lo < char_value b -> keys_above lo (frequency_incr b m).
Proof.
  unfold keys_above. induction m as [|[k c] rest IH]; intros Hm Hb; simpl.
  - by repeat constructor.
  - apply Forall_cons in Hm as [Hk Hrest].
    destruct (char_value b <? char_value k); [by repeat constructor |].
    destruct (char_value b =? char_value k); constructor; auto.
Qed.

Lemma keys_above_weaken lo lo' m : lo' <= lo -> keys_above lo m -> keys_above lo' m.
Proof.
  intros Hle Hm. eapply Forall_impl; [exact Hm |]. intros p Hp. simpl in *. lia.
Qed.

Lemma frequency_incr_sorted b m :
  frequency_sorted m -> frequency_sorted (frequency_incr b m).
Proof.
  induction 1 as [|k c rest Habove Hsorted IH]; simpl.
  - repeat constructor.
  - destruct (Z.ltb_spec (char_value b) (char_value k)) as [Hlt|Hge].
    + constructor; [| by constructor]. constructor; [done |].
      eapply keys_above_weaken; [| done]. lia.
    + destruct (Z.eqb_spec (char_value b) (char_value k)) as [Heq|Hne].
      * by constructor.
      * constructor; [| done]. apply keys_above_incr; [done | lia].
Qed.

Lemma frequency_get_absent b lo m :
  keys_above lo m -> char_value b <= lo -> frequency_get b m = 0.
Proof.
  induction 1 as [|[k c] rest Hk _ IH]; intros Hb; simpl; [done |].
  destruct (byte_eqb k b) eqn:Heq; [| by apply IH].
  apply byte_eqb_eq in Heq as ->. simpl in Hk. lia.
Qed.

Lemma frequency_get_incr b x m :
  frequency_sorted m ->
  frequency_get b (frequency_incr x m)
  = frequency_get b m + (if byte_eqb x b then 1 else 0).
Proof.
  induction 1 as [|k c rest Habove Hsorted IH]; simpl.
  - destruct (byte_eqb x b); lia.
  - destruct (Z.ltb_spec (char_value x) (char_value k)) as [Hlt|Hge].
    + simpl. destruct (byte_eqb x b) eqn:Hxb; [| lia].
      apply byte_eqb_eq in Hxb as ->.
      destruct (byte_eqb k b) eqn:Hkb.
      * apply byte_eqb_eq in Hkb as ->. lia.
      * rewrite (frequency_get_absent b (char_value k) rest); [lia | done | lia].
    + destruct (Z.eqb_spec (char_value x) (char_value k)) as [Heq|Hne].
      * apply char_value_inj in Heq as ->. simpl.
        destruct (byte_eqb k b); lia.
      * simpl. destruct (byte_eqb k b) eqn:Hkb; [| done].
        apply byte_eqb_eq in Hkb as ->.
        destruct (byte_eqb x b) eqn:Hxb; [| lia].
        apply byte_eqb_eq in Hxb as ->. done.
Qed.

Lemma frequency_fold (data : list byte) (m : list (byte * Z)) :
  frequency_sorted m ->
  frequency_sorted (fold_left (fun m b => frequency_incr b m) data m) /\
  forall b, frequency_get b (fold_left (fun m b => frequency_incr b m) data m)
            = frequency_get b m + Spec.occurrences b data.
Proof.
  revert m. induction data as [|x data IH]; intros m Hm; simpl.
  - split; [done |]. intros b. unfold Spec.occurrences. simpl. lia.
  - destruct (IH (frequency_incr x m)) as [Hs Hget];
      [by apply frequency_incr_sorted |].
    split; [done |]. intros b. rewrite Hget, frequency_get_incr by done.
    unfold Spec.occurrences. simpl.
    destruct (Byte.byte_eq_dec x b) as [->|Hne].
    + rewrite byte_eqb_refl. lia.
    + destruct (byte_eqb x b) eqn:Hxb; [| lia].
      by apply byte_eqb_eq in Hxb.
Qed.

(** After the counting loop, [frequency[b]] is the number of occurrences
    of [b]. *)
Lemma frequency_counts (data : list byte) :
  frequency_sorted (frequency data) /\
  forall b, frequency_get b (frequency data) = Spec.occurrences b data.
Proof.
  destruct (frequency_fold data [] fs_nil) as [Hs Hget]. split; [done |].
  intros b. rewrite Hget. simpl. lia.
Qed.

(** *** Sums *)

Lemma entropy_step_term (total acc : R) (p : byte * Z) :
  (0 < total)%R ->
  entropy_step total acc p = (acc + Spec.entropy_term (snd p) total)%R.
Proof.
  intros Htotal. unfold entropy_step, Spec.entropy_term.
  destruct (Z.ltb_spec 0 (snd p)) as [Hpos|Hneg].
  - destruct (Rlt_dec 0 (IZR (snd p) / total)) as [_|Hn]; [lra |].
    exfalso. apply Hn. apply Rdiv_lt_0_compat; [| done]. by apply IZR_lt.
  - destruct (Rlt_dec 0 (IZR (snd p) / total)) as [Hp|_]; [| lra].
    exfalso. assert (IZR (snd p) <= 0)%R by (by apply IZR_le).
    assert (IZR (snd p) / total <= 0)%R; [| lra].
    unfold Rdiv. rewrite <- (Rmult_0_l (/ total)).
    apply Rmult_le_compat_r; [| done]. left. by apply Rinv_0_lt_compat.
Qed.

Lemma entropy_fold (total : R) (m : list (byte * Z)) (acc : R) :
  (0 < total)%R ->
  fold_left (entropy_step total) m acc
  = (acc + Spec.Rsum (map (fun p => Spec.entropy_term (snd p) total) m))%R.
Proof.
  intros Htotal. revert acc. induction m as [|p m IH]; intros acc; simpl.
  - lra.
  - rewrite IH, entropy_step_term by done. lra.
Qed.

End Entropy.

(** ** The heuristic pass *)

Section HeuristicPass.
Import ThreatEngine.

Lemma isExecutable_spec (ext : string) :
  isExecutable ext = true <-> In ext Spec.executable_extensions.
Proof.
  unfold isExecutable, Spec.executable_extensions.
  rewrite !orb_true_iff, !String.eqb_eq. simpl. intuition congruence.
Qed.

Lemma tiny_executable_spec (path : string) (data : list byte) :
  isExecutable (wstring_lower (path_extension path)) && (vsize data <? 1024) = true
  <-> Spec.tiny_executable path data.
Proof.
  unfold Spec.tiny_executable.
  by rewrite andb_true_iff, isExecutable_spec, Z.ltb_lt.
Qed.

Lemma length_list_byte_of_string (s : string) :
  length (list_byte_of_string s) = String.length s.
Proof.
  unfold list_byte_of_string. rewrite length_map.
  induction s as [|c s IH]; simpl; [done | by rewrite IH].
Qed.

Lemma occurs_at_map_tolower (pat data : list byte) (off : nat) :
  Spec.occurs_at pat (map tolower data) off <->
  (off + length pat <= length data)%nat /\
  Spec.matches_ignoring_case pat (take (length pat) (drop off data)).
Proof.
  unfold Spec.occurs_at, Spec.matches_ignoring_case.
  by rewrite length_map, skipn_map, firstn_map.
Qed.

Lemma suspicious_word_nonempty (word : string) :
  In word suspiciousStrings -> list_byte_of_string word <> [].
Proof.
  intros Hin. unfold suspiciousStrings in Hin. simpl in Hin.
  repeat (destruct Hin as [<- | Hin]; [discriminate |]). done.
Qed.

(** The search of the word list decides the specification's predicate. *)
Lemma ContainsSuspiciousStrings_spec (data : list byte) :
  ContainsSuspiciousStrings data = true <-> Spec.suspicious_strings data.
Proof.
  unfold ContainsSuspiciousStrings, Spec.suspicious_strings.
  rewrite existsb_exists. split.
  - intros (word & Hin & Hfind).
    pose proof (suspicious_word_nonempty word Hin) as Hne.
    unfold string_contains in Hfind.
    destruct (list_byte_of_string word) as [|b bs] eqn:Hw; [done |].
    rewrite <- Hw in Hfind.
    apply negb_true_iff, Nat.eqb_neq in Hfind.
    apply std_search_found in Hfind as [off Hoff]; [| by rewrite Hw].
    apply occurs_at_map_tolower in Hoff as [Hlen Hmatch].
    rewrite length_list_byte_of_string in Hlen, Hmatch.
    by exists word, off.
  - intros (word & off & Hin & Hlen & Hmatch). exists word. split; [done |].
    pose proof (suspicious_word_nonempty word Hin) as Hne.
    unfold string_contains.
    destruct (list_byte_of_string word) as [|b bs] eqn:Hw; [done |].
    rewrite <- Hw in *.
    apply negb_true_iff, Nat.eqb_neq. apply std_search_found; [done |].
    exists off. apply occurs_at_map_tolower.
    by rewrite length_list_byte_of_string.
Qed.

End HeuristicPass.

(** ** The size gate of [ThreatEngine::ScanFile] *)

Section ScanFileGate.
Import ThreatEngine.

Lemma ifstream_read_all (content : list byte) :
  ifstream_read content 0 (Z.to_nat (vsize content)) = content.
Proof.
  unfold ifstream_read, vsize. rewrite Nat2Z.id, drop_0.
  rewrite firstn_all, Nat.sub_diag. apply app_nil_r.
Qed.

(** A file that exists, is not empty, is at most [MAX_SCAN_SIZE] bytes
    long and can be opened goes through the two passes with its whole
    content as the buffer. *)
Lemma ScanFile_scans (e : Engine) (w : World) (path : string)
    (threat : ThreatInfo) (content : list byte) :
  m_initialized e = true ->
  files w !! path = Some content ->
  open_denied w path = false ->
  0 < vsize content <= MAX_SCAN_SIZE ->
  ScanFile e w path threat
  = scan_buffer e w path (vsize content) content threat.
Proof.
  intros Hinit Hfile Hopen [Hpos Hmax]. unfold ScanFile.
  rewrite Hinit. unfold Utils.FileExists, Utils.GetFileSize.
  rewrite Hfile, Hopen. simpl.
  destruct (Z.eqb_spec (vsize content) 0) as [?|_]; [lia |].
  destruct (Z.ltb_spec MAX_SCAN_SIZE (vsize content)) as [?|_]; [lia |].
  by rewrite ifstream_read_all.
Qed.

Lemma ScanFile_skips_large (e : Engine) (w : World) (path : string)
    (threat : ThreatInfo) :
  MAX_SCAN_SIZE < Utils.GetFileSize w path ->
  exists w', ScanFile e w path threat = (false, threat, w') /\
             files w' = files w.
Proof.
  intros Hlt. unfold ScanFile.
  destruct (m_initialized e); simpl; [| by exists w].
  destruct (Utils.FileExists w path); simpl; [| by exists w].
  destruct (Z.eqb_spec (Utils.GetFileSize w path) 0) as [?|_]; [by exists w |].
  destruct (Z.ltb_spec MAX_SCAN_SIZE (Utils.GetFileSize w path)) as [_|?]; [| lia].
  eexists. split; [reflexivity |].
  unfold log_if. by destruct (m_logger e).
Qed.

(** C3.  [ScanFile] reports no threat for a missing file and for a file of
    size 0; a file strictly larger than [MAX_SCAN_SIZE] (100 MiB) is
    skipped with no threat reported and no file touched; a readable file
    of exactly [MAX_SCAN_SIZE] bytes is scanned: its verdict is that of
    the signature pass over its whole content when a signature matches,
    and that of the heuristic pass over its whole content otherwise (no
    threat when heuristics are disabled), and a reported threat carries
    the path and the size [MAX_SCAN_SIZE]; a file one byte larger is
    skipped, whatever it holds. *)
Theorem ScanFile_size_gate (e : Engine) (w : World) (path : string)
    (threat : ThreatInfo) :
  MAX_SCAN_SIZE = 104857600 /\
  (Utils.FileExists w path = false ->
   ScanFile e w path threat = (false, threat, w)) /\
  (Utils.GetFileSize w path = 0 ->
   ScanFile e w path threat = (false, threat, w)) /\
  (MAX_SCAN_SIZE < Utils.GetFileSize w path ->
   exists w', ScanFile e w path threat = (false, threat, w') /\
              files w' = files w) /\
  (forall content,
      m_initialized e = true -> files w !! path = Some content ->
      open_denied w path = false -> vsize content = MAX_SCAN_SIZE ->
      let signature_pass := ScanWithSignatures (m_signatures e) content threat in
      let heuristic_pass :=
        ScanWithHeuristics content path (snd signature_pass) in
      (fst signature_pass = true ->
       exists w',
         ScanFile e w path threat
         = (true, set_file (snd signature_pass) path MAX_SCAN_SIZE, w') /\
         files w' = files w) /\
      (fst signature_pass = false -> m_heuristicsEnabled e = true ->
       fst heuristic_pass = true ->
       exists w',
         ScanFile e w path threat
         = (true, set_file (snd heuristic_pass) path MAX_SCAN_SIZE, w') /\
         files w' = files w) /\
      (fst signature_pass = false -> m_heuristicsEnabled e = true ->
       fst heuristic_pass = false ->
       ScanFile e w path threat = (false, snd heuristic_pass, w)) /\
      (fst signature_pass = false -> m_heuristicsEnabled e = false ->
       ScanFile e w path threat = (false, snd signature_pass, w))) /\
  (Utils.GetFileSize w path = MAX_SCAN_SIZE + 1 ->
   exists w', ScanFile e w path threat = (false, threat, w') /\
              files w' = files w).
Proof.
  split; [reflexivity |]. split; [| split; [| split; [| split]]].
  - intros Hmiss. unfold ScanFile. rewrite Hmiss.
    by destruct (m_initialized e).
  - intros Hzero. unfold ScanFile. rewrite Hzero.
    destruct (m_initialized e); simpl; [| done].
    by destruct (Utils.FileExists w path).
  - apply ScanFile_skips_large.
  - intros content Hinit Hfile Hopen Hsize signature_pass heuristic_pass.
    subst signature_pass heuristic_pass.
    rewrite (ScanFile_scans e w path threat content Hinit Hfile Hopen)
      by (rewrite Hsize; by vm_compute).
    rewrite Hsize. unfold scan_buffer.
    destruct (ScanWithSignatures (m_signatures e) content threat) as [found t1].
    cbn [fst snd]. destruct found.
    + split; [| by repeat split; intros; discriminate]. intros _.
      eexists. split; [reflexivity |]. unfold log_if. by destruct (m_logger e).
    + split; [intros; discriminate |].
      destruct (ScanWithHeuristics content path t1) as [hfound t3].
      cbn [fst snd]. destruct (m_heuristicsEnabled e).
      * split; [| split; [| intros; discriminate]].
        -- intros _ _ ->. eexists. split; [reflexivity |]. unfold log_if. by destruct (m_logger e).
        -- by intros _ _ ->.
      * split; [intros; discriminate |]. split; [intros; discriminate |]. done.
  - intros Hsize. apply ScanFile_skips_large. lia.
Qed.

Lemma limit_file_size : vsize SampleLimit.limit_file = MAX_SCAN_SIZE.
Proof.
  unfold vsize, SampleLimit.limit_file. cbn [length].
  rewrite length_replicate.
  change MAX_SCAN_SIZE with 104857600. lia.
Qed.

Lemma over_limit_file_size :
  vsize SampleLimit.over_limit_file = MAX_SCAN_SIZE + 1.
Proof.
  unfold SampleLimit.over_limit_file, vsize. rewrite length_app.
  pose proof limit_file_size as H. unfold vsize in H.
  change (length ["000"%byte]) with 1%nat. lia.
Qed.

Lemma limit_file_signature :
  ScanWithSignatures defaultSignatures SampleLimit.limit_file empty_threat
  = (true, set_threat empty_threat "PE.Suspicious.Header" 3).
Proof.
  unfold defaultSignatures. apply ScanWithSignatures_hit.
  - repeat split; try discriminate; vm_compute; congruence.
  - unfold Spec.signature_matches, Spec.occurs_at. cbn [offset signature].
    simpl Z.ltb. cbv iota.
    split.
    + pose proof limit_file_size as H. unfold vsize in H.
      change MAX_SCAN_SIZE with 104857600 in H.
      change (Z.to_nat 0) with 0%nat.
      change (length (list_byte_of_string "MZ")) with 2%nat. lia.
    + reflexivity.
Qed.
(** A file of exactly 100 MiB that starts with [MZ] is reported as
    [PE.Suspicious.Header]; with one more byte it is skipped. *)
Lemma ScanFile_size_gate_witness :
  (exists w',
      ScanFile Sample.engine SampleLimit.limit_world "C:\w\big.exe" empty_threat
      = (true, mkThreatInfo "C:\w\big.exe" "PE.Suspicious.Header" 3 MAX_SCAN_SIZE, w') /\
      files w' = files SampleLimit.limit_world) /\
  (exists w',
      ScanFile Sample.engine SampleLimit.over_limit_world "C:\w\big.exe"
        empty_threat
      = (false, empty_threat, w') /\
      files w' = files SampleLimit.over_limit_world).
Proof.
  split.
  - destruct (ScanFile_size_gate Sample.engine SampleLimit.limit_world
                "C:\w\big.exe" empty_threat) as (_ & _ & _ & _ & Hscan & _).
    destruct (Hscan SampleLimit.limit_file eq_refl
                (lookup_singleton_eq _ _) eq_refl limit_file_size)
      as [Hsig _].
    cbv zeta in Hsig. change (m_signatures Sample.engine) with defaultSignatures in Hsig.
    rewrite limit_file_signature in Hsig. apply Hsig. reflexivity.
  - destruct (ScanFile_size_gate Sample.engine SampleLimit.over_limit_world
                "C:\w\big.exe" empty_threat) as (_ & _ & _ & _ & _ & Hskip).
    apply Hskip. unfold Utils.GetFileSize, SampleLimit.over_limit_world.
    cbn [files Sample.world]. rewrite lookup_singleton_eq.
    apply over_limit_file_size.
Defined.
End ScanFileGate.

(** ** Quarantine *)

Section Quarantine.
Import ThreatEngine.

Lemma MoveFile_failure (w : World) (src dst : string) (w' : World) :
  MoveFile w src dst = (false, w') -> w' = w.
Proof.
  unfold MoveFile. intros Hm.
  destruct (files w !! src); [| by injection Hm].
  destruct (files w !! dst); [by injection Hm |].
  destruct (move_denied w src dst); [by injection Hm | discriminate].
Qed.

Lemma files_log_if logger lvl fmt args (w : World) :
  files (log_if logger lvl fmt args w) = files w.
Proof. unfold log_if. by destruct logger. Qed.

Lemma open_denied_log_if logger lvl fmt args (w : World) :
  open_denied (log_if logger lvl fmt args w) = open_denied w.
Proof. unfold log_if. by destruct logger. Qed.

Lemma metadataFile_with_quarantineEntries (e : Engine) q :
  metadataFile (with_quarantineEntries e q) = metadataFile e.
Proof. reflexivity. Qed.

(** C5.  When the move of the source file into the vault fails,
    [QuarantineFile] reports failure, the engine (its quarantine index
    included) is what it was and no file has changed; whenever it reports
    failure the same holds; and when it reports success the move has
    succeeded, exactly one entry for this file has been appended to the
    index, and the metadata file, when it can be opened, holds the whole
    new index. *)
Theorem QuarantineFile_failure_leaves_state (e : Engine) (w : World)
    (path threat : string) :
  let target := quarantineFile e w path in
  (fst (MoveFile w path target) = false ->
   exists w', QuarantineFile e w path threat = (false, e, w') /\
              files w' = files w) /\
  (forall e' w', QuarantineFile e w path threat = (false, e', w') ->
                 e' = e /\ files w' = files w) /\
  (forall e' w', QuarantineFile e w path threat = (true, e', w') ->
     fst (MoveFile w path target) = true /\
     m_quarantineEntries e'
     = m_quarantineEntries e ++ [mkQuarantineEntry path target threat (clock w)] /\
     (open_denied w (metadataFile e) = false ->
      files w' !! metadataFile e = Some (serialize_index (m_quarantineEntries e')))).
Proof.
  intros target. unfold QuarantineFile. fold target.
  destruct (m_initialized e); simpl.
  2: { repeat split; intros; try discriminate; simplify_eq; eauto. }
  destruct (Utils.FileExists w path); simpl.
  2: { repeat split; intros; try discriminate; simplify_eq; eauto. }
  destruct (MoveFile w path target) as [moved w1] eqn:Hmove.
  destruct moved; simpl.
  - split; [done |]. split; [intros; discriminate |].
    intros e' w' Heq. injection Heq as <- <-. split; [done |]. split; [done |].
    intros Hopen. rewrite files_log_if. unfold SaveQuarantineMetadata.
    rewrite metadataFile_with_quarantineEntries.
    assert (Hopen1 : open_denied w1 (metadataFile e) = false).
    { unfold MoveFile in Hmove.
      destruct (files w !! path); [| discriminate].
      destruct (files w !! target); [discriminate |].
      destruct (move_denied w path target); [discriminate |].
      by injection Hmove as <-. }
    rewrite Hopen1. simpl. apply lookup_insert_eq.
  - apply MoveFile_failure in Hmove as ->.
    split; [| split].
    + intros _. eexists. split; [reflexivity | apply files_log_if].
    + intros e' w' Heq. injection Heq as <- <-. split; [done | apply files_log_if].
    + intros; discriminate.
Qed.

(** A refused move, evaluated: the file stays, the index stays empty. *)
Lemma QuarantineFile_refused_move_example :
  let w := Sample.world_no_move {[ "C:\w\bad.exe"%string := list_byte_of_string "x.locked" ]} in
  let '(ok, e', w') := QuarantineFile Sample.engine w "C:\w\bad.exe" "Ransomware.Generic.Extension" in
  ok = false /\ m_quarantineEntries e' = [] /\ files w' = files w.
Proof. vm_compute. done. Qed.
End Quarantine.

(** ** Automatic quarantine by the monitor's workers *)

Section AutoQuarantine.
Import ThreatEngine.

(** Every threat verdict a worker obtains is handed to
    [HandleThreatDetection], by a monitor that holds an engine. *)
Lemma ProcessScanRequest_threat (m : FileMonitor.Monitor) (e : Engine)
    (w w1 : World) (request : FileMonitor.ScanRequest) (threat : ThreatInfo) :
  Utils.FileExists w (FileMonitor.filePath request) = true ->
  FileMonitor.m_threatEngine m = true ->
  ScanFile e w (FileMonitor.filePath request) empty_threat = (true, threat, w1) ->
  FileMonitor.ProcessScanRequest m e w request
  = FileMonitor.HandleThreatDetection m e w1 threat.
Proof.
  intros Hexists Hengine Hscan. unfold FileMonitor.ProcessScanRequest.
  by rewrite Hexists, Hengine, Hscan.
Qed.
End AutoQuarantine.

(** ** The binary heap under the scan queue *)

Section HeapProperties.
Context {A : Type} `{Inhabited A} (key : A -> Z).
Local Open Scope nat_scope.

Lemma key_lt_false (a b : A) : key_lt key a b = false <-> (key b <= key a)%Z.
Proof. unfold key_lt. rewrite Z.ltb_ge. done. Qed.

Lemma key_lt_true (a b : A) : key_lt key a b = true <-> (key a < key b)%Z.
Proof. unfold key_lt. apply Z.ltb_lt. Qed.

(** Filling position [i] with [x] after its old content moved to [j] is
    a rearrangement of filling position [j] with [x]. *)
Lemma insert_move_perm (v : list A) (i j : nat) (x : A) :
  i < length v -> j < length v ->
  <[i := x]> (<[j := v !!! i]> v) ≡ₚ <[j := x]> v.
Proof.
  intros Hi Hj. destruct (decide (i = j)) as [->|Hne].
  - by rewrite list_insert_insert_eq.
  - rewrite <- (list_insert_insert_eq v j (v !!! i) x).
    apply Permutation_insert_swap.
    + by apply list_lookup_insert_eq.
    + rewrite list_lookup_insert_ne by done.
      by apply list_lookup_lookup_total_lt.
Qed.

(** *** [push_heap_by_index] *)

Lemma push_heap_loop_length fuel (v : list A) hole top val :
  length (push_heap_loop (key_lt key) fuel v hole top val) = length v.
Proof.
  revert v hole. induction fuel as [|f IH]; intros v hole; cbn [push_heap_loop].
  - apply length_insert.
  - destruct (_ && _); [rewrite IH |]; apply length_insert.
Qed.

Lemma push_heap_loop_perm fuel (v : list A) hole top val :
  hole < length v ->
  push_heap_loop (key_lt key) fuel v hole top val ≡ₚ <[hole := val]> v.
Proof.
  revert v hole. induction fuel as [|f IH]; intros v hole Hlt; cbn [push_heap_loop]; [done |].
  destruct (_ && _); [| done].
  rewrite IH by (rewrite length_insert; div_lia).
  apply insert_move_perm; [div_lia | done].
Qed.

(** Positions after the hole are not written. *)
Lemma push_heap_loop_above fuel (v : list A) hole top val k :
  hole < k ->
  push_heap_loop (key_lt key) fuel v hole top val !! k = v !! k.
Proof.
  revert v hole. induction fuel as [|f IH]; intros v hole Hlt; cbn [push_heap_loop].
  - apply list_lookup_insert_ne. lia.
  - destruct (_ && _).
    + rewrite IH by div_lia. apply list_lookup_insert_ne. lia.
    + apply list_lookup_insert_ne. lia.
Qed.

Lemma heap_upto_insert_hole (v : list A) n hole val :
  hole < n <= length v ->
  heap_except key n v hole val ->
  (0 < hole -> (key val <= key (v !!! parent hole))%Z) ->
  heap_upto key n (<[hole := val]> v).
Proof.
  intros Hn [[Hedge _] Hchild] Hup i Hi.
  destruct (decide (i = hole)) as [->|Hne].
  - rewrite list_lookup_total_insert_eq by lia.
    rewrite list_lookup_total_insert_ne by div_lia. apply Hup. lia.
  - rewrite (list_lookup_total_insert_ne v hole i) by done.
    destruct (decide (parent i = hole)) as [Hp|Hp].
    + rewrite Hp, list_lookup_total_insert_eq by lia. by apply Hchild.
    + rewrite list_lookup_total_insert_ne by done. by apply Hedge.
Qed.

Lemma push_heap_loop_heap fuel (v : list A) hole val n :
  hole <= fuel -> hole < n <= length v ->
  heap_except key n v hole val ->
  heap_upto key n (push_heap_loop (key_lt key) fuel v hole 0 val).
Proof.
  revert v hole. induction fuel as [|f IH]; intros v hole Hfuel Hn Hex; cbn [push_heap_loop].
  - apply heap_upto_insert_hole; [done | done | lia].
  - destruct (0 <? hole) eqn:Hpos; cbn [andb].
    2: { apply Nat.ltb_ge in Hpos. apply heap_upto_insert_hole; [done | done | lia]. }
    apply Nat.ltb_lt in Hpos.
    destruct (key_lt key (v !!! ((hole - 1) / 2)) val) eqn:Hlt.
    2: { apply key_lt_false in Hlt. apply heap_upto_insert_hole; done. }
    apply key_lt_true in Hlt. fold (parent hole) in *.
    destruct Hex as [[Hedge Hgrand] Hchild].
    apply IH; [div_lia | rewrite length_insert; div_lia |].
    assert (Hph : parent hole < hole) by div_lia.
    repeat split.
    + intros i Hi Hi1 Hi2.
      destruct (decide (i = hole)) as [->|Hne]; [done |].
      rewrite (list_lookup_total_insert_ne v hole i) by done.
      destruct (decide (parent i = hole)) as [Hp|Hp].
      * rewrite Hp, list_lookup_total_insert_eq by lia. by apply Hgrand.
      * rewrite list_lookup_total_insert_ne by done. by apply Hedge.
    + intros i Hi Hp Hpos'.
      rewrite (list_lookup_total_insert_ne v hole (parent (parent hole))) by div_lia.
      destruct (decide (i = hole)) as [->|Hne].
      * rewrite list_lookup_total_insert_eq by lia.
        apply Hedge; div_lia.
      * rewrite list_lookup_total_insert_ne by done.
        etrans; [apply Hedge; [done | done | lia] |].
        rewrite Hp. apply Hedge; div_lia.
    + intros i Hi Hp.
      destruct (decide (i = hole)) as [->|Hne].
      * rewrite list_lookup_total_insert_eq by lia. lia.
      * rewrite list_lookup_total_insert_ne by done.
        etrans; [apply Hedge; [done | done | lia] |]. rewrite Hp. lia.
Qed.

(** *** [pop_heap_hole_by_index] *)

Lemma hole_down_loop_spec fuel (v : list A) idx n v' idx' :
  hole_down_loop (key_lt key) fuel v idx ((n - 1) / 2) = (v', idx') ->
  idx < n <= length v ->
  hole_inv key n v idx ->
  hole_inv key n v' idx' /\ idx <= idx' < n /\ length v' = length v /\
  (forall k, n <= k -> v' !! k = v !! k) /\
  (forall x, <[idx' := x]> v' ≡ₚ <[idx := x]> v) /\
  ((n - 1) / 2 <= fuel + idx -> (n - 1) / 2 <= idx').
Proof.
  revert v idx. induction fuel as [|f IH]; intros v idx Hloop Hn Hinv;
    cbn [hole_down_loop] in Hloop.
  { injection Hloop as <- <-. repeat split; try done; try lia; apply Hinv. }
  destruct (idx <? (n - 1) / 2) eqn:Hlt.
  2: { apply Nat.ltb_ge in Hlt. injection Hloop as <- <-.
       repeat split; try done; try lia; apply Hinv. }
  apply Nat.ltb_lt in Hlt.
  set (r := 2 * idx + 2) in *.
  set (c := if key_lt key (v !!! r) (v !!! (r - 1)) then r - 1 else r) in *.
  assert (Hc : (c = r - 1 \/ c = r) /\
               (key (v !!! (r - 1)%nat) <= key (v !!! c))%Z /\
               (key (v !!! r) <= key (v !!! c))%Z).
  { subst c. destruct (key_lt key (v !!! r) (v !!! (r - 1))) eqn:Hk.
    - apply key_lt_true in Hk. split; [by left | lia].
    - apply key_lt_false in Hk. split; [by right | lia]. }
  clearbody c. destruct Hc as (Hcr & Hleft & Hright).
  assert (Hcn : c < n) by (subst r; div_lia).
  assert (Hpc : parent c = idx) by (subst r; div_lia).
  destruct Hinv as [Hedge Hgrand].
  apply IH in Hloop as (Hinv' & Hidx' & Hlen' & Hkeep' & Hperm' & Hfuel').
  - rewrite length_insert in Hlen'.
    split; [done |]. split; [subst r; lia |]. split; [done |].
    split; [| split].
    + intros k Hk. rewrite Hkeep' by done. apply list_lookup_insert_ne. lia.
    + intros x. rewrite Hperm'. apply insert_move_perm; lia.
    + intros Hf. apply Hfuel'. subst r. lia.
  - rewrite length_insert. lia.
  - split.
    + intros i Hi Hic Hpic.
      destruct (decide (i = idx)) as [->|Hne].
      * rewrite list_lookup_total_insert_eq by lia.
        rewrite list_lookup_total_insert_ne by div_lia.
        apply Hgrand; [lia | done | lia].
      * rewrite (list_lookup_total_insert_ne v idx i) by done.
        destruct (decide (parent i = idx)) as [Hp|Hp].
        -- rewrite Hp, list_lookup_total_insert_eq by lia.
           assert (i = r - 1 \/ i = r) as [->| ->] by (subst r; div_lia); done.
        -- rewrite list_lookup_total_insert_ne by done. by apply Hedge.
    + intros i Hi Hp Hpos. rewrite Hpc.
      rewrite list_lookup_total_insert_eq by lia.
      rewrite list_lookup_total_insert_ne by div_lia.
      rewrite <- Hp. apply Hedge; [done | div_lia | div_lia].
Qed.

Lemma pop_heap_hole_by_index_spec (v : list A) n val :
  0 < n <= length v ->
  hole_inv key n v 0 ->
  let r := pop_heap_hole_by_index (key_lt key) v 0 n val in
  heap_upto key n r /\ length r = length v /\
  (forall k, n <= k -> r !! k = v !! k) /\ r ≡ₚ <[0 := val]> v.
Proof.
  intros Hn Hinv. unfold pop_heap_hole_by_index.
  destruct (hole_down_loop (key_lt key) n v 0 ((n - 1) / 2)) as [v1 idx] eqn:Hloop.
  apply hole_down_loop_spec in Hloop
    as (Hinv1 & Hidx & Hlen1 & Hkeep1 & Hperm1 & Hfuel1); [| lia | done].
  assert (Hleaf : (n - 1) / 2 <= idx) by (apply Hfuel1; div_lia).
  destruct ((idx =? (n - 1) / 2) && (n mod 2 =? 0)) eqn:Hlast.
  - apply andb_true_iff in Hlast as [Hi Heven].
    apply Nat.eqb_eq in Hi. apply Nat.eqb_eq in Heven.
    unfold push_heap_by_index.
    assert (Hn2 : 2 <= n) by div_lia.
    assert (Hpn : parent (n - 1) = idx) by div_lia.
    split; [| split; [| split]].
    + apply push_heap_loop_heap; [lia | rewrite length_insert; lia |].
      destruct Hinv1 as [Hedge Hgrand]. split; [split |].
      * intros i Hi1 Hi2 Hi3.
        destruct (decide (i = idx)) as [->|Hne].
        -- rewrite list_lookup_total_insert_eq by lia.
           rewrite list_lookup_total_insert_ne by div_lia.
           apply Hgrand; [lia | done | lia].
        -- rewrite (list_lookup_total_insert_ne v1 idx i) by done.
           destruct (decide (parent i = idx)) as [Hp|Hp]; [div_lia |].
           rewrite list_lookup_total_insert_ne by done. by apply Hedge.
      * intros i Hi1 Hp. div_lia.
      * intros i Hi1 Hp. div_lia.
    + by rewrite push_heap_loop_length, length_insert.
    + intros k Hk. rewrite push_heap_loop_above by lia.
      rewrite list_lookup_insert_ne by lia. by apply Hkeep1.
    + rewrite push_heap_loop_perm by (rewrite length_insert; lia).
      rewrite insert_move_perm by lia. apply Hperm1.
  - apply andb_false_iff in Hlast.
    assert (Hnochild : forall i, 0 < i < n -> parent i <> idx).
    { intros i Hi Hp. destruct Hlast as [Hl|Hl].
      - apply Nat.eqb_neq in Hl. div_lia.
      - apply Nat.eqb_neq in Hl. div_lia. }
    unfold push_heap_by_index. split; [| split; [| split]].
    + apply push_heap_loop_heap; [lia | lia |].
      split; [done |]. intros i Hi Hp. by apply Hnochild in Hp.
    + by rewrite push_heap_loop_length.
    + intros k Hk. rewrite push_heap_loop_above by lia. by apply Hkeep1.
    + rewrite push_heap_loop_perm by lia. apply Hperm1.
Qed.

(** *** The queue operations *)

Lemma is_heap_nil : is_heap key [].
Proof. intros i Hi. simpl in Hi. lia. Qed.

Lemma pq_push_length (v : list A) (x : A) :
  length (pq_push (key_lt key) v x) = S (length v).
Proof.
  unfold pq_push, push_heap, push_heap_by_index.
  destruct (2 <=? length (v ++ [x])).
  - rewrite push_heap_loop_length, length_app. simpl. lia.
  - rewrite length_app. simpl. lia.
Qed.

Lemma pq_push_perm (v : list A) (x : A) :
  pq_push (key_lt key) v x ≡ₚ x :: v.
Proof.
  unfold pq_push, push_heap, push_heap_by_index.
  rewrite length_app. simpl length.
  replace (length v + 1 - 1) with (length v) by lia.
  destruct (2 <=? length v + 1).
  - rewrite push_heap_loop_perm by (rewrite length_app; simpl; lia).
    rewrite list_insert_id.
    + symmetry. apply Permutation_cons_append.
    + rewrite lookup_app_r by lia. rewrite Nat.sub_diag. simpl. f_equal.
      rewrite lookup_total_app_r by lia. by rewrite Nat.sub_diag.
  - symmetry. apply Permutation_cons_append.
Qed.

Lemma pq_push_heap (v : list A) (x : A) :
  is_heap key v -> is_heap key (pq_push (key_lt key) v x).
Proof.
  intros Hheap. unfold is_heap. rewrite pq_push_length.
  unfold pq_push, push_heap, push_heap_by_index.
  rewrite length_app. simpl length.
  replace (length v + 1 - 1) with (length v) by lia.
  destruct (2 <=? length v + 1) eqn:Hlen.
  - apply push_heap_loop_heap; [lia | rewrite length_app; simpl; lia |].
    split; [split |].
    + intros i Hi Hne Hp.
      rewrite !lookup_total_app_l by div_lia. apply Hheap. lia.
    + intros i Hi Hp. div_lia.
    + intros i Hi Hp. div_lia.
  - apply Nat.leb_gt in Hlen. intros i Hi. lia.
Qed.

Lemma pop_heap_spec (v : list A) :
  is_heap key v -> v <> [] ->
  let r := pop_heap (key_lt key) v in
  heap_upto key (length v - 1) r /\ length r = length v /\
  r !! (length v - 1) = Some (v !!! 0) /\ r ≡ₚ v.
Proof.
  intros Hheap Hne. unfold pop_heap.
  assert (Hlen : 0 < length v) by (destruct v; [done | simpl; lia]).
  destruct (2 <=? length v) eqn:H2.
  - apply Nat.leb_le in H2.
    pose proof (pop_heap_hole_by_index_spec
                  (<[length v - 1 := v !!! 0]> v) (length v - 1)
                  (v !!! (length v - 1))) as Hpop.
    destruct Hpop as (Hh & Hl & Hk & Hp).
    + rewrite length_insert. lia.
    + split; [| intros; lia].
      intros i Hi Hi0 Hp0. rewrite !list_lookup_total_insert_ne by div_lia.
      apply Hheap. lia.
    + rewrite length_insert in Hl. split; [done |]. split; [done |]. split.
      * rewrite Hk by lia. apply list_lookup_insert_eq. lia.
      * rewrite Hp. apply Permutation_insert_swap.
        -- apply list_lookup_lookup_total_lt. lia.
        -- apply list_lookup_lookup_total_lt. lia.
  - apply Nat.leb_gt in H2. assert (Hone : length v = 1) by lia.
    split; [intros i Hi; lia |]. split; [done |]. split; [| done].
    rewrite Hone. simpl. by apply list_lookup_lookup_total_lt.
Qed.

Lemma removelast_take (l : list A) : removelast l = take (length l - 1) l.
Proof.
  rewrite removelast_firstn_len. f_equal. lia.
Qed.

Lemma pq_pop_length (v : list A) :
  is_heap key v -> v <> [] ->
  length (pq_pop (key_lt key) v) = length v - 1.
Proof.
  intros Hheap Hne. destruct (pop_heap_spec v Hheap Hne) as (_ & Hl & _).
  unfold pq_pop. rewrite removelast_take, length_take, Hl. lia.
Qed.

Lemma pq_pop_perm (v : list A) :
  is_heap key v -> v <> [] ->
  v ≡ₚ v !!! 0 :: pq_pop (key_lt key) v.
Proof.
  intros Hheap Hne.
  destruct (pop_heap_spec v Hheap Hne) as (_ & Hl & Hlast & Hp).
  unfold pq_pop. rewrite removelast_take, Hl.
  rewrite <- Hp at 1.
  rewrite <- (take_ge (pop_heap (key_lt key) v) (S (length v - 1))) at 1
    by (rewrite Hl; lia).
  rewrite (take_S_r _ _ _ Hlast).
  symmetry. apply Permutation_cons_append.
Qed.

Lemma pq_pop_heap (v : list A) :
  is_heap key v -> is_heap key (pq_pop (key_lt key) v).
Proof.
  intros Hheap. destruct (decide (v = [])) as [->|Hne]; [apply is_heap_nil |].
  unfold is_heap. rewrite pq_pop_length by done.
  destruct (pop_heap_spec v Hheap Hne) as (Hh & Hl & _).
  unfold pq_pop. rewrite removelast_take, Hl.
  intros i Hi. rewrite !lookup_total_take_lt by div_lia. by apply Hh.
Qed.

(** The root of a heap carries the largest key. *)
Lemma heap_root_max (v : list A) :
  is_heap key v -> forall i, i < length v -> (key (v !!! i) <= key (v !!! 0%nat))%Z.
Proof.
  intros Hheap i. induction i as [i IH] using lt_wf_ind. intros Hi.
  destruct (decide (i = 0)) as [->|Hne]; [lia |].
  etrans; [apply Hheap; lia |]. apply IH; div_lia.
Qed.

Lemma pq_top_max (v : list A) (x : A) :
  is_heap key v -> pq_top v = Some x ->
  Forall (fun y => (key y <= key x)%Z) v.
Proof.
  intros Hheap Htop. apply Forall_lookup. intros i y Hy.
  assert (Hx : v !!! 0 = x) by (destruct v; simpl in *; congruence).
  apply list_lookup_alt in Hy as [Hi <-]. rewrite <- Hx.
  by apply heap_root_max.
Qed.

(** A single consumer that drains a heap sees every item once, largest
    key first. *)
Lemma pq_drain_spec fuel (v : list A) :
  is_heap key v -> length v <= fuel ->
  pq_drain (key_lt key) fuel v ≡ₚ v /\
  key_descending key (pq_drain (key_lt key) fuel v).
Proof.
  revert v. induction fuel as [|f IH]; intros v Hheap Hfuel.
  - destruct v; [| simpl in Hfuel; lia]. split; [done | constructor].
  - cbn [pq_drain]. destruct (pq_top v) as [x|] eqn:Htop.
    2: { destruct v; [| discriminate]. split; [done | constructor]. }
    assert (Hne : v <> []) by (intros ->; discriminate).
    assert (Hx : v !!! 0 = x) by (destruct v; simpl in *; congruence).
    destruct (IH (pq_pop (key_lt key) v)) as [Hperm Hsorted].
    + by apply pq_pop_heap.
    + rewrite pq_pop_length by done. lia.
    + pose proof (pq_pop_perm v Hheap Hne) as Hv. rewrite Hx in Hv.
      split; [by rewrite Hperm |].
      constructor; [done |]. rewrite Hperm.
      pose proof (pq_top_max v x Hheap Htop) as Hmax.
      rewrite Hv in Hmax. by apply Forall_cons in Hmax as [_ ?].
Qed.
End HeapProperties.

(** ** The monitor's scan queue *)

Section ScanQueue.
Import FileMonitor.

Lemma request_lt_key : request_lt = key_lt priority.
Proof. reflexivity. Qed.

Lemma ProcessFileEvent_queue (m : Monitor) (w : World) (path : string)
    (action now : Z) :
  let q' := m_scanQueue (fst (ProcessFileEvent m w path action now)) in
  q' = m_scanQueue m \/
  q' = pq_push request_lt (m_scanQueue m)
         (mkScanRequest path (DetermineScanPriority path) now).
Proof.
  unfold ProcessFileEvent.
  destruct (m_realTimeProtectionEnabled m); simpl; [| by left].
  destruct (ShouldSkipFile path); simpl; [by left |].
  destruct (_ || _); simpl; [by right | by left].
Qed.

Lemma WorkerThread_step_queue (m : Monitor) (e : ThreatEngine.Engine) (w : World) :
  let q' := m_scanQueue (fst (fst (WorkerThread_step m e w))) in
  q' = m_scanQueue m \/ q' = pq_pop request_lt (m_scanQueue m).
Proof.
  unfold WorkerThread_step.
  destruct (m_running m); simpl; [| by left].
  destruct (pq_top (m_scanQueue m)); simpl; [| by left].
  destruct (ProcessScanRequest _ e w s). simpl. by right.
Qed.

Lemma monitor_step_heap st (s : MonitorStep) :
  is_heap priority (m_scanQueue (fst (fst st))) ->
  is_heap priority (m_scanQueue (fst (fst (monitor_step st s)))).
Proof.
  destruct st as [[m e] w]. simpl. intros Hheap. destruct s as [path action now|].
  - pose proof (ProcessFileEvent_queue m w path action now) as Hq.
    destruct (ProcessFileEvent m w path action now) as [m1 w1]. simpl in *.
    destruct Hq as [-> | ->]; [done |].
    rewrite request_lt_key. by apply pq_push_heap.
  - pose proof (WorkerThread_step_queue m e w) as Hq. simpl in Hq.
    destruct Hq as [-> | ->]; [done |].
    rewrite request_lt_key. by apply pq_pop_heap.
Qed.

Lemma run_monitor_heap (steps : list MonitorStep) st :
  is_heap priority (m_scanQueue (fst (fst st))) ->
  is_heap priority (m_scanQueue (fst (fst (fold_left monitor_step steps st)))).
Proof.
  revert st. induction steps as [|s steps IH]; intros st Hheap; simpl; [done |].
  apply IH. by apply monitor_step_heap.
Qed.

(** The queue of a monitor that started with an empty queue is a heap,
    whatever events and worker steps have happened. *)
Lemma queue_after_heap (m : Monitor) (e : ThreatEngine.Engine) (w : World)
    (steps : list MonitorStep) :
  is_heap priority (queue_after (with_scanQueue m []) e w steps).
Proof.
  unfold queue_after, run_monitor. apply run_monitor_heap. simpl.
  apply is_heap_nil.
Qed.

(** C6 (as stated) fails: four executables, all of priority 10, are
    enqueued at times 1, 2, 3, 4 and leave the queue in the order a, c, b,
    d; the request enqueued at time 3 is served before the one enqueued at
    time 2. *)
Lemma scan_queue_not_fifo :
  let q := queue_after SampleMonitor.monitor Sample.engine (Sample.world ∅)
             SampleMonitor.four_events in
  map (fun r => (filePath r, priority r, timestamp r))
      (pq_drain request_lt (length q) q)
  = [ ("C:\w\a.exe"%string, 10, 1); ("C:\w\c.exe"%string, 10, 3);
      ("C:\w\b.exe"%string, 10, 2); ("C:\w\d.exe"%string, 10, 4) ]
  /\ ~ Spec.dequeued_in_specified_order (pq_drain request_lt (length q) q).
Proof.
  split; [reflexivity |].
  intros Hsorted. vm_compute in Hsorted.
  apply StronglySorted_inv in Hsorted as [Hrest _].
  apply StronglySorted_inv in Hrest as [_ Hc].
  apply Forall_cons in Hc as [Hcb _].
  destruct Hcb as [Hlt | [_ Hle]].
  - vm_compute in Hlt. discriminate.
  - vm_compute in Hle. by apply Hle.
Qed.

(** C6 (amended).  Whatever file events and worker steps a monitor has gone
    through since its queue was empty: the request a worker takes next has
    the highest priority in the queue, and a worker that drains the queue
    takes every queued request once, in order of priority descending.
    (The order among requests of equal priority is the heap's; the
    comparison does not look at the enqueue time.) *)
Theorem scan_queue_priority_descending (m : Monitor) (e : ThreatEngine.Engine)
    (w : World) (steps : list MonitorStep) :
  let q := queue_after (with_scanQueue m []) e w steps in
  (forall x, pq_top q = Some x -> Forall (fun y => priority y <= priority x) q) /\
  pq_drain request_lt (length q) q ≡ₚ q /\
  key_descending priority (pq_drain request_lt (length q) q) /\
  (forall a b, priority a = priority b -> request_lt a b = false).
Proof.
  intros q. pose proof (queue_after_heap m e w steps) as Hheap. fold q in Hheap.
  split; [| split; [| split]].
  - intros x Htop. by apply pq_top_max.
  - rewrite request_lt_key. by apply pq_drain_spec.
  - rewrite request_lt_key. by apply pq_drain_spec.
  - intros a b Heq. unfold request_lt. rewrite Heq. apply Z.ltb_irrefl.
Qed.

(** C7 (as stated) fails: [C:\w\a.exe] is created and then modified; when
    the second event arrives the path is already queued with the same
    priority, and the queue nevertheless grows to two requests for it. *)
Lemma duplicate_request_enqueued :
  let q1 := queue_after SampleMonitor.monitor Sample.engine (Sample.world ∅)
              (take 1 SampleMonitor.same_file_twice) in
  let q2 := queue_after SampleMonitor.monitor Sample.engine (Sample.world ∅)
              SampleMonitor.same_file_twice in
  Spec.already_queued q1 "C:\w\a.exe" (DetermineScanPriority "C:\w\a.exe") /\
  q2 <> q1 /\
  q2 = [ mkScanRequest "C:\w\a.exe" 10 1; mkScanRequest "C:\w\a.exe" 10 2 ].
Proof.
  split; [| split].
  - exists (mkScanRequest "C:\w\a.exe" 10 1). split; [| split].
    + vm_compute. apply list_elem_of_here.
    + reflexivity.
    + vm_compute. discriminate.
  - vm_compute. discriminate.
  - reflexivity.
Qed.

(** C7 (amended).  A file event that passes the filter (real-time
    protection on, path not skipped, action "added" or "modified") always
    pushes a new request for its path: the queue grows by one and holds
    the new request besides all the old ones, whether or not the path was
    queued already.  Any other event leaves the queue as it was. *)
Theorem ProcessFileEvent_always_enqueues (m : Monitor) (w : World)
    (path : string) (action now : Z) :
  let q' := m_scanQueue (fst (ProcessFileEvent m w path action now)) in
  let request := mkScanRequest path (DetermineScanPriority path) now in
  (m_realTimeProtectionEnabled m = true -> ShouldSkipFile path = false ->
   action = FILE_ACTION_ADDED \/ action = FILE_ACTION_MODIFIED ->
   q' = pq_push request_lt (m_scanQueue m) request /\
   length q' = S (length (m_scanQueue m)) /\
   q' ≡ₚ request :: m_scanQueue m) /\
  (m_realTimeProtectionEnabled m = false \/ ShouldSkipFile path = true \/
   (action <> FILE_ACTION_ADDED /\ action <> FILE_ACTION_MODIFIED) ->
   q' = m_scanQueue m).
Proof.
  intros q' request. subst q'. unfold ProcessFileEvent. split.
  - intros -> -> Haction. simpl.
    assert ((action =? FILE_ACTION_ADDED) || (action =? FILE_ACTION_MODIFIED) = true)
      as -> by (destruct Haction as [-> | ->]; reflexivity).
    simpl. fold request. split; [done |]. rewrite request_lt_key.
    split; [apply pq_push_length | apply pq_push_perm].
  - intros [-> | [Hskip | [Ha Hm]]]; simpl; [done | |].
    + destruct (m_realTimeProtectionEnabled m); simpl; [| done]. by rewrite Hskip.
    + destruct (m_realTimeProtectionEnabled m); simpl; [| done].
      destruct (ShouldSkipFile path); simpl; [done |].
      apply Z.eqb_neq in Ha. apply Z.eqb_neq in Hm. by rewrite Ha, Hm.
Qed.

(** X4.  After any sequence of file events and worker steps, the scan queue
    of a monitor that started with an empty queue is a binary max-heap on
    the priority of its requests. *)
Theorem scan_queue_is_heap (m : Monitor) (e : ThreatEngine.Engine) (w : World)
    (steps : list MonitorStep) :
  is_heap priority (queue_after (with_scanQueue m []) e w steps).
Proof. apply queue_after_heap. Qed.
End ScanQueue.

(** ** Extraction of archive entries *)

Section Extraction.
Import ArchiveScanner.

Lemma files_CreateDirectoryA (w : World) (dir : string) :
  files (CreateDirectoryA w dir) = files w.
Proof.
  unfold CreateDirectoryA. destruct (_ || _); [done |].
  by destruct (files w !! dir), (directories w !! dir).
Qed.

Lemma open_denied_CreateDirectoryA (w : World) (dir : string) :
  open_denied (CreateDirectoryA w dir) = open_denied w.
Proof.
  unfold CreateDirectoryA. destruct (_ || _); [done |].
  by destruct (files w !! dir), (directories w !! dir).
Qed.

Lemma directories_CreateDirectoryA (w : World) (dir d : string) :
  d <> dir -> directories (CreateDirectoryA w dir) !! d = directories w !! d.
Proof.
  intros Hne. unfold CreateDirectoryA. destruct (_ || _); [done |].
  destruct (files w !! dir), (directories w !! dir); try done.
  cbn. by rewrite lookup_insert_ne.
Qed.

Lemma length_header_read (zip : list byte) (entry : ArchiveEntry) :
  header_complete zip entry ->
  length (take sizeof_lfh (drop (Z.to_nat (localHeaderOffset entry)) zip))
  = sizeof_lfh.
Proof.
  unfold header_complete. intros Hc. rewrite length_take, length_drop. lia.
Qed.

(** With a complete header the extraction is the code after the header
    has been read. *)
Lemma extractZipEntry_complete (a : Archiver) (w : World)
    (zipPath outputPath : string) (entry : ArchiveEntry) (zip : list byte) :
  encrypted entry = false ->
  uncompressedSize entry <= m_maxExtractedSize a / 10 ->
  open_denied w zipPath = false ->
  files w !! zipPath = Some zip ->
  header_complete zip entry ->
  let lfh := local_header zip entry in
  let dataPos := (Z.to_nat (localHeaderOffset entry) + sizeof_lfh +
                  Z.to_nat (lfh_fileNameLength lfh + lfh_extraFieldLength lfh))%nat in
  let w0 := CreateDirectoryA w (output_directory outputPath) in
  let w1 := write_file w0 outputPath [] in
  let read n := ifstream_read (default [] (files w1 !! zipPath)) dataPos n in
  extractZipEntry a w zipPath entry outputPath
  = if negb (lfh_signature lfh =? 0x04034b50) then
      Some (false, archive_log Error "Invalid local file header" w)
    else if negb (ofstream_opens w0 outputPath) then
      Some (false, archive_log Error ("Cannot create output file: " +:+ outputPath) w0)
    else if lfh_compression lfh =? 0 then
      Some (true, write_file w1 outputPath (read (Z.to_nat (lfh_compressedSize lfh))))
    else if lfh_compression lfh =? 8 then
      let w2 := archive_log Warning
                  ("Deflate compression not fully supported: " +:+ name entry) w1 in
      if lfh_compressedSize lfh =? lfh_uncompressedSize lfh then
        Some (true, write_file w2 outputPath (read (Z.to_nat (lfh_compressedSize lfh))))
      else Some (false, DeleteFileA w2 outputPath)
    else
      Some (false,
            DeleteFileA
              (archive_log Warning
                 ("Unsupported compression method: " +:+ pretty (lfh_compression lfh))
                 w1)
              outputPath).
Proof.
  intros Henc Hsize Hzip Hfile Hc lfh dataPos w0 w1 read.
  unfold extractZipEntry. rewrite Henc.
  destruct (Z.ltb_spec (m_maxExtractedSize a / 10) (uncompressedSize entry)) as [? | _];
    [lia |].
  rewrite Hzip, Hfile. cbv zeta.
  rewrite (length_header_read zip entry Hc).
  change (sizeof_lfh <? 4)%nat with false. rewrite Nat.ltb_irrefl.
  cbv iota. reflexivity.
Qed.

(** X3.  The other compressed entries are refused and leave no file.  For
    an entry whose local header lies within the archive and carries the
    right signature, and an output file that can be opened: with any
    method besides Stored and Deflate, and with Deflate when the two sizes
    of the local header differ, the extraction fails and no file is left
    at the output path. *)
Theorem extractZipEntry_refuses_other_methods (a : Archiver) (w : World)
    (zipPath outputPath : string) (entry : ArchiveEntry) (zip : list byte) :
  let lfh := local_header zip entry in
  encrypted entry = false ->
  uncompressedSize entry <= m_maxExtractedSize a / 10 ->
  open_denied w zipPath = false ->
  files w !! zipPath = Some zip ->
  header_complete zip entry ->
  lfh_signature lfh = 0x04034b50 ->
  output_opens w outputPath ->
  lfh_compression lfh <> 0 ->
  lfh_compression lfh <> 8 \/ lfh_compressedSize lfh <> lfh_uncompressedSize lfh ->
  exists w', extractZipEntry a w zipPath entry outputPath = Some (false, w') /\
             files w' !! outputPath = None.
Proof.
  intros lfh Henc Hsize Hzip Hfile Hc Hsig Hout Hnot0 Hother.
  rewrite (extractZipEntry_complete a w zipPath outputPath entry zip) by done.
  fold lfh. cbv zeta. unfold output_opens in Hout.
  rewrite Hsig, Hout, Z.eqb_refl. cbn [negb].
  apply Z.eqb_neq in Hnot0. rewrite Hnot0.
  destruct (Z.eqb_spec (lfh_compression lfh) 8) as [H8|H8].
  - destruct Hother as [? | Hne]; [done |].
    apply Z.eqb_neq in Hne. rewrite Hne.
    eexists. split; [reflexivity |]. simpl. apply lookup_delete_eq.
  - eexists. split; [reflexivity |]. simpl. apply lookup_delete_eq.
Qed.

(** A bzip2 entry: refused, and no file is left behind. *)
Lemma extractZipEntry_refuses_other_methods_witness :
  exists w',
    extractZipEntry Archiver_new SampleArchiveBzip2.archive_world
      "C:\t\b.zip" SampleArchiveBzip2.entry "C:\t\x\a.txt" = Some (false, w') /\
    files w' !! "C:\t\x\a.txt"%string = None.
Proof.
  apply (extractZipEntry_refuses_other_methods Archiver_new
           SampleArchiveBzip2.archive_world "C:\t\b.zip" "C:\t\x\a.txt"
           SampleArchiveBzip2.entry SampleArchiveBzip2.local_header_and_data).
  - reflexivity.
  - vm_compute. discriminate.
  - reflexivity.
  - reflexivity.
  - unfold header_complete. vm_compute. lia.
  - reflexivity.
  - reflexivity.
  - vm_compute. discriminate.
  - left. vm_compute. discriminate.
Defined.

(** C9, at a Deflate entry whose compressed and uncompressed sizes agree:
    the extractor reports success and the file it leaves for the scan
    holds the compressed bytes of the entry, not its content ["aaaaa"]. *)
Theorem extractZipEntry_copies_deflate_bytes :
  exists w',
    extractZipEntry Archiver_new SampleArchive.archive_world
      "C:\t\a.zip" SampleArchive.entry "C:\t\x\a.txt" = Some (true, w') /\
    files w' !! "C:\t\x\a.txt"%string = Some SampleArchive.deflated_aaaaa /\
    SampleArchive.deflated_aaaaa <> list_byte_of_string "aaaaa".
Proof.
  eexists. split; [vm_compute; reflexivity |].
  split; [vm_compute; reflexivity | discriminate].
Qed.
End Extraction.

(** ** Scan statistics *)

Section Statistics.
Import Scanner.

(** The callbacks stay what they are through a scan of one file. *)
Lemma ScanSingleFile_callbacks (s : Scanner) (e : ThreatEngine.Engine) (w : World)
    (path : string) (threats : list ThreatEngine.ThreatInfo) :
  same_callbacks s (snd (fst (fst (ScanSingleFile s e w path threats)))).
Proof.
  unfold same_callbacks, ScanSingleFile. destruct (m_cancelRequested s); [done |].
  destruct (ShouldScanFile s w path); cbn [negb]; [| done].
  set (s1 := if m_progressCallback s then _ else s).
  assert (Hs1 : m_progressCallback s1 = m_progressCallback s /\
                m_threatCallback s1 = m_threatCallback s /\
                progress_throws s1 = progress_throws s /\
                threat_throws s1 = threat_throws s).
  { subst s1. destruct (m_progressCallback s) eqn:Hp; [| done]. by cbn. }
  destruct Hs1 as (H1 & H2 & H3 & H4). clearbody s1.
  unfold scan_failed.
  destruct (if m_progressCallback s then _ else None); [by cbn |].
  destruct (if m_threatEngine s1 then _ else _) as [[isThreat threat] w1].
  destruct isThreat; [| by cbn].
  cbn [m_threatCallback with_statistics].
  destruct (m_threatCallback s1) eqn:Hcb;
    cbn [threat_calls with_threat_calls with_statistics].
  - destruct (threat_throws _ _); cbn; by rewrite Hcb.
  - cbn. by rewrite Hcb.
Qed.

(** What [ScanSingleFile] does to the counters when the scan is not
    cancelled and the threat callback returns: the file is counted once,
    as skipped or as scanned, and [totalFiles] is not written. *)
Lemma ScanSingleFile_counters (s : Scanner) (e : ThreatEngine.Engine) (w : World)
    (path : string) (threats : list ThreatEngine.ThreatInfo) :
  m_cancelRequested s = false ->
  threat_callback_returns s ->
  let s' := snd (fst (fst (ScanSingleFile s e w path threats))) in
  totalFiles (m_statistics s') = totalFiles (m_statistics s) /\
  m_cancelRequested s' = false /\
  ((scannedFiles (m_statistics s') = scannedFiles (m_statistics s) /\
    skippedFiles (m_statistics s') = wrap64 (skippedFiles (m_statistics s) + 1)) \/
   (scannedFiles (m_statistics s') = wrap64 (scannedFiles (m_statistics s) + 1) /\
    skippedFiles (m_statistics s') = skippedFiles (m_statistics s))).
Proof.
  intros Hrun Hreturns. unfold ScanSingleFile. rewrite Hrun.
  destruct (ShouldScanFile s w path); cbn [negb].
  2: { cbn. auto. }
  set (s1 := if m_progressCallback s then _ else s).
  assert (Hs1 : m_cancelRequested s1 = false /\
                totalFiles (m_statistics s1) = totalFiles (m_statistics s) /\
                scannedFiles (m_statistics s1) = scannedFiles (m_statistics s) /\
                skippedFiles (m_statistics s1) = skippedFiles (m_statistics s) /\
                m_threatCallback s1 = m_threatCallback s /\
                threat_throws s1 = threat_throws s).
  { subst s1. destruct (m_progressCallback s); [| done].
    cbn. unfold UpdateProgress.
    repeat match goal with
           | |- context [if ?b then _ else _] => destruct b
           end; cbn; auto 10. }
  destruct Hs1 as (Hc1 & Ht1 & Hsc1 & Hsk1 & Hcb1 & Hth1). clearbody s1.
  unfold scan_failed.
  destruct (if m_progressCallback s then _ else None).
  { cbn. rewrite Ht1, Hsc1, Hsk1. auto. }
  destruct (if m_threatEngine s1 then _ else _) as [[isThreat threat] w1].
  destruct isThreat.
  - cbn [m_threatCallback with_statistics]. rewrite Hcb1.
    destruct (m_threatCallback s) eqn:Hcb.
    + cbn [threat_throws with_threat_calls with_statistics]. rewrite Hth1.
      rewrite (Hreturns Hcb). cbn. rewrite Ht1, Hsc1, Hsk1. auto.
    + cbn. rewrite Ht1, Hsc1, Hsk1. auto.
  - cbn. rewrite Ht1, Hsc1, Hsk1. auto.
Qed.

(** A scan of one file, not cancelled, with a threat callback that
    returns, ends with [totalFiles = 0] and
    [scannedFiles + skippedFiles = 1], whatever the file is. *)
Lemma ScanFile_statistics (s : Scanner) (e : ThreatEngine.Engine) (w : World)
    (path : string) (threats : list ThreatEngine.ThreatInfo) (now : Z) :
  m_cancelRequested s = false ->
  threat_callback_returns s ->
  let s' := snd (fst (fst (ScanFile s e w path threats now))) in
  totalFiles (m_statistics s') = 0 /\
  scannedFiles (m_statistics s') + skippedFiles (m_statistics s') = 1.
Proof.
  intros Hrun Hreturns. unfold ScanFile.
  set (s0 := ResetStatistics s now). set (w0 := log_if _ _ _ _ w).
  pose proof (ScanSingleFile_counters s0 e w0 path threats Hrun Hreturns)
    as (Htotal & _ & Hcount).
  destruct (ScanSingleFile s0 e w0 path threats) as [[[result s1] w1] threats1].
  cbn in *. split; [done |].
  destruct Hcount as [[-> ->] | [-> ->]]; reflexivity.
Qed.

(** C8, at the scan of a single file: the file is counted as scanned or
    skipped and never as part of the total, so at completion
    [scannedFiles + skippedFiles] is 1 and [totalFiles] is 0. *)
Theorem ScanFile_total_not_counted :
  let s' := snd (fst (fst (ScanFile SampleScan.scanner Sample.engine
                             SampleScan.one_file_world "C:\w\notes.bin" [] 0))) in
  totalFiles (m_statistics s') = 0 /\
  scannedFiles (m_statistics s') + skippedFiles (m_statistics s') = 1 /\
  ~ (scannedFiles (m_statistics s') + skippedFiles (m_statistics s')
     <= totalFiles (m_statistics s')).
Proof.
  intros s'.
  destruct (ScanFile_statistics SampleScan.scanner Sample.engine
              SampleScan.one_file_world "C:\w\notes.bin" [] 0 eq_refl)
    as [Htotal Hsum]; [by intros _ calls |].
  fold s' in Htotal, Hsum. rewrite Htotal, Hsum. repeat split. lia.
Qed.

(** X2.  In a directory scan that is not cancelled every file is added to
    the total before it is counted as scanned or skipped, so [totalFiles]
    and [scannedFiles + skippedFiles] advance together by the number of
    files. *)
Theorem ScanDirectoryRecursive_loop_counters (entries : list string) (s : Scanner)
    (e : ThreatEngine.Engine) (w : World)
    (threats : list ThreatEngine.ThreatInfo) :
  m_cancelRequested s = false ->
  threat_callback_returns s ->
  0 <= scannedFiles (m_statistics s) -> 0 <= skippedFiles (m_statistics s) ->
  scannedFiles (m_statistics s) + skippedFiles (m_statistics s)
  <= totalFiles (m_statistics s) ->
  totalFiles (m_statistics s) + vsize entries < UINT64_MOD ->
  let s' := fst (fst (ScanDirectoryRecursive_loop entries s e w threats)) in
  totalFiles (m_statistics s') = totalFiles (m_statistics s) + vsize entries /\
  scannedFiles (m_statistics s') + skippedFiles (m_statistics s')
  = scannedFiles (m_statistics s) + skippedFiles (m_statistics s) + vsize entries.
Proof.
  revert s w threats. induction entries as [|path rest IH];
    intros s w threats Hrun Hreturns Hsc Hsk Hle Hmax;
    cbn [ScanDirectoryRecursive_loop].
  { unfold vsize. cbn. lia. }
  rewrite Hrun.
  set (s1 := with_statistics s _).
  assert (Hrun1 : m_cancelRequested s1 = false) by done.
  assert (Hreturns1 : threat_callback_returns s1) by done.
  pose proof (ScanSingleFile_counters s1 e w path threats Hrun1 Hreturns1)
    as (Htotal & Hrun2 & Hcount).
  pose proof (ScanSingleFile_callbacks s1 e w path threats) as (_ & Hcb2 & _ & Hth2).
  destruct (ScanSingleFile s1 e w path threats) as [[[result s2] w2] threats2].
  cbn [fst snd] in *.
  assert (Hreturns2 : threat_callback_returns s2).
  { unfold threat_callback_returns. rewrite Hcb2, Hth2. exact Hreturns1. }
  assert (Hlen : vsize (path :: rest) = vsize rest + 1)
    by (unfold vsize; cbn [length]; lia).
  assert (Hrest : 0 <= vsize rest) by (unfold vsize; lia).
  assert (Ht1 : totalFiles (m_statistics s1) = totalFiles (m_statistics s) + 1).
  { subst s1. cbn. unfold wrap64. apply Z.mod_small. lia. }
  assert (Hs1 : scannedFiles (m_statistics s1) = scannedFiles (m_statistics s) /\
                skippedFiles (m_statistics s1) = skippedFiles (m_statistics s))
    by done.
  destruct Hs1 as [Hsc1 Hsk1]. rewrite Ht1 in Htotal.
  rewrite Hsc1, Hsk1 in Hcount. clearbody s1.
  unfold wrap64 in Hcount. rewrite !Z.mod_small in Hcount by lia.
  specialize (IH s2 w2 threats2 Hrun2 Hreturns2).
  destruct Hcount as [[Hsc2 Hsk2] | [Hsc2 Hsk2]];
    destruct IH as [IHt IHs]; try lia.
Qed.

(** One file in one directory: the total and the scanned-or-skipped count
    both advance from 0 to 1. *)
Lemma ScanDirectoryRecursive_loop_counters_witness :
  let s' := fst (fst (ScanDirectoryRecursive_loop ["C:\w\notes.bin"%string]
                        SampleCallbacks.scanner Sample.engine
                        SampleScan.one_dir_world [])) in
  totalFiles (m_statistics s') = 0 + 1 /\
  scannedFiles (m_statistics s') + skippedFiles (m_statistics s') = 0 + 0 + 1.
Proof.
  apply (ScanDirectoryRecursive_loop_counters ["C:\w\notes.bin"%string]
           SampleCallbacks.scanner Sample.engine SampleScan.one_dir_world []).
  - reflexivity.
  - intros _ calls. reflexivity.
  - discriminate.
  - discriminate.
  - discriminate.
  - reflexivity.
Defined.
End Statistics.

(** ** Sanitized archive entry names *)

Section Sanitize.
Import ArchiveScanner.

Lemma std_replace_id (old new : ascii) (s : list ascii) :
  (forall c, In c s -> c <> old) -> std_replace old new s = s.
Proof.
  intros Hs. unfold std_replace. rewrite <- (map_id s) at 2.
  apply map_ext_in. intros c Hc.
  destruct (ascii_eqb c old) eqn:Heq; [| done].
  apply Ascii.eqb_eq in Heq. by apply Hs in Hc.
Qed.

Lemma erase_leading_suffix (s : list ascii) :
  exists pre, s = pre ++ erase_leading s.
Proof.
  induction s as [|c s [pre IH]]; simpl; [by exists [] |].
  destruct (_ || _); [| by exists []].
  exists (c :: pre). simpl. by f_equal.
Qed.

Lemma erase_leading_head (s : list ascii) :
  head (erase_leading s) <> Some "."%char /\
  head (erase_leading s) <> Some " "%char.
Proof.
  induction s as [|c s IH]; simpl; [done |].
  destruct (ascii_eqb c "." || ascii_eqb c " ") eqn:Heq; [done |].
  apply orb_false_iff in Heq as [Hdot Hsp]. simpl.
  split; intros [= ->]; [by rewrite Ascii.eqb_refl in Hdot
                        | by rewrite Ascii.eqb_refl in Hsp].
Qed.

Lemma erase_leading_id (s : list ascii) :
  head s <> Some "."%char -> head s <> Some " "%char -> erase_leading s = s.
Proof.
  destruct s as [|c s]; simpl; [done |]. intros Hdot Hsp.
  destruct (ascii_eqb c ".") eqn:H1.
  { apply Ascii.eqb_eq in H1 as ->. done. }
  destruct (ascii_eqb c " ") eqn:H2; [| done].
  apply Ascii.eqb_eq in H2 as ->. done.
Qed.

(** The nine replacements, seen on one character. *)
Lemma replaced_char_safe (x : ascii) :
  let r := fun (old : ascii) (c : ascii) => if ascii_eqb c old then "_"%char else c in
  existsb (ascii_eqb (r "|" (r ">" (r "<" (r "034" (r "?" (r "*" (r ":" (r "\" (r "/" x))))))))))%char
          dangerous_characters = false.
Proof. destruct x as [[] [] [] [] [] [] [] []]; reflexivity. Qed.

Lemma not_dangerous_iff (c : ascii) :
  existsb (ascii_eqb c) dangerous_characters = false <-> ~ In c dangerous_characters.
Proof.
  rewrite <- not_true_iff_false, existsb_exists. split.
  - intros Hn Hin. apply Hn. exists c. split; [done | apply Ascii.eqb_refl].
  - intros Hn (d & Hd & Heq). apply Ascii.eqb_eq in Heq as ->. done.
Qed.

Lemma sanitizeFileName_chars_safe (fileName : list ascii) :
  let r := sanitizeFileName_chars fileName in
  r <> [] /\ (length r <= 200)%nat /\
  (forall c, In c r -> ~ In c dangerous_characters) /\
  head r <> Some "."%char /\ head r <> Some " "%char.
Proof.
  unfold sanitizeFileName_chars. cbv zeta.
  set (s9 := std_replace "|" "_" _).
  assert (Hs9 : forall c, In c s9 -> ~ In c dangerous_characters).
  { intros c Hin. apply not_dangerous_iff. subst s9. unfold std_replace in Hin.
    rewrite !map_map in Hin. apply in_map_iff in Hin as (x & <- & _).
    apply (replaced_char_safe x). }
  clearbody s9.
  assert (Hs10 : forall c, In c (erase_leading s9) -> ~ In c dangerous_characters).
  { intros c Hin. apply Hs9. destruct (erase_leading_suffix s9) as [pre Hpre].
    rewrite Hpre. apply in_or_app. by right. }
  destruct (erase_leading_head s9) as [Hdot Hsp].
  set (s10 := erase_leading s9) in *. clearbody s10.
  set (s11 := if (200 <? length s10)%nat then take 200 s10 else s10).
  assert (Hs11 : (length s11 <= 200)%nat /\
                 (forall c, In c s11 -> ~ In c dangerous_characters) /\
                 head s11 = head s10).
  { subst s11. destruct (Nat.ltb_spec 200 (length s10)) as [Hlong|Hshort].
    - split; [rewrite length_take; lia |]. split.
      + intros c Hin. apply Hs10. rewrite <- (take_drop 200 s10).
        apply in_or_app. by left.
      + by destruct s10.
    - done. }
  destruct Hs11 as (Hlen & Hsafe & Hhead). clearbody s11.
  destruct s11 as [|c s11].
  - split; [done |]. split; [simpl; lia |]. split; [| done].
    intros c Hin. apply not_dangerous_iff.
    simpl in Hin. repeat (destruct Hin as [<- | Hin]; [reflexivity |]). done.
  - split; [done |]. split; [done |]. split; [done |]. by rewrite Hhead.
Qed.

(** X5.  Whatever name an archive entry carries, the name of the file it is
    extracted to is not empty, is at most 200 characters long, contains
    none of the nine characters that [dangerous_characters] lists (so it
    cannot name another directory or drive), and does not start with a dot or a space. *)
Theorem sanitizeFileName_safe (fileName : string) :
  let r := list_ascii_of_string (sanitizeFileName fileName) in
  sanitizeFileName fileName <> EmptyString /\
  (String.length (sanitizeFileName fileName) <= 200)%nat /\
  (forall c, In c r -> ~ In c dangerous_characters) /\
  head r <> Some "."%char /\ head r <> Some " "%char.
Proof.
  intros r. subst r. unfold sanitizeFileName.
  rewrite list_ascii_of_string_of_list_ascii.
  destruct (sanitizeFileName_chars_safe (list_ascii_of_string fileName))
    as (Hne & Hlen & Hsafe & Hdot & Hsp).
  set (r := sanitizeFileName_chars _) in *. clearbody r.
  split; [| split; [| done]].
  - destruct r; [done | discriminate].
  - replace (String.length (string_of_list_ascii r)) with (length r); [done |].
    clear. induction r as [|c r IH]; simpl; [done | by rewrite IH].
Qed.

(** X6.  Sanitizing is idempotent: a name that has been sanitized is left
    as it is by a second pass. *)
Theorem sanitizeFileName_idempotent (fileName : string) :
  sanitizeFileName (sanitizeFileName fileName) = sanitizeFileName fileName.
Proof.
  unfold sanitizeFileName. rewrite list_ascii_of_string_of_list_ascii.
  f_equal.
  destruct (sanitizeFileName_chars_safe (list_ascii_of_string fileName))
    as (Hne & Hlen & Hsafe & Hdot & Hsp).
  set (r := sanitizeFileName_chars (list_ascii_of_string fileName)) in *.
  clearbody r. unfold sanitizeFileName_chars. cbv zeta.
  assert (Hid : forall old, In old dangerous_characters -> std_replace old "_" r = r).
  { intros old Hold. apply std_replace_id. intros c Hc ->. by apply (Hsafe old). }
  rewrite !Hid by (simpl; tauto).
  rewrite erase_leading_id by done.
  destruct (Nat.ltb_spec 200 (length r)) as [?|_]; [lia |].
  by destruct r.
Qed.
End Sanitize.

(** ** Restoring from quarantine *)

Section Restore.
Import ThreatEngine.

(** The decimal rendering of a number starts with a digit or a minus sign,
    so never with the [m] of [metadata.dat]. *)
Lemma pretty_N_go_head (x : N) (s : string) :
  (exists c t, s = String c t /\ c <> "m"%char) ->
  exists c t, pretty_N_go x s = String c t /\ c <> "m"%char.
Proof.
  revert s. induction (N.lt_wf_0 x) as [x _ IH]. intros s Hs.
  assert (x = 0 \/ 0 < x)%N as [-> | Hpos] by lia.
  - by rewrite pretty_N_go_0.
  - rewrite pretty_N_go_step by done. apply IH.
    + by apply N.div_lt.
    + eexists _, _. split; [reflexivity |].
      unfold pretty_N_char. by repeat case_match.
Qed.

Lemma pretty_N_head (x : N) :
  exists c t, pretty x = String c t /\ c <> "m"%char.
Proof.
  unfold pretty, pretty_N. destruct (decide (x = 0%N)) as [-> | Hx].
  - by eexists _, _.
  - rewrite pretty_N_go_step by lia. apply pretty_N_go_head.
    eexists _, _. split; [reflexivity |].
    unfold pretty_N_char. by repeat case_match.
Qed.

Lemma pretty_Z_head (z : Z) :
  exists c t, pretty z = String c t /\ c <> "m"%char.
Proof.
  destruct z as [| p | p].
  - by eexists _, _.
  - apply (pretty_N_head (Npos p)).
  - by eexists _, _.
Qed.

Lemma append_inj_prefix (p a b : string) : p +:+ a = p +:+ b -> a = b.
Proof. induction p as [| c p IH]; simpl; [done |]. intros [= H]. auto. Qed.

Lemma quarantineFile_ne_metadataFile (e : Engine) (w : World) (path : string) :
  quarantineFile e w path <> metadataFile e.
Proof.
  unfold quarantineFile, metadataFile. intros Heq.
  apply append_inj_prefix in Heq. simpl in Heq. injection Heq as Heq.
  destruct (pretty_Z_head (clock w)) as (c & t & Hc & Hm).
  rewrite Hc in Heq. simpl in Heq. by injection Heq as -> _.
Qed.

Lemma with_quarantineEntries_same (e : Engine) :
  with_quarantineEntries e (m_quarantineEntries e) = e.
Proof. by destruct e. Qed.

Lemma with_quarantineEntries_twice (e : Engine) q q' :
  with_quarantineEntries (with_quarantineEntries e q) q' = with_quarantineEntries e q'.
Proof. reflexivity. Qed.

Lemma list_find_snoc_last {A} (P : A -> Prop) `{!forall x, Decision (P x)}
    (l : list A) (x : A) :
  Forall (fun y => ~ P y) l -> P x -> list_find P (l ++ [x]) = Some (length l, x).
Proof.
  intros Hl Hx. apply list_find_Some. split; [| split].
  - by rewrite lookup_app_r, Nat.sub_diag by lia.
  - done.
  - intros j y Hj Hlt. rewrite lookup_app_l in Hj by done.
    eapply Forall_lookup_1 in Hl; eauto.
Qed.

Lemma delete_snoc_last {A} (l : list A) (x : A) : delete (length l) (l ++ [x]) = l.
Proof. induction l as [| y l IH]; simpl; [done | by rewrite IH]. Qed.

(** X7.  A restore that reports failure has changed nothing: the engine,
    its quarantine index included, and the world are what they were.  It
    fails when no entry of the index carries the given vault path, and
    when there is no file at the vault path. *)
Theorem RestoreFromQuarantine_failure_leaves_state (e : Engine) (w : World)
    (vaultPath : string) :
  (forall e' w', RestoreFromQuarantine e w vaultPath = (false, e', w') ->
                 e' = e /\ w' = w) /\
  (Forall (fun entry => quarantinePath entry <> vaultPath) (m_quarantineEntries e) ->
   RestoreFromQuarantine e w vaultPath = (false, e, w)) /\
  (files w !! vaultPath = None ->
   RestoreFromQuarantine e w vaultPath = (false, e, w)).
Proof.
  unfold RestoreFromQuarantine. split; [| split].
  - intros e' w' Heq.
    destruct (list_find _ _) as [[i entry] |]; [| by injection Heq as <- <-].
    destruct (MoveFile w _ _) as [moved w1] eqn:Hmove.
    destruct moved; [discriminate |].
    apply MoveFile_failure in Hmove as ->. by injection Heq as <- <-.
  - intros Hnone.
    destruct (list_find _ _) as [[i entry] |] eqn:Hfind; [| done].
    apply list_find_Some in Hfind as (Hi & Hp & _).
    eapply Forall_lookup_1 in Hnone; eauto. done.
  - intros Hgone.
    destruct (list_find _ _) as [[i entry] |] eqn:Hfind; [| done].
    apply list_find_Some in Hfind as (_ & Hp & _).
    unfold MoveFile. by rewrite Hp, Hgone.
Qed.

Lemma move_denied_log_if logger lvl fmt args (w : World) :
  move_denied (log_if logger lvl fmt args w) = move_denied w.
Proof. unfold log_if. by destruct logger. Qed.

Lemma files_SaveQuarantineMetadata (e : Engine) (w : World) :
  files (SaveQuarantineMetadata e w)
  = if open_denied w (metadataFile e) then files w
    else <[metadataFile e := serialize_index (m_quarantineEntries e)]> (files w).
Proof. unfold SaveQuarantineMetadata. by destruct (open_denied w _). Qed.

Lemma open_denied_SaveQuarantineMetadata (e : Engine) (w : World) :
  open_denied (SaveQuarantineMetadata e w) = open_denied w.
Proof. unfold SaveQuarantineMetadata. by destruct (open_denied w _). Qed.

Lemma move_denied_SaveQuarantineMetadata (e : Engine) (w : World) :
  move_denied (SaveQuarantineMetadata e w) = move_denied w.
Proof. unfold SaveQuarantineMetadata. by destruct (open_denied w _). Qed.

Lemma MoveFile_success (w : World) (src dst : string) (w' : World) :
  MoveFile w src dst = (true, w') ->
  exists c, files w !! src = Some c /\ files w !! dst = None /\
            move_denied w src dst = false /\
            w' = with_files w (<[dst := c]> (delete src (files w))).
Proof.
  unfold MoveFile. intros Hm.
  destruct (files w !! src) as [c |]; [| discriminate].
  destruct (files w !! dst); [discriminate |].
  destruct (move_denied w src dst); [discriminate |].
  injection Hm as <-. by exists c.
Qed.

(** What a successful [QuarantineFile] leaves behind. *)
Lemma QuarantineFile_success (e e1 : Engine) (w w1 : World) (path threat : string) :
  QuarantineFile e w path threat = (true, e1, w1) ->
  let target := quarantineFile e w path in
  let entry := mkQuarantineEntry path target threat (clock w) in
  exists c,
    files w !! path = Some c /\ files w !! target = None /\
    move_denied w path target = false /\
    e1 = with_quarantineEntries e (m_quarantineEntries e ++ [entry]) /\
    open_denied w1 = open_denied w /\ move_denied w1 = move_denied w /\
    files w1 = if open_denied w (metadataFile e)
               then <[target := c]> (delete path (files w))
               else <[metadataFile e := serialize_index (m_quarantineEntries e ++ [entry])]>
                      (<[target := c]> (delete path (files w))).
Proof.
  intros Hq target entry. unfold QuarantineFile in Hq. fold target in Hq.
  destruct (m_initialized e); [| discriminate]. simpl in Hq.
  destruct (Utils.FileExists w path); [| discriminate]. simpl in Hq.
  destruct (MoveFile w path target) as [moved w0] eqn:Hmove.
  destruct moved; [| discriminate].
  apply MoveFile_success in Hmove as (c & Hsrc & Hdst & Hallowed & ->).
  injection Hq as <- <-. exists c.
  rewrite open_denied_log_if, move_denied_log_if, files_log_if,
    open_denied_SaveQuarantineMetadata, move_denied_SaveQuarantineMetadata,
    files_SaveQuarantineMetadata.
  done.
Qed.

(** X8.  Quarantine followed by restore is a round trip.  When a file has
    been quarantined, no older entry of the index carries the same vault
    path, the file is not the index file itself and the system allows the
    move back, then restoring the vault path succeeds, the engine is the
    one before the quarantine, and every file other than the index file is
    where and what it was; the index file, when it can be opened, holds
    the old index again. *)
Theorem quarantine_then_restore (e e1 : Engine) (w w1 : World)
    (path threat : string) :
  QuarantineFile e w path threat = (true, e1, w1) ->
  Forall (fun entry => quarantinePath entry <> quarantineFile e w path)
         (m_quarantineEntries e) ->
  path <> metadataFile e ->
  move_denied w (quarantineFile e w path) path = false ->
  exists w2,
    RestoreFromQuarantine e1 w1 (quarantineFile e w path) = (true, e, w2) /\
    (forall p, p <> metadataFile e -> files w2 !! p = files w !! p) /\
    (open_denied w (metadataFile e) = false ->
     files w2 !! metadataFile e = Some (serialize_index (m_quarantineEntries e))).
Proof.
  intros Hq Hfresh Hmeta Hallowed.
  pose proof (quarantineFile_ne_metadataFile e w path) as Htm.
  apply QuarantineFile_success in Hq
    as (c & Hsrc & Hdst & _ & -> & Hopen1 & Hmove1 & Hfiles1).
  set (target := quarantineFile e w path) in *.
  set (entry := mkQuarantineEntry path target threat (clock w)) in *.
  assert (Hpt : path <> target) by congruence.
  assert (Hvault : files w1 !! target = Some c).
  { rewrite Hfiles1. destruct (open_denied w (metadataFile e)).
    - apply lookup_insert_eq.
    - rewrite lookup_insert_ne by done. apply lookup_insert_eq. }
  assert (Hfree : files w1 !! path = None).
  { rewrite Hfiles1. destruct (open_denied w (metadataFile e)).
    - rewrite lookup_insert_ne by done. apply lookup_delete_eq.
    - rewrite !lookup_insert_ne by done. apply lookup_delete_eq. }
  unfold RestoreFromQuarantine.
  change (m_quarantineEntries (with_quarantineEntries e _))
    with (m_quarantineEntries e ++ [entry]).
  rewrite (list_find_snoc_last _ _ entry) by done.
  change (quarantinePath entry) with target.
  change (originalPath entry) with path.
  rewrite delete_snoc_last, with_quarantineEntries_twice, with_quarantineEntries_same.
  unfold MoveFile. rewrite Hvault, Hfree, Hmove1, Hallowed.
  eexists. split; [reflexivity |].
  rewrite files_SaveQuarantineMetadata, open_denied_log_if, files_log_if.
  change (open_denied (with_files w1 _)) with (open_denied w1).
  change (files (with_files w1 ?f)) with f.
  rewrite Hopen1.
  assert (Hback : forall p, p <> metadataFile e ->
            (<[path := c]> (delete target (files w1)) : gmap _ _) !! p = files w !! p).
  { intros p Hp.
    destruct (decide (p = path)) as [-> | Hpp];
      [by rewrite lookup_insert_eq |].
    rewrite lookup_insert_ne by done.
    destruct (decide (p = target)) as [-> | Hptt];
      [by rewrite lookup_delete_eq |].
    rewrite lookup_delete_ne, Hfiles1 by done.
    destruct (open_denied w (metadataFile e));
      by rewrite ?lookup_insert_ne, lookup_delete_ne by done. }
  split.
  - intros p Hp.
    destruct (open_denied w (metadataFile e)); [by apply Hback |].
    rewrite lookup_insert_ne by done. by apply Hback.
  - intros ->. apply lookup_insert_eq.
Qed.

(** A file of the sample world, quarantined and restored. *)
Lemma quarantine_then_restore_witness :
  let w := Sample.world {[ "C:\w\bad.exe"%string := list_byte_of_string "payload" ]} in
  let r := QuarantineFile Sample.engine w "C:\w\bad.exe" "Trojan.Generic.A" in
  exists w2,
    RestoreFromQuarantine r.1.2 r.2 (quarantineFile Sample.engine w "C:\w\bad.exe")
    = (true, Sample.engine, w2) /\
    (forall p, p <> metadataFile Sample.engine -> files w2 !! p = files w !! p) /\
    (open_denied w (metadataFile Sample.engine) = false ->
     files w2 !! metadataFile Sample.engine
     = Some (serialize_index (m_quarantineEntries Sample.engine))).
Proof.
  intros w r.
  apply (quarantine_then_restore Sample.engine r.1.2 w r.2
           "C:\w\bad.exe" "Trojan.Generic.A").
  - reflexivity.
  - constructor.
  - discriminate.
  - reflexivity.
Defined.
End Restore.

(** ** The signature database file *)

Section DatabaseFile.
Import ThreatEngine.

Lemma to_N_byte_of_Z (z : Z) : Z.of_N (Byte.to_N (byte_of_Z z)) = z mod 256.
Proof.
  unfold byte_of_Z.
  assert (Hr : 0 <= z mod 256 < 256) by (apply Z.mod_pos_bound; lia).
  destruct (Byte.of_N (Z.to_N (z mod 256))) as [b |] eqn:Hb.
  - apply Byte.to_of_N in Hb. rewrite Hb. lia.
  - apply Byte.of_N_None_iff in Hb. lia.
Qed.

Lemma length_le_bytes (n : nat) (z : Z) : length (le_bytes n z) = n.
Proof. revert z. induction n as [| n IH]; intros z; simpl; [done | by rewrite IH]. Qed.

Lemma le_value_le_bytes (n : nat) (z : Z) :
  le_value (le_bytes n z) = z mod 256 ^ Z.of_nat n.
Proof.
  revert z. induction n as [| n IH]; intros z.
  - simpl. by rewrite Z.mod_1_r.
  - cbn [le_bytes le_value]. rewrite to_N_byte_of_Z, IH.
    rewrite Nat2Z.inj_succ, Z.pow_succ_r by lia.
    rewrite Z.rem_mul_r by lia. done.
Qed.

Lemma read_bytes_app (bs rest : list byte) :
  read_bytes (length bs) (bs ++ rest) = Some (bs, rest).
Proof.
  unfold read_bytes. rewrite length_app.
  destruct (Nat.leb_spec (length bs) (length bs + length rest)); [| lia].
  by rewrite take_app_length, drop_app_length.
Qed.

Lemma read_u32_le_bytes (z : Z) (rest : list byte) :
  uint32_range z -> read_u32 (le_bytes 4 z ++ rest) = Some (z, rest).
Proof.
  intros Hz. unfold read_u32, reader_bind, reader_ret.
  rewrite <- (length_le_bytes 4 z) at 1. rewrite read_bytes_app.
  rewrite le_value_le_bytes. unfold uint32_range, UINT32_MOD in Hz.
  by rewrite Z.mod_small by (simpl; lia).
Qed.

Lemma read_i32_le_bytes (z : Z) (rest : list byte) :
  int32_range z -> read_i32 (le_bytes 4 z ++ rest) = Some (z, rest).
Proof.
  intros Hz. unfold read_i32, reader_bind, reader_ret.
  rewrite <- (length_le_bytes 4 z) at 1. rewrite read_bytes_app.
  rewrite le_value_le_bytes. unfold int32_range in Hz.
  change (256 ^ Z.of_nat 4) with (2 ^ 32).
  do 2 f_equal.
  destruct (Z.ltb_spec (z mod 2 ^ 32) (2 ^ 31)) as [Hlt | Hge].
  - destruct (Z.lt_ge_cases z 0) as [Hneg | Hpos].
    + rewrite <- (Z.mod_add z 1), Z.mod_small in Hlt by lia. lia.
    + by rewrite Z.mod_small by lia.
  - destruct (Z.lt_ge_cases z 0) as [Hneg | Hpos].
    + rewrite <- (Z.mod_add z 1), Z.mod_small by lia. lia.
    + rewrite Z.mod_small in Hge by lia. lia.
Qed.

Lemma length_wchar_bytes (s : string) :
  length (wchar_bytes s) = (2 * String.length s)%nat.
Proof.
  unfold wchar_bytes. induction s as [| c s IH]; simpl; [done |].
  rewrite IH. lia.
Qed.

Lemma decode_wchars_wchar_bytes (s : string) :
  decode_wchars (wchar_bytes s) = Some (list_ascii_of_string s).
Proof.
  unfold wchar_bytes. induction s as [| c s IH]; [done |].
  cbn [list_ascii_of_string flat_map app decode_wchars].
  change (byte_eqb "000" "000") with true. cbv iota.
  rewrite IH. simpl. do 2 f_equal.
  assert (Hb : Z.of_N (Byte.to_N (byte_of_Z (Z.of_N (N_of_ascii c))))
               = Z.of_N (N_of_ascii c)).
  { rewrite to_N_byte_of_Z. pose proof (N_ascii_bounded c). apply Z.mod_small. lia. }
  apply N2Z.inj in Hb. rewrite Hb. apply ascii_N_embedding.
Qed.

Lemma read_wstring_wchar_bytes (s : string) (rest : list byte) :
  read_wstring (String.length s) (wchar_bytes s ++ rest) = Some (s, rest).
Proof.
  unfold read_wstring. rewrite <- length_wchar_bytes, read_bytes_app.
  rewrite decode_wchars_wchar_bytes. simpl.
  by rewrite string_of_list_ascii_of_string.
Qed.

Lemma length_list_ascii_of_string (s : string) :
  length (list_ascii_of_string s) = String.length s.
Proof. induction s as [| c s IH]; simpl; [done | by rewrite IH]. Qed.

Lemma read_signature_serialize (sig : VirusSignature) (rest : list byte) :
  signature_in_range sig ->
  read_signature (serialize_signature sig ++ rest) = Some (sig, rest).
Proof.
  intros (Hname & Hpat & Hsev & Hoff).
  unfold serialize_signature, wrap32. cbv zeta.
  unfold vsize in *.
  rewrite !Z.mod_small by lia. rewrite !Nat2Z.id.
  rewrite <- length_list_ascii_of_string at 2.
  rewrite !firstn_all, string_of_list_ascii_of_string.
  unfold read_signature, reader_bind.
  rewrite <- !app_assoc.
  rewrite read_u32_le_bytes by (unfold uint32_range; lia).
  rewrite Nat2Z.id, read_wstring_wchar_bytes.
  rewrite read_u32_le_bytes by done.
  rewrite read_u32_le_bytes by (unfold uint32_range; lia).
  rewrite Nat2Z.id, read_bytes_app.
  rewrite read_i32_le_bytes by done.
  unfold reader_ret. by destruct sig.
Qed.

Lemma read_signatures_serialize (sigs acc : list VirusSignature) (rest : list byte) :
  Forall signature_in_range sigs ->
  read_signatures (length sigs) acc (flat_map serialize_signature sigs ++ rest)
  = Some (acc ++ sigs, rest).
Proof.
  intros Hall. revert acc. induction Hall as [| sig sigs Hsig _ IH]; intros acc.
  - simpl. unfold reader_ret. by rewrite app_nil_r.
  - cbn [length read_signatures flat_map]. unfold reader_bind.
    rewrite <- app_assoc, read_signature_serialize by done.
    rewrite IH. by rewrite <- app_assoc.
Qed.

(** X9.  What [SaveSignatureDatabase] writes, [LoadSignatureDatabase]
    reads back.  When the database file can be opened, the version and the
    signature count are values of [uint32_t], the count is the number of
    signatures held, and every signature's fields are in the range of
    their types, then saving succeeds, and any engine with the same
    database path that loads the file ends with exactly the saved version,
    signatures and count, and with nothing else changed. *)
Theorem signature_database_round_trip (e e0 : Engine) (w : World) :
  open_denied w (databaseFile e) = false ->
  uint32_range (m_databaseVersion e) ->
  uint32_range (m_signatureCount e) ->
  m_signatureCount e = vsize (m_signatures e) ->
  Forall signature_in_range (m_signatures e) ->
  m_databasePath e0 = m_databasePath e ->
  let '(saved, w1) := SaveSignatureDatabase e w in
  saved = true /\
  LoadSignatureDatabase e0 w1
  = Some (true, with_database e0 (m_databaseVersion e) (m_signatures e)
                              (m_signatureCount e)).
Proof.
  intros Hopen Hver Hcount Hsize Hsigs Hpath.
  unfold SaveSignatureDatabase. rewrite Hopen. split; [done |].
  unfold LoadSignatureDatabase.
  assert (Hfile : databaseFile e0 = databaseFile e)
    by (unfold databaseFile; by rewrite Hpath).
  rewrite Hfile. change (open_denied (with_files w _)) with (open_denied w).
  rewrite Hopen. change (files (with_files w ?f)) with f.
  rewrite lookup_insert_eq.
  unfold serialize_database, read_header, reader_bind.
  rewrite read_u32_le_bytes by (unfold uint32_range, UINT32_MOD, SIGS_MAGIC; lia).
  rewrite read_u32_le_bytes by done.
  rewrite read_u32_le_bytes by done.
  unfold reader_ret. rewrite Z.eqb_refl. cbn [negb].
  rewrite Hsize at 1. unfold vsize at 1. rewrite Nat2Z.id.
  rewrite <- (app_nil_r (flat_map _ _)).
  rewrite read_signatures_serialize by done.
  cbn [app]. rewrite Hsize. unfold wrap32.
  rewrite Z.mod_small; [done |]. rewrite <- Hsize. apply Hcount.
Qed.

(** The default database, created by one engine and loaded by another. *)
Lemma signature_database_round_trip_witness :
  let e := Sample.engine in
  let w := Sample.world ∅ in
  let '(saved, w1) := SaveSignatureDatabase e w in
  saved = true /\
  LoadSignatureDatabase (with_database e 0 [] 0) w1
  = Some (true, with_database (with_database e 0 [] 0) (m_databaseVersion e)
                              (m_signatures e) (m_signatureCount e)).
Proof.
  intros e w.
  apply (signature_database_round_trip e (with_database e 0 [] 0) w).
  - reflexivity.
  - unfold uint32_range, UINT32_MOD. simpl. lia.
  - unfold uint32_range, UINT32_MOD. simpl. lia.
  - reflexivity.
  - repeat constructor; unfold UINT32_MOD; simpl; lia.
  - reflexivity.
Defined.
End DatabaseFile.

(** ** The watch list *)

Section WatchList.
Import FileMonitor.

Lemma erase_first_cons (x y : string) (v : list string) :
  erase_first x (y :: v) = if decide (y = x) then v else y :: erase_first x v.
Proof.
  unfold erase_first. simpl. destruct (decide (y = x)); [done |].
  by destruct (list_find _ v) as [[i z] |].
Qed.

Lemma erase_first_absent (x : string) (v : list string) :
  x ∉ v -> erase_first x v = v.
Proof.
  induction v as [| y v IH]; [done |].
  rewrite not_elem_of_cons, erase_first_cons. intros [Hne Hnin].
  destruct (decide (y = x)); [congruence |]. by rewrite IH.
Qed.

Lemma elem_of_erase_first (x p : string) (v : list string) :
  NoDup v -> p ∈ erase_first x v <-> p ∈ v /\ p <> x.
Proof.
  induction 1 as [| y v Hy Hnd IH].
  - cbn. rewrite elem_of_nil. tauto.
  - rewrite erase_first_cons. destruct (decide (y = x)) as [-> | Hne].
    + rewrite elem_of_cons. split; [| intros [[-> | Hp] Hne]; [done | done]].
      intros Hp. split; [by right |]. by intros ->.
    + rewrite !elem_of_cons, IH. intuition congruence.
Qed.

Lemma NoDup_erase_first (x : string) (v : list string) :
  NoDup v -> NoDup (erase_first x v).
Proof.
  induction 1 as [| y v Hy Hnd IH]; [constructor |].
  rewrite erase_first_cons. destruct (decide (y = x)); [done |].
  constructor; [| done]. rewrite elem_of_erase_first by done. tauto.
Qed.

Lemma erase_first_snoc (x : string) (v : list string) :
  x ∉ v -> erase_first x (v ++ [x]) = v.
Proof.
  induction v as [| y v IH]; simpl.
  - intros _. rewrite erase_first_cons. by destruct (decide (x = x)).
  - rewrite not_elem_of_cons, erase_first_cons. intros [Hne Hnin].
    destruct (decide (y = x)); [congruence |]. by rewrite IH.
Qed.

Lemma AddWatchPath_consistent logger (ws : Watches) (w : World) dir created :
  watches_consistent ws -> watches_consistent (AddWatchPath logger ws w dir created).1.
Proof.
  intros (Hnd & Hkeys & Hinfo). unfold AddWatchPath.
  destruct (bool_decide_reflect (dir ∈ m_watchedPaths ws)) as [Hin | Hnin];
    [done |].
  destruct (Utils.DirectoryExists w dir); [| done]. cbn [negb].
  destruct (Z.eqb_spec created INVALID_HANDLE_VALUE) as [Hinv | Hvalid]; [done |].
  unfold watches_consistent. cbn [fst m_watchedPaths m_watchHandles].
  split; [| split].
  - apply NoDup_app. split; [done |]. split; [| apply NoDup_singleton].
    intros p Hp. rewrite list_elem_of_singleton. by intros ->.
  - intros p. rewrite elem_of_app, list_elem_of_singleton, Hkeys.
    destruct (decide (p = dir)) as [-> | Hne].
    + rewrite lookup_insert_eq. split; [intros _; by eexists | intros _; by right].
    + rewrite lookup_insert_ne by done.
      split; [intros [Hp | Hp]; [done | congruence] | by left].
  - intros p info. destruct (decide (p = dir)) as [-> | Hne].
    + rewrite lookup_insert_eq. intros Heq. apply (inj Some) in Heq. subst info.
      split; [reflexivity | exact Hvalid].
    + rewrite lookup_insert_ne by done. apply Hinfo.
Qed.

Lemma RemoveWatchPath_consistent logger (ws : Watches) (w : World) dir :
  watches_consistent ws -> watches_consistent (RemoveWatchPath logger ws w dir).1.
Proof.
  intros (Hnd & Hkeys & Hinfo). unfold RemoveWatchPath, watches_consistent.
  cbn [fst].
  destruct (m_watchHandles ws !! dir) as [info |] eqn:Hdir;
    cbn [m_watchedPaths m_watchHandles]; (split; [| split]).
  - by apply NoDup_erase_first.
  - intros p. rewrite elem_of_erase_first, Hkeys by done.
    destruct (decide (p = dir)) as [-> | Hne].
    + rewrite lookup_delete_eq. split; [by intros [_ ?] | by intros []].
    + rewrite lookup_delete_ne by done. tauto.
  - intros p i. destruct (decide (p = dir)) as [-> | Hne].
    + by rewrite lookup_delete_eq.
    + rewrite lookup_delete_ne by done. apply Hinfo.
  - by apply NoDup_erase_first.
  - intros p. rewrite elem_of_erase_first, Hkeys by done.
    split; [tauto |]. intros Hp. split; [done |]. intros ->.
    rewrite Hdir in Hp. by destruct Hp.
  - done.
Qed.

Lemma no_watches_consistent : watches_consistent no_watches.
Proof.
  split; [constructor |]. split.
  - intros p. cbn. rewrite lookup_empty. split; [set_solver | by intros []].
  - intros p info. cbn. by rewrite lookup_empty.
Qed.

Lemma watch_step_consistent logger (st : Watches * World) (op : WatchOp) :
  watches_consistent st.1 -> watches_consistent (watch_step logger st op).1.
Proof.
  destruct op; [apply AddWatchPath_consistent | apply RemoveWatchPath_consistent].
Qed.

(** X10.  Whatever sequence of [AddWatchPath] and [RemoveWatchPath] calls
    is made on an empty watch list, with whatever handles [CreateFile]
    returns, the path vector and the handle map stay consistent: no path
    is listed twice, the map has an entry for exactly the listed paths,
    and every entry carries its own path and a valid handle. *)
Theorem watch_list_consistent (logger : bool) (w : World) (ops : list WatchOp) :
  watches_consistent (foldl (watch_step logger) (no_watches, w) ops).1.
Proof.
  assert (Hgen : forall st, watches_consistent st.1 ->
                   watches_consistent (foldl (watch_step logger) st ops).1).
  { induction ops as [| op ops IH]; intros st Hst; [done |].
    simpl. apply IH. by apply watch_step_consistent. }
  apply Hgen, no_watches_consistent.
Qed.

(** X11.  Removing a directory right after it has been added restores the
    watch list.  For a consistent list that does not watch [dir], an
    existing directory and a valid handle from [CreateFile], the call
    adds [dir] at the end of the vector, and the removal gives back the
    path vector and the handle map as they were and closes that handle
    and no other. *)
Theorem add_then_remove_watch (logger : bool) (ws : Watches) (w : World)
    (dir : string) (created : Z) :
  watches_consistent ws ->
  dir ∉ m_watchedPaths ws ->
  Utils.DirectoryExists w dir = true ->
  created <> INVALID_HANDLE_VALUE ->
  let st := AddWatchPath logger ws w dir created in
  let st' := RemoveWatchPath logger st.1 st.2 dir in
  m_watchedPaths st.1 = m_watchedPaths ws ++ [dir] /\
  m_watchedPaths st'.1 = m_watchedPaths ws /\
  m_watchHandles st'.1 = m_watchHandles ws /\
  closed st'.1 = closed ws ∪ {[ created ]}.
Proof.
  intros (Hnd & Hkeys & Hinfo) Hnin Hdir Hvalid st st'.
  subst st st'. unfold AddWatchPath.
  rewrite bool_decide_eq_false_2 by done. rewrite Hdir. cbn [negb].
  destruct (Z.eqb_spec created INVALID_HANDLE_VALUE) as [? | _]; [done |].
  unfold RemoveWatchPath. cbn [fst snd m_watchedPaths m_watchHandles closed].
  rewrite lookup_insert_eq. cbn [fst m_watchedPaths m_watchHandles closed handle].
  destruct (Z.eqb_spec created INVALID_HANDLE_VALUE) as [? | _]; [done |].
  split; [done |]. split; [by apply erase_first_snoc |]. split; [| done].
  rewrite delete_insert_eq. apply delete_id.
  destruct (m_watchHandles ws !! dir) eqn:Hl; [| done].
  exfalso. apply Hnin, Hkeys. by rewrite Hl.
Qed.

(** The first directory added to an empty watch list, then removed. *)
Lemma add_then_remove_watch_witness :
  let w := mkWorld ∅ {[ "C:\Users"%string := [] ]} (fun _ => false)
                   (fun _ _ => false) (fun _ => false) (fun _ => None) 0 [] in
  let st := AddWatchPath true no_watches w "C:\Users" 100 in
  let st' := RemoveWatchPath true st.1 st.2 "C:\Users" in
  m_watchedPaths st.1 = m_watchedPaths no_watches ++ ["C:\Users"%string] /\
  m_watchedPaths st'.1 = m_watchedPaths no_watches /\
  m_watchHandles st'.1 = m_watchHandles no_watches /\
  closed st'.1 = closed no_watches ∪ {[ 100 ]}.
Proof.
  intros w.
  apply (add_then_remove_watch true no_watches w "C:\Users" 100).
  - apply no_watches_consistent.
  - cbn. set_solver.
  - reflexivity.
  - discriminate.
Defined.
End WatchList.

(** ** Bounds on the entropy *)

Section EntropyBounds.
Import ThreatEngine.
Local Open Scope R_scope.

Lemma ln_le_minus_1 (y : R) : 0 < y -> ln y <= y - 1.
Proof.
  intros Hy. pose proof (exp_ineq1_le (ln y)) as H. rewrite exp_ln in H by done. lra.
Qed.

Lemma ln_monotone (x y : R) : 0 < x -> x <= y -> ln x <= ln y.
Proof.
  intros Hx [Hlt | ->]; [| lra]. left. by apply ln_increasing.
Qed.

Lemma ln_2_pos : 0 < ln 2.
Proof. pose proof ln_lt_2. lra. Qed.

Lemma entropy_term_nonneg (c : Z) (N : R) :
  0 < N -> IZR c <= N -> 0 <= Spec.entropy_term c N.
Proof.
  intros HN Hc. unfold Spec.entropy_term.
  destruct (Z.ltb_spec 0 c) as [Hpos | _]; [| lra].
  assert (Hp : 0 < IZR c / N) by (apply Rdiv_lt_0_compat; [by apply IZR_lt | done]).
  assert (Hp1 : IZR c / N <= 1).
  { apply (Rmult_le_reg_r N); [done |]. unfold Rdiv.
    rewrite Rmult_assoc, Rinv_l by lra. lra. }
  pose proof (ln_le_minus_1 _ Hp) as Hln. pose proof ln_2_pos as H2.
  unfold log2.
  assert (Hq : ln (IZR c / N) / ln 2 <= 0).
  { unfold Rdiv at 1. rewrite <- (Rmult_0_l (/ ln 2)).
    apply Rmult_le_compat_r; [left; by apply Rinv_0_lt_compat | lra]. }
  assert (0 <= IZR c / N * - (ln (IZR c / N) / ln 2)); [| lra].
  apply Rmult_le_pos; lra.
Qed.

(** One term of Gibbs' inequality. *)
Lemma entropy_term_gibbs (c : Z) (N n : R) :
  (0 < c)%Z -> 0 < N -> 0 < n ->
  Spec.entropy_term c N <= IZR c / N * log2 n + (1 / n - IZR c / N) / ln 2.
Proof.
  intros Hc HN Hn. unfold Spec.entropy_term.
  destruct (Z.ltb_spec 0 c) as [_ | ?]; [| lia].
  set (p := IZR c / N).
  assert (Hp : 0 < p) by (apply Rdiv_lt_0_compat; [by apply IZR_lt | done]).
  pose proof ln_2_pos as H2. unfold log2.
  assert (Hnp : 0 < / (n * p)) by (apply Rinv_0_lt_compat, Rmult_lt_0_compat; lra).
  pose proof (ln_le_minus_1 _ Hnp) as Hln.
  rewrite ln_Rinv, ln_mult in Hln by (done || apply Rmult_lt_0_compat; lra).
  assert (Hmul : p * (- (ln n + ln p)) <= p * (/ (n * p) - 1))
    by (apply Rmult_le_compat_l; lra).
  assert (Hinv : p * / (n * p) = 1 / n) by (field; lra).
  assert (Hmain : - (p * ln p) - p * ln n <= 1 / n - p) by nra.
  apply (Rmult_le_reg_r (ln 2)); [done |].
  replace ((p * (ln n / ln 2) + (1 / n - p) / ln 2) * ln 2)
    with (p * ln n + (1 / n - p)) by (field; lra).
  replace (- (p * (ln p / ln 2)) * ln 2) with (- (p * ln p)) by (field; lra).
  lra.
Qed.

Lemma entropy_sum_gibbs (m : list (byte * Z)) (N n : R) :
  0 < N -> 0 < n -> Forall (fun p => (0 < snd p)%Z) m ->
  Spec.Rsum (map (fun p => Spec.entropy_term (snd p) N) m)
  <= Spec.Rsum (map (fun p => IZR (snd p)) m) / N * log2 n
     + (INR (length m) / n - Spec.Rsum (map (fun p => IZR (snd p)) m) / N) / ln 2.
Proof.
  intros HN Hn. induction 1 as [| p m Hp _ IH].
  - simpl. unfold Rdiv. rewrite !Rmult_0_l. lra.
  - cbn [map Spec.Rsum fold_right length].
    fold (Spec.Rsum (map (fun p => Spec.entropy_term (snd p) N) m)).
    fold (Spec.Rsum (map (fun p => IZR (snd p)) m)).
    rewrite S_INR.
    pose proof (entropy_term_gibbs (snd p) N n Hp HN Hn) as Hterm.
    pose proof ln_2_pos as H2.
    set (S1 := Spec.Rsum (map (fun p => IZR (snd p)) m)) in *.
    replace ((IZR (snd p) + S1) / N * log2 n
             + ((INR (length m) + 1) / n - (IZR (snd p) + S1) / N) / ln 2)
      with ((IZR (snd p) / N * log2 n + (1 / n - IZR (snd p) / N) / ln 2)
            + (S1 / N * log2 n + (INR (length m) / n - S1 / N) / ln 2))
      by (field; lra).
    lra.
Qed.

Lemma entropy_sum_nonneg (m : list (byte * Z)) (N : R) :
  0 < N -> Forall (fun p => IZR (snd p) <= N) m ->
  0 <= Spec.Rsum (map (fun p => Spec.entropy_term (snd p) N) m).
Proof.
  intros HN. induction 1 as [| p m Hp _ IH]; [simpl; lra |].
  pose proof (entropy_term_nonneg (snd p) N HN Hp).
  cbn [map]. unfold Spec.Rsum in *. cbn [fold_right]. lra.
Qed.

(** *** What the frequency map holds *)

Lemma frequency_incr_counts (b : byte) (m : list (byte * Z)) :
  Forall (fun p => (0 < snd p)%Z) m ->
  Forall (fun p => (0 < snd p)%Z) (frequency_incr b m) /\
  Spec.Rsum (map (fun p => IZR (snd p)) (frequency_incr b m))
  = Spec.Rsum (map (fun p => IZR (snd p)) m) + 1 /\
  (length (frequency_incr b m) <= S (length m))%nat.
Proof.
  induction 1 as [| [k c] m Hp Hm IH].
  - simpl. split; [repeat constructor |]. split; [lra | lia].
  - cbn [frequency_incr].
    destruct (char_value b <? char_value k)%Z.
    + split; [repeat constructor; done |]. split; [simpl; lra | simpl; lia].
    + destruct (char_value b =? char_value k)%Z.
      * split; [constructor; [simpl in *; lia | done] |].
        split; [simpl; rewrite plus_IZR; lra | simpl; lia].
      * destruct IH as (IH1 & IH2 & IH3).
        split; [by constructor |].
        split; [| simpl; lia].
        cbn [map Spec.Rsum fold_right] in *. unfold Spec.Rsum in IH2.
        rewrite IH2. lra.
Qed.

Lemma frequency_fold_counts (data : list byte) (m : list (byte * Z)) :
  Forall (fun p => (0 < snd p)%Z) m ->
  let m' := fold_left (fun m b => frequency_incr b m) data m in
  Forall (fun p => (0 < snd p)%Z) m' /\
  Spec.Rsum (map (fun p => IZR (snd p)) m')
  = Spec.Rsum (map (fun p => IZR (snd p)) m) + INR (length data) /\
  (length m' <= length m + length data)%nat.
Proof.
  revert m. induction data as [| b data IH]; intros m Hm.
  - simpl. split; [done |]. split; [lra | lia].
  - cbn [fold_left length]. rewrite S_INR.
    destruct (frequency_incr_counts b m Hm) as (H1 & H2 & H3).
    destruct (IH _ H1) as (I1 & I2 & I3). cbv zeta in *.
    split; [done |]. split; [rewrite I2, H2; lra | lia].
Qed.

Lemma char_value_range (b : byte) : (-128 <= char_value b <= 127)%Z.
Proof.
  unfold char_value. pose proof (Byte.to_N_bounded b).
  destruct (Z.ltb_spec (Z.of_N (Byte.to_N b)) 128); lia.
Qed.

Lemma frequency_sorted_length (m : list (byte * Z)) :
  frequency_sorted m ->
  forall lo, (lo <= 127)%Z -> keys_above lo m -> (Z.of_nat (length m) <= 127 - lo)%Z.
Proof.
  induction 1 as [| k c rest Habove Hsorted IH]; intros lo Hlo Hkeys.
  - simpl. lia.
  - apply Forall_cons in Hkeys as [Hk Hrest]. simpl in Hk.
    pose proof (char_value_range k).
    specialize (IH (char_value k) ltac:(lia) Habove).
    cbn [length]. lia.
Qed.

Lemma count_le_sum (m : list (byte * Z)) :
  Forall (fun p => (0 < snd p)%Z) m ->
  0 <= Spec.Rsum (map (fun p => IZR (snd p)) m) /\
  Forall (fun p => IZR (snd p) <= Spec.Rsum (map (fun p => IZR (snd p)) m)) m.
Proof.
  induction 1 as [| p m Hp _ [IH0 IH]].
  - split; [simpl; lra | constructor].
  - cbn [map]. unfold Spec.Rsum in *. cbn [fold_right].
    assert (0 < IZR (snd p)) by (by apply IZR_lt).
    split; [lra |]. constructor; [lra |].
    eapply Forall_impl; [exact IH |]. cbv beta. intros q Hq. lra.
Qed.

(** The entropy of a non-empty buffer as a sum over the entries of the
    frequency map, and what these entries are. *)
Lemma CalculateEntropy_sum (x : byte) (data : list byte) :
  let d := x :: data in
  let m := frequency d in
  let N := INR (length d) in
  0 < N /\
  CalculateEntropy d = Spec.Rsum (map (fun p => Spec.entropy_term (snd p) N) m) /\
  Forall (fun p => (0 < snd p)%Z) m /\
  Spec.Rsum (map (fun p => IZR (snd p)) m) = N /\
  (1 <= length m <= length d)%nat /\
  (length m <= 256)%nat.
Proof.
  intros d m N.
  assert (HN : 0 < N) by (apply lt_0_INR; simpl; lia).
  destruct (frequency_fold_counts d [] (Forall_nil_2 _)) as (Hpos & Hsum & Hlen).
  fold (frequency d) in Hpos, Hsum, Hlen. fold m in Hpos, Hsum, Hlen.
  cbn [map Spec.Rsum fold_right length] in Hsum, Hlen. rewrite Rplus_0_l in Hsum.
  fold N in Hsum.
  split; [done |]. split; [| split; [done |]; split; [done |]; split].
  - unfold CalculateEntropy. fold d. unfold d at 1.
    replace (IZR (vsize d)) with N by (unfold N, vsize; apply INR_IZR_INZ).
    rewrite entropy_fold by done. apply Rplus_0_l.
  - split; [| lia].
    destruct m as [| p m']; [| simpl; lia]. simpl in Hsum. lra.
  - destruct (frequency_counts d) as [Hsorted _]. fold m in Hsorted.
    assert (Hkeys : keys_above (-129) m).
    { apply Forall_forall. intros p _. pose proof (char_value_range (fst p)). lia. }
    pose proof (frequency_sorted_length m Hsorted (-129)%Z ltac:(lia) Hkeys). lia.
Qed.

Lemma CalculateEntropy_le_log2 (x : byte) (data : list byte) :
  CalculateEntropy (x :: data) <= log2 (INR (length (frequency (x :: data)))).
Proof.
  destruct (CalculateEntropy_sum x data) as (HN & -> & Hpos & Hsum & [Hlen1 _] & _).
  set (d := x :: data) in *. set (m := frequency d) in *.
  set (N := INR (length d)) in *.
  assert (Hn : 0 < INR (length m)) by (apply lt_0_INR; lia).
  pose proof (entropy_sum_gibbs m N (INR (length m)) HN Hn Hpos) as Hg.
  rewrite Hsum in Hg. pose proof ln_2_pos.
  replace (N / N * log2 (INR (length m))
           + (INR (length m) / INR (length m) - N / N) / ln 2)
    with (log2 (INR (length m))) in Hg by (field; lra).
  exact Hg.
Qed.

Lemma log2_le (k bound : nat) (e : R) :
  (1 <= k <= bound)%nat -> ln (INR bound) <= e * ln 2 -> log2 (INR k) <= e.
Proof.
  intros Hk Hb. unfold log2. pose proof ln_2_pos as H2.
  assert (Hln : ln (INR k) <= ln (INR bound)).
  { apply ln_monotone; [apply lt_0_INR; lia | apply le_INR; lia]. }
  apply (Rmult_le_reg_r (ln 2)); [done |].
  unfold Rdiv. rewrite Rmult_assoc, Rinv_l by lra. lra.
Qed.

Lemma frequency_incr_total (b : byte) (m : list (byte * Z)) :
  (fold_right Z.add 0 (map snd (frequency_incr b m))
   = fold_right Z.add 0 (map snd m) + 1)%Z.
Proof.
  induction m as [| [k c] m IH]; [done |]. cbn [frequency_incr].
  destruct (char_value b <? char_value k)%Z; [simpl; lia |].
  destruct (char_value b =? char_value k)%Z; [simpl; lia |].
  cbn [map fold_right snd] in *. lia.
Qed.

Lemma frequency_fold_total (data : list byte) (m : list (byte * Z)) :
  (fold_right Z.add 0
     (map snd (fold_left (fun m b => frequency_incr b m) data m))
   = fold_right Z.add 0 (map snd m) + vsize data)%Z.
Proof.
  revert m. induction data as [| b data IH]; intros m.
  - unfold vsize. simpl. lia.
  - cbn [fold_left]. rewrite IH, frequency_incr_total. unfold vsize. simpl. lia.
Qed.

(** X1.  The counting loop of [CalculateEntropy] builds a map that is
    ordered by the signed value of its keys and holds, for every byte
    value, the number of times the value occurs in the buffer (0 for a
    value that has no entry).  Every entry has a positive count, the
    counts add up to the size of the buffer, and there are at most 256
    entries and at most one per byte of the buffer. *)
Theorem frequency_counts_occurrences (data : list byte) :
  frequency_sorted (frequency data) /\
  (forall b, frequency_get b (frequency data) = Spec.occurrences b data) /\
  Forall (fun p => (0 < snd p)%Z) (frequency data) /\
  fold_right Z.add 0%Z (map snd (frequency data)) = vsize data /\
  (length (frequency data) <= length data)%nat /\
  (length (frequency data) <= 256)%nat.
Proof.
  destruct (frequency_counts data) as [Hsorted Hget].
  destruct (frequency_fold_counts data [] (Forall_nil_2 _)) as (Hpos & _ & Hlen).
  fold (frequency data) in Hpos, Hlen.
  split; [done |]. split; [done |]. split; [done |].
  split; [apply (frequency_fold_total data []) |].
  split; [simpl in Hlen; lia |].
  assert (Hkeys : keys_above (-129) (frequency data)).
  { apply Forall_forall. intros p _. pose proof (char_value_range (fst p)). lia. }
  pose proof (frequency_sorted_length _ Hsorted (-129)%Z ltac:(lia) Hkeys). lia.
Qed.

(** With at most 181 distinct byte values the entropy sum is at most
    log2 181 < 7.4999, so the second rule does not fire. *)
Lemma few_byte_values_entropy (data : list byte) :
  (length (frequency data) <= 181)%nat -> ~ 15 / 2 < CalculateEntropy data.
Proof.
  intros Hfew Hhigh. destruct data as [| x data]; [simpl in Hhigh; lra |].
  pose proof (CalculateEntropy_le_log2 x data) as Hlog.
  destruct (CalculateEntropy_sum x data) as (_ & _ & _ & _ & [Hlen1 _] & _).
  cbv zeta in *.
  assert (Hb : log2 (INR (length (frequency (x :: data)))) <= 15 / 2); [| lra].
  apply (log2_le _ 181); [lia |].
  assert (H2 : 2 * ln (INR 181) <= 15 * ln 2); [| lra].
  replace (2 * ln (INR 181)) with (ln (INR 181 ^ 2))
    by (rewrite ln_pow by (apply lt_0_INR; lia); simpl; lra).
  replace (15 * ln 2) with (ln (2 ^ 15)) by (rewrite ln_pow by lra; simpl; lra).
  apply ln_monotone.
  - apply pow_lt, lt_0_INR. lia.
  - rewrite INR_IZR_INZ, !pow_IZR. apply IZR_le. vm_compute. discriminate.
Qed.

(** X13.  A buffer with at most 181 distinct byte values, so in
    particular every buffer of at most 181 bytes, never gets the
    high-entropy verdict: the heuristic pass then reduces to the
    tiny-executable rule followed by the suspicious-strings rule. *)
Theorem few_byte_values_never_high_entropy (data : list byte)
    (filePath : string) (threat : ThreatInfo) :
  (length (frequency data) <= 181)%nat ->
  ScanWithHeuristics data filePath threat
  = if isExecutable (wstring_lower (path_extension filePath))
       && (vsize data <? 1024)%Z
    then (true, set_threat threat "Heuristic.Suspicious.TinyExecutable" 6)
    else if ContainsSuspiciousStrings data
         then (true, set_threat threat "Heuristic.Suspicious.Strings" 5)
         else (false, threat).
Proof.
  intros Hfew. unfold ScanWithHeuristics. cbv zeta.
  destruct (isExecutable _ && _); [done |].
  destruct (Rlt_dec (15 / 2) (CalculateEntropy data)) as [Hhigh | _]; [| done].
  exfalso. by apply (few_byte_values_entropy data Hfew).
Qed.

(** A short script: eleven bytes, eight distinct values. *)
Lemma few_byte_values_never_high_entropy_witness :
  ScanWithHeuristics (list_byte_of_string "hello world") "C:\w\note.txt" empty_threat
  = if isExecutable (wstring_lower (path_extension "C:\w\note.txt"))
       && (vsize (list_byte_of_string "hello world") <? 1024)%Z
    then (true, set_threat empty_threat "Heuristic.Suspicious.TinyExecutable" 6)
    else if ContainsSuspiciousStrings (list_byte_of_string "hello world")
         then (true, set_threat empty_threat "Heuristic.Suspicious.Strings" 5)
         else (false, empty_threat).
Proof.
  apply (few_byte_values_never_high_entropy
           (list_byte_of_string "hello world") "C:\w\note.txt" empty_threat).
  vm_compute. lia.
Defined.
(** X12.  The two passes over a buffer, wherever the verdict does not
    depend on the entropy sum.  A threat found by the signature pass is
    the verdict and no heuristic rule is tried; with no signature match
    and heuristics disabled the verdict is Clean; with no signature
    match and heuristics enabled, a tiny executable (extension in
    {exe, dll, scr, com} and fewer than 1024 bytes) gets severity 6
    whatever else the buffer holds, and a buffer that is not a tiny
    executable and has at most 181 distinct byte values gets severity 5
    when a word of the fixed list occurs in it, ignoring case, and is
    Clean otherwise. *)
Theorem scan_buffer_rule_order (e : Engine) (w : World) (path : string)
    (size : Z) (buffer : list byte) (threat : ThreatInfo) :
  let signature_pass := ScanWithSignatures (m_signatures e) buffer threat in
  let result := fst (scan_buffer e w path size buffer threat) in
  let verdict := (fst result, threat_name (snd result), threat_level (snd result)) in
  (fst signature_pass = true ->
   verdict = (true, threat_name (snd signature_pass),
              threat_level (snd signature_pass))) /\
  (fst signature_pass = false -> m_heuristicsEnabled e = false ->
   fst result = false) /\
  (fst signature_pass = false -> m_heuristicsEnabled e = true ->
   (Spec.tiny_executable path buffer ->
    verdict = (true, "Heuristic.Suspicious.TinyExecutable"%string, 6%Z)) /\
   (~ Spec.tiny_executable path buffer ->
    (length (frequency buffer) <= 181)%nat ->
    Spec.suspicious_strings buffer ->
    verdict = (true, "Heuristic.Suspicious.Strings"%string, 5%Z)) /\
   (~ Spec.tiny_executable path buffer ->
    (length (frequency buffer) <= 181)%nat ->
    ~ Spec.suspicious_strings buffer ->
    fst result = false)).
Proof.
  intros signature_pass result verdict. subst signature_pass result verdict.
  unfold scan_buffer.
  destruct (ScanWithSignatures (m_signatures e) buffer threat) as [found t1].
  cbn [fst snd]. destruct found.
  - split; [done |]. split; intros; discriminate.
  - split; [intros; discriminate |].
    destruct (m_heuristicsEnabled e).
    2: { split; [done | intros; discriminate]. }
    split; [intros; discriminate |]. intros _ _.
    pose proof (tiny_executable_spec path buffer) as Htiny.
    pose proof (ContainsSuspiciousStrings_spec buffer) as Hstr.
    split; [| split].
    + intros Ht. apply Htiny in Ht.
      unfold ScanWithHeuristics. cbv zeta. by rewrite Ht.
    + intros Hnt Hfew Hs. apply Hstr in Hs.
      unfold ScanWithHeuristics. cbv zeta.
      destruct (isExecutable _ && _); [by destruct Hnt; apply Htiny |].
      destruct (Rlt_dec (15 / 2) (CalculateEntropy buffer)) as [Hhigh | _];
        [by destruct (few_byte_values_entropy buffer Hfew) |].
      by rewrite Hs.
    + intros Hnt Hfew Hns.
      unfold ScanWithHeuristics. cbv zeta.
      destruct (isExecutable _ && _); [by destruct Hnt; apply Htiny |].
      destruct (Rlt_dec (15 / 2) (CalculateEntropy buffer)) as [Hhigh | _];
        [by destruct (few_byte_values_entropy buffer Hfew) |].
      destruct (ContainsSuspiciousStrings buffer); [by destruct Hns; apply Hstr | done].
Qed.
End EntropyBounds.

(** ** What a scan leaves behind *)

Section ScanFrame.
Import Scanner.

(** [ThreatEngine::ScanFile] writes nothing but log lines, and a positive
    verdict names the file that was scanned and its size. *)
Lemma engine_ScanFile_frame (e : ThreatEngine.Engine) (w : World) (path : string)
    (threat : ThreatEngine.ThreatInfo) :
  let '(found, t, w1) := ThreatEngine.ScanFile e w path threat in
  files w1 = files w /\ directories w1 = directories w /\
  open_denied w1 = open_denied w /\
  (found = true ->
   ThreatEngine.file_path t = path /\
   exists content, files w !! path = Some content /\
                   ThreatEngine.file_size t = vsize content).
Proof.
  unfold ThreatEngine.ScanFile.
  destruct (ThreatEngine.m_initialized e); cbn [negb]; [| by repeat split].
  unfold Utils.FileExists, Utils.GetFileSize.
  destruct (files w !! path) as [content |] eqn:Hfile; cbn [negb];
    [| by repeat split].
  destruct (vsize content =? 0); [by repeat split |].
  destruct (ThreatEngine.MAX_SCAN_SIZE <? vsize content).
  { unfold log_if. destruct (ThreatEngine.m_logger e); by repeat split. }
  destruct (open_denied w path); [by repeat split |].
  unfold ThreatEngine.scan_buffer.
  destruct (ThreatEngine.ScanWithSignatures _ _ _) as [found threat1].
  destruct found.
  { unfold log_if. destruct (ThreatEngine.m_logger e);
      (repeat split; try done); by exists content. }
  destruct (ThreatEngine.m_heuristicsEnabled e); [| by repeat split].
  destruct (ThreatEngine.ScanWithHeuristics _ _ _) as [hfound threat3].
  destruct hfound; [| by repeat split].
  unfold log_if. destruct (ThreatEngine.m_logger e);
    (repeat split; try done); by exists content.
Qed.

Lemma wrap64_add_wrap64 (a b c : Z) :
  wrap64 (wrap64 (a + b) + c) = wrap64 (a + (b + c)).
Proof.
  unfold wrap64. rewrite Zplus_mod_idemp_l. f_equal. lia.
Qed.

Lemma ShouldScanFile_ext (s s' : Scanner) (w w' : World) (path : string) :
  m_options s' = m_options s -> files w' = files w ->
  ShouldScanFile s' w' path = ShouldScanFile s w path.
Proof.
  intros Ho Hf. unfold ShouldScanFile, IsAllowedExtension, IsExcludedPath,
    Utils.GetFileSize. by rewrite Ho, Hf.
Qed.

Lemma reported_ok_ext (s s' : Scanner) (w w' : World) t :
  m_options s' = m_options s -> files w' = files w ->
  reported_ok s' w' t -> reported_ok s w t.
Proof.
  intros Ho Hf [Hshould (content & Hc & Hsize)]. split.
  - by rewrite <- (ShouldScanFile_ext s s' w w').
  - exists content. by rewrite <- Hf.
Qed.

Lemma no_new_threats (s s' : Scanner) (threats : list ThreatEngine.ThreatInfo)
    (w : World) :
  threat_calls s' = threat_calls s ->
  threatsFound (m_statistics s') = threatsFound (m_statistics s) ->
  exists new,
    threats = threats ++ new /\
    threat_calls s' = threat_calls s ++ (if m_threatCallback s then new else []) /\
    threatsFound (m_statistics s')
    = match new with
      | [] => threatsFound (m_statistics s)
      | _ :: _ => wrap64 (threatsFound (m_statistics s) + vsize new)
      end /\
    Forall (reported_ok s w) new.
Proof.
  intros Hcalls Hfound. exists []. split; [by rewrite app_nil_r |].
  split; [| by split].
  rewrite Hcalls. destruct (m_threatCallback s); by rewrite app_nil_r.
Qed.

Lemma scan_extends_refl s w threats : scan_extends s w threats s w threats.
Proof. constructor; try done. by apply no_new_threats. Qed.

Lemma scan_extends_trans s1 w1 t1 s2 w2 t2 s3 w3 t3 :
  scan_extends s1 w1 t1 s2 w2 t2 -> scan_extends s2 w2 t2 s3 w3 t3 ->
  scan_extends s1 w1 t1 s3 w3 t3.
Proof.
  intros [Hf1 Hd1 Ho1 Hopt1 Hc1 He1 Ht1 Hl1 (new1 & -> & Hcalls1 & Hfound1 & Hok1)]
         [Hf2 Hd2 Ho2 Hopt2 Hc2 He2 Ht2 Hl2 (new2 & -> & Hcalls2 & Hfound2 & Hok2)].
  constructor; try congruence.
  exists (new1 ++ new2). split; [by rewrite app_assoc |]. split; [| split].
  - rewrite Hcalls2, Hcalls1, Ht1.
    destruct (m_threatCallback s1); by rewrite <- app_assoc, ?app_nil_r.
  - rewrite Hfound2, Hfound1.
    destruct new1 as [| a new1]; [done |].
    destruct new2 as [| b new2]; [by rewrite app_nil_r |].
    cbn [app]. rewrite wrap64_add_wrap64. f_equal. unfold vsize.
    cbn [length]. rewrite length_app. cbn [length]. lia.
  - apply Forall_app. split; [done |].
    eapply Forall_impl; [exact Hok2 |]. intros t. by apply reported_ok_ext.
Qed.

Lemma scan_extends_statistics s w threats (st : ScanStatistics) :
  threatsFound st = threatsFound (m_statistics s) ->
  scan_extends s w threats (with_statistics s st) w threats.
Proof.
  intros Hst. constructor; try done. by apply no_new_threats.
Qed.

Lemma scan_extends_log s w threats logger lvl fmt args :
  scan_extends s w threats s (log_if logger lvl fmt args w) threats.
Proof.
  constructor; try (unfold log_if; by destruct logger).
  by apply no_new_threats.
Qed.

Lemma threatsFound_UpdateProgress (st : ScanStatistics) :
  threatsFound (UpdateProgress st) = threatsFound st.
Proof.
  unfold UpdateProgress. destruct (0 <? totalFiles st); cbn;
    by destruct (100 <? _).
Qed.

(** The handler of [ScanSingleFile] counts and logs; it finds nothing. *)
Lemma scan_failed_extends (s : Scanner) (w : World) (path what : string)
    (threats : list ThreatEngine.ThreatInfo) :
  let '(_, s', w', threats') := scan_failed s w path what threats in
  scan_extends s w threats s' w' threats'.
Proof.
  unfold scan_failed.
  apply (scan_extends_trans _ _ _
           (with_statistics s (incr_skipped (m_statistics s))) w threats);
    [by apply scan_extends_statistics | apply scan_extends_log].
Qed.

Lemma ScanSingleFile_extends (s : Scanner) (e : ThreatEngine.Engine) (w : World)
    (path : string) (threats : list ThreatEngine.ThreatInfo) :
  let '(_, s', w', threats') := ScanSingleFile s e w path threats in
  scan_extends s w threats s' w' threats'.
Proof.
  unfold ScanSingleFile.
  destruct (m_cancelRequested s); [apply scan_extends_refl |].
  destruct (ShouldScanFile s w path) eqn:Hshould; cbn [negb];
    [| by apply scan_extends_statistics].
  set (s1 := if m_progressCallback s then _ else s).
  assert (Hs1 : scan_extends s w threats s1 w threats).
  { subst s1. destruct (m_progressCallback s); [| apply scan_extends_refl].
    constructor; try done. apply no_new_threats; [done |].
    cbn. apply threatsFound_UpdateProgress. }
  assert (He1 : m_threatEngine s1 = m_threatEngine s) by apply Hs1.
  destruct (if m_progressCallback s then progress_throws s1 (progress_calls s1)
            else None) as [what |].
  { clearbody s1. eapply scan_extends_trans; [exact Hs1 |].
    apply scan_failed_extends. }
  pose proof (engine_ScanFile_frame e w path ThreatEngine.empty_threat) as Hengine.
  destruct (ThreatEngine.ScanFile e w path ThreatEngine.empty_threat)
    as [[found t] w1'].
  set (r := if m_threatEngine s1 then _ else _).
  assert (Hr : let '(isThreat, threat, w1) := r in
               files w1 = files w /\ directories w1 = directories w /\
               open_denied w1 = open_denied w /\
               (isThreat = true ->
                ThreatEngine.file_path threat = path /\
                exists content, files w !! path = Some content /\
                                ThreatEngine.file_size threat = vsize content)).
  { subst r. destruct (m_threatEngine s1); [exact Hengine | by repeat split]. }
  clearbody r. destruct r as [[isThreat threat] w1].
  destruct Hr as (Hf & Hd & Ho & Hthreat).
  clearbody s1.
  destruct isThreat; cbv beta iota zeta.
  - destruct (Hthreat eq_refl) as (Hpath & content & Hc & Hsize).
    assert (Hok : reported_ok s1 w threat).
    { split.
      - rewrite Hpath.
        by rewrite (ShouldScanFile_ext s s1 w w path (se_options _ _ _ _ _ _ Hs1) eq_refl).
      - exists content. by rewrite Hpath. }
    set (s2 := with_statistics s1 _).
    set (s3 := if m_threatCallback s2 then _ else s2).
    assert (Hs3 : scan_extends s1 w threats s3 w1 (threats ++ [threat])).
    { subst s3 s2. cbn [m_threatCallback with_statistics].
      destruct (m_threatCallback s1) eqn:Hcb.
      + constructor; try done. exists [threat].
        split; [done |]. split; [by rewrite Hcb |]. split; [| by constructor].
        cbn. f_equal.
      + constructor; try done. exists [threat].
        split; [done |]. split; [by rewrite Hcb, app_nil_r |].
        split; [| by constructor]. cbn. f_equal. }
    clearbody s3.
    destruct (if m_threatCallback s2 then threat_throws s3 (threat_calls s3)
              else None) as [what |].
    + eapply scan_extends_trans; [exact Hs1 |].
      eapply scan_extends_trans; [exact Hs3 |].
      apply scan_failed_extends.
    + eapply scan_extends_trans; [exact Hs1 | exact Hs3].
  - eapply scan_extends_trans; [exact Hs1 |].
    constructor; try done. by apply no_new_threats.
Qed.

Lemma ScanDirectoryRecursive_loop_extends (entries : list string) (s : Scanner)
    (e : ThreatEngine.Engine) (w : World) (threats : list ThreatEngine.ThreatInfo) :
  let '(s', w', threats') := ScanDirectoryRecursive_loop entries s e w threats in
  scan_extends s w threats s' w' threats'.
Proof.
  revert s w threats. induction entries as [| path rest IH]; intros s w threats.
  - apply scan_extends_refl.
  - cbn [ScanDirectoryRecursive_loop].
    destruct (m_cancelRequested s); [apply scan_extends_refl |].
    set (s1 := with_statistics s _).
    assert (Hs1 : scan_extends s w threats s1 w threats)
      by (by apply scan_extends_statistics).
    clearbody s1.
    pose proof (ScanSingleFile_extends s1 e w path threats) as Hsingle.
    destruct (ScanSingleFile s1 e w path threats) as [[[result s2] w2] threats2].
    specialize (IH s2 w2 threats2).
    destruct (ScanDirectoryRecursive_loop rest s2 e w2 threats2) as [[s3 w3] threats3].
    eauto using scan_extends_trans.
Qed.

Lemma ScanPath_extends (s : Scanner) (e : ThreatEngine.Engine) (w : World)
    (path : string) (threats : list ThreatEngine.ThreatInfo) :
  let '(_, s', w', threats') := ScanPath s e w path threats in
  scan_extends s w threats s' w' threats'.
Proof.
  unfold ScanPath.
  destruct (negb (Utils.FileExists w path) && negb (Utils.DirectoryExists w path));
    [apply scan_extends_log |].
  destruct (IsExcludedPath s path); [apply scan_extends_log |].
  destruct (Utils.FileExists w path); [apply ScanSingleFile_extends |].
  destruct (Utils.DirectoryExists w path); [| apply scan_extends_refl].
  unfold ScanDirectoryRecursive.
  pose proof (ScanDirectoryRecursive_loop_extends
                (default [] (directories w !! path)) s e w threats) as Hloop.
  by destruct (ScanDirectoryRecursive_loop _ s e w threats) as [[s1 w1] threats1].
Qed.

Lemma CustomScan_loop_extends (paths : list string) (final : ScanResult)
    (s : Scanner) (e : ThreatEngine.Engine) (w : World)
    (threats : list ThreatEngine.ThreatInfo) :
  let '(_, s', w', threats') := CustomScan_loop paths final s e w threats in
  scan_extends s w threats s' w' threats'.
Proof.
  revert final s w threats.
  induction paths as [| path rest IH]; intros final s w threats.
  - apply scan_extends_refl.
  - cbn [CustomScan_loop].
    destruct (m_cancelRequested s); [apply scan_extends_refl |].
    pose proof (ScanPath_extends s e w path threats) as Hpath.
    destruct (ScanPath s e w path threats) as [[[result s1] w1] threats1].
    match goal with |- context [CustomScan_loop rest ?f _ _ _ _] =>
      specialize (IH f s1 w1 threats1);
      destruct (CustomScan_loop rest f s1 e w1 threats1) as [[[r2 s2] w2] threats2]
    end.
    eauto using scan_extends_trans.
Qed.

(** X14.  A custom scan changes no file and no directory and leaves the
    scanner's options alone.  The threats it finds are appended to the
    caller's vector; the threat callback, when set, has been called once
    for each of them, in the same order; [threatsFound] is their number
    (modulo 2^64); and each names an existing regular file that passes
    the scanner's filters, with that file's size. *)
Theorem CustomScan_threat_accounting (s : Scanner) (e : ThreatEngine.Engine)
    (w : World) (paths : list string) (threats : list ThreatEngine.ThreatInfo)
    (now : Z) :
  let '(_, s', w', threats') := CustomScan s e w paths threats now in
  files w' = files w /\ directories w' = directories w /\
  m_options s' = m_options s /\
  exists new,
    threats' = threats ++ new /\
    threat_calls s' = threat_calls s ++ (if m_threatCallback s then new else []) /\
    threatsFound (m_statistics s') = wrap64 (vsize new) /\
    Forall (reported_ok s w) new.
Proof.
  unfold CustomScan.
  set (w0 := log_if _ _ _ _ w). set (s0 := ResetStatistics s now).
  pose proof (CustomScan_loop_extends paths Success s0 e w0 threats) as Hloop.
  destruct (CustomScan_loop paths Success s0 e w0 threats)
    as [[[result s1] w1] threats1].
  destruct Hloop as [Hf Hd _ Hopt _ _ _ _ (new & Hnew & Hcalls & Hfound & Hok)].
  assert (Hw0 : files w0 = files w /\ directories w0 = directories w)
    by (subst w0; unfold log_if; by destruct (m_logger s)).
  destruct Hw0 as [Hf0 Hd0].
  split; [| split; [| split]].
  - unfold log_if. destruct (m_logger s); cbn; congruence.
  - unfold log_if. destruct (m_logger s); cbn; congruence.
  - exact Hopt.
  - exists new. split; [done |]. split; [exact Hcalls |]. split.
    + cbn. rewrite Hfound. destruct new; [done |]. cbn [m_statistics]. done.
    + eapply Forall_impl; [exact Hok |]. intros t.
      by apply reported_ok_ext.
Qed.

Lemma forallb_pointwise {A} (f g : A -> bool) (l : list A) :
  (forall x, f x = g x) -> forallb f l = forallb g l.
Proof. intros Hfg. induction l as [| x l IH]; simpl; [done | by rewrite Hfg, IH]. Qed.

Lemma same_callbacks_refl (s : Scanner) : same_callbacks s s.
Proof. by repeat split. Qed.

Lemma same_callbacks_trans (s1 s2 s3 : Scanner) :
  same_callbacks s1 s2 -> same_callbacks s2 s3 -> same_callbacks s1 s3.
Proof.
  intros (H1 & H2 & H3 & H4) (G1 & G2 & G3 & G4).
  repeat split; congruence.
Qed.

Lemma callbacks_return_same (s s' : Scanner) :
  same_callbacks s s' ->
  (progress_callback_returns s -> progress_callback_returns s') /\
  (threat_callback_returns s -> threat_callback_returns s').
Proof.
  intros (H1 & H2 & H3 & H4).
  unfold progress_callback_returns, threat_callback_returns.
  rewrite H1, H2, H3, H4. done.
Qed.

Lemma ScanDirectoryRecursive_loop_callbacks (entries : list string) (s : Scanner)
    (e : ThreatEngine.Engine) (w : World) (threats : list ThreatEngine.ThreatInfo) :
  same_callbacks s (ScanDirectoryRecursive_loop entries s e w threats).1.1.
Proof.
  revert s w threats. induction entries as [| path rest IH]; intros s w threats.
  - apply same_callbacks_refl.
  - cbn [ScanDirectoryRecursive_loop].
    destruct (m_cancelRequested s); [apply same_callbacks_refl |].
    set (s1 := with_statistics s _).
    pose proof (ScanSingleFile_callbacks s1 e w path threats) as Hsingle.
    destruct (ScanSingleFile s1 e w path threats) as [[[result s2] w2] threats2].
    cbn [fst snd] in Hsingle.
    eapply same_callbacks_trans; [| apply IH].
    eapply same_callbacks_trans; [| exact Hsingle]. by repeat split.
Qed.

Lemma ScanPath_callbacks (s : Scanner) (e : ThreatEngine.Engine) (w : World)
    (path : string) (threats : list ThreatEngine.ThreatInfo) :
  same_callbacks s (ScanPath s e w path threats).1.1.2.
Proof.
  unfold ScanPath.
  destruct (negb (Utils.FileExists w path) && negb (Utils.DirectoryExists w path));
    [apply same_callbacks_refl |].
  destruct (IsExcludedPath s path); [apply same_callbacks_refl |].
  destruct (Utils.FileExists w path); [apply ScanSingleFile_callbacks |].
  destruct (Utils.DirectoryExists w path); [| apply same_callbacks_refl].
  pose proof (ScanDirectoryRecursive_loop_callbacks
                (default [] (directories w !! path)) s e w threats) as Hdir.
  unfold ScanDirectoryRecursive.
  by destruct (ScanDirectoryRecursive_loop _ s e w threats) as [[s1 w1] threats1].
Qed.

(** With callbacks that return, a file that is scanned or skipped gives
    [Success]. *)
Lemma ScanSingleFile_result (s : Scanner) (e : ThreatEngine.Engine) (w : World)
    (path : string) (threats : list ThreatEngine.ThreatInfo) :
  m_cancelRequested s = false ->
  progress_callback_returns s -> threat_callback_returns s ->
  (ScanSingleFile s e w path threats).1.1.1 = Success.
Proof.
  intros Hrun Hprogress Hthreat. unfold ScanSingleFile. rewrite Hrun.
  destruct (negb (ShouldScanFile s w path)); [done |].
  set (s1 := if m_progressCallback s then _ else s).
  assert (Hs1 : same_callbacks s s1).
  { subst s1. destruct (m_progressCallback s) eqn:Hp; [| apply same_callbacks_refl].
    by repeat split. }
  destruct Hs1 as (_ & Hcb1 & Hpt1 & Hth1).
  assert (Hnone : (if m_progressCallback s then progress_throws s1 (progress_calls s1)
                   else None) = None).
  { destruct (m_progressCallback s) eqn:Hp; [| done].
    rewrite Hpt1. by apply Hprogress. }
  rewrite Hnone. clearbody s1.
  destruct (if m_threatEngine _ then _ else _) as [[isThreat threat] w1].
  destruct isThreat; [| done].
  cbn [m_threatCallback with_statistics]. rewrite Hcb1.
  destruct (m_threatCallback s) eqn:Hcb; [| done].
  cbn [threat_throws with_threat_calls with_statistics]. rewrite Hth1.
  by rewrite (Hthreat Hcb).
Qed.

Lemma ScanPath_result (s : Scanner) (e : ThreatEngine.Engine) (w : World)
    (path : string) (threats : list ThreatEngine.ThreatInfo) :
  m_cancelRequested s = false ->
  progress_callback_returns s -> threat_callback_returns s ->
  (ScanPath s e w path threats).1.1.1
  = if Utils.FileExists w path || Utils.DirectoryExists w path
    then Success else Failed.
Proof.
  intros Hrun Hprogress Hthreat. unfold ScanPath.
  destruct (Utils.FileExists w path) eqn:Hfile; cbn [negb andb orb].
  - destruct (IsExcludedPath s path); [done |].
    by apply ScanSingleFile_result.
  - destruct (Utils.DirectoryExists w path); cbn [negb]; [| done].
    destruct (IsExcludedPath s path); [done |].
    by destruct (ScanDirectoryRecursive s e w path threats) as [[s1 w1] threats1].
Qed.

Lemma CustomScan_loop_result (paths : list string) (final : ScanResult)
    (s : Scanner) (e : ThreatEngine.Engine) (w : World)
    (threats : list ThreatEngine.ThreatInfo) :
  m_cancelRequested s = false ->
  progress_callback_returns s -> threat_callback_returns s ->
  (CustomScan_loop paths final s e w threats).1.1.1
  = match final with
    | Success =>
        if forallb (fun p => Utils.FileExists w p || Utils.DirectoryExists w p) paths
        then Success else Failed
    | _ => final
    end.
Proof.
  revert final s w threats.
  induction paths as [| path rest IH]; intros final s w threats Hrun Hprogress Hthreat.
  - by destruct final.
  - cbn [CustomScan_loop forallb]. rewrite Hrun.
    pose proof (ScanPath_result s e w path threats Hrun Hprogress Hthreat) as Hres.
    pose proof (ScanPath_extends s e w path threats) as Hext.
    pose proof (ScanPath_callbacks s e w path threats) as Hsame.
    destruct (ScanPath s e w path threats) as [[[result s1] w1] threats1].
    cbn [fst snd] in Hres, Hsame. destruct Hext as [Hf Hd _ _ Hc _ _ _ _].
    apply callbacks_return_same in Hsame as [Hp1 Ht1].
    rewrite IH by (congruence || auto).
    assert (Hsame : forallb (fun p => Utils.FileExists w1 p || Utils.DirectoryExists w1 p) rest
                    = forallb (fun p => Utils.FileExists w p || Utils.DirectoryExists w p) rest).
    { apply forallb_pointwise. intros p.
      unfold Utils.FileExists, Utils.DirectoryExists. by rewrite Hf, Hd. }
    rewrite Hsame, Hres.
    destruct (Utils.FileExists w path || Utils.DirectoryExists w path);
      destruct final; cbn [andb]; try done.
Qed.

(** X15.  The result of a custom scan whose callbacks return.  With the
    cancel flag set it is [Cancelled] as soon as there is a path to scan;
    otherwise it is [Failed] when some path of the list is neither a
    regular file nor a directory, and [Success] in every other case: an
    excluded path, a skipped file and a detected threat all count as
    success. *)
Theorem CustomScan_result (s : Scanner) (e : ThreatEngine.Engine)
    (w : World) (paths : list string) (threats : list ThreatEngine.ThreatInfo)
    (now : Z) :
  progress_callback_returns s -> threat_callback_returns s ->
  (CustomScan s e w paths threats now).1.1.1
  = if m_cancelRequested s
    then match paths with [] => Success | _ :: _ => Cancelled end
    else if forallb (fun p => Utils.FileExists w p || Utils.DirectoryExists w p) paths
         then Success else Failed.
Proof.
  intros Hprogress Hthreat. unfold CustomScan.
  set (w0 := log_if _ _ _ _ w). set (s0 := ResetStatistics s now).
  destruct (m_cancelRequested s) eqn:Hcancel.
  - destruct paths as [| path rest]; [done |].
    cbn [CustomScan_loop]. change (m_cancelRequested s0) with (m_cancelRequested s).
    by rewrite Hcancel.
  - pose proof (CustomScan_loop_result paths Success s0 e w0 threats Hcancel
                  Hprogress Hthreat) as Hres.
    destruct (CustomScan_loop paths Success s0 e w0 threats)
      as [[[result s1] w1] threats1].
    cbn [fst] in *. rewrite Hres.
    rewrite (forallb_pointwise _
               (fun p => Utils.FileExists w p || Utils.DirectoryExists w p));
      [done |].
    intros p.
    unfold Utils.FileExists, Utils.DirectoryExists.
    subst w0. unfold log_if. by destruct (m_logger s).
Qed.

(** A custom scan of one existing file by a scanner whose callbacks are
    set and return. *)
Lemma CustomScan_result_witness :
  (CustomScan SampleCallbacks.scanner Sample.engine SampleScan.one_file_world
     ["C:\w\notes.bin"%string; "C:\w\missing.bin"%string] [] 0).1.1.1
  = if m_cancelRequested SampleCallbacks.scanner
    then Cancelled
    else if forallb (fun p => Utils.FileExists SampleScan.one_file_world p
                              || Utils.DirectoryExists SampleScan.one_file_world p)
                    ["C:\w\notes.bin"%string; "C:\w\missing.bin"%string]
         then Success else Failed.
Proof.
  apply (CustomScan_result SampleCallbacks.scanner Sample.engine
           SampleScan.one_file_world
           ["C:\w\notes.bin"%string; "C:\w\missing.bin"%string] [] 0).
  - intros _ calls. reflexivity.
  - intros _ calls. reflexivity.
Defined.

End ScanFrame.

(** ** The exception handler of a file scan *)

Section Handler.
Import Scanner.

(** X30.  What the handler of [Scanner::ScanSingleFile] leaves behind.
    For a file that passes the filters, in a scan that is not cancelled:
    when the progress callback throws, the call has been made, the engine
    is not consulted, the file is counted as skipped and not as scanned,
    no threat is appended, the Error line is logged and the result is
    [Failed].  When the progress callback is not set and the threat
    callback throws for a threat the engine has found, the callback has
    been called with the threat, the threat stays appended and counted,
    the file is counted as scanned and then as skipped as well, the Error
    line is logged after the lines of the engine, and the result is
    [Failed]. *)
Theorem ScanSingleFile_callback_throws (s : Scanner) (e : ThreatEngine.Engine)
    (w : World) (path what : string) (threats : list ThreatEngine.ThreatInfo) :
  m_cancelRequested s = false ->
  ShouldScanFile s w path = true ->
  let r := ScanSingleFile s e w path threats in
  let st := m_statistics s in
  let st' := m_statistics r.1.1.2 in
  (m_progressCallback s = true ->
   let shown := UpdateProgress st in
   let call := mkProgressCall path (progressPercent shown) shown in
   progress_throws s (progress_calls s ++ [call]) = Some what ->
   r.1.1.1 = Failed /\
   progress_calls r.1.1.2 = progress_calls s ++ [call] /\
   scannedFiles st' = scannedFiles st /\
   skippedFiles st' = wrap64 (skippedFiles st + 1) /\
   threatsFound st' = threatsFound st /\
   r.2 = threats /\
   r.1.2 = log_if (m_logger s) Error "Error scanning file %s: %S" [path; what] w) /\
  (m_progressCallback s = false ->
   m_threatEngine s = true -> m_threatCallback s = true ->
   forall threat w1,
     ThreatEngine.ScanFile e w path ThreatEngine.empty_threat = (true, threat, w1) ->
     threat_throws s (threat_calls s ++ [threat]) = Some what ->
     r.1.1.1 = Failed /\
     threat_calls r.1.1.2 = threat_calls s ++ [threat] /\
     scannedFiles st' = wrap64 (scannedFiles st + 1) /\
     skippedFiles st' = wrap64 (skippedFiles st + 1) /\
     threatsFound st' = wrap64 (threatsFound st + 1) /\
     r.2 = threats ++ [threat] /\
     r.1.2 = log_if (m_logger s) Error "Error scanning file %s: %S" [path; what] w1).
Proof.
  intros Hrun Hshould r st st'. subst r st st'.
  unfold ScanSingleFile. rewrite Hrun, Hshould. cbn [negb]. split.
  - intros Hp. cbv zeta. intros Hthrows. rewrite Hp.
    cbn [progress_throws progress_calls with_progress_calls with_statistics].
    rewrite Hthrows. unfold scan_failed.
    cbn [fst snd m_statistics with_statistics with_progress_calls progress_calls
         m_logger].
    repeat split; try done; unfold UpdateProgress;
      repeat match goal with
             | |- context [if ?b then _ else _] => destruct b
             end; done.
  - intros Hp Hengine Hcb threat w1 Hscan Hthrows. rewrite Hp, Hengine, Hscan.
    cbn [m_threatCallback with_statistics]. rewrite Hcb.
    cbn [threat_throws threat_calls with_threat_calls with_statistics].
    rewrite Hthrows. unfold scan_failed.
    cbn [fst snd m_statistics with_statistics with_threat_calls threat_calls
         m_logger].
    repeat split; done.
Qed.

(** An infected file scanned with a threat callback that throws: the
    result is [Failed], the file is counted as scanned and as skipped, and
    the threat stays counted and appended. *)
Lemma ScanSingleFile_callback_throws_witness :
  let r := ScanSingleFile SampleCallbacks.throwing_scanner Sample.engine
             SampleMonitor.ransom_world "C:\w\bad.exe" [] in
  r.1.1.1 = Failed /\
  threat_calls r.1.1.2 = [SampleMonitor.ransom_verdict] /\
  scannedFiles (m_statistics r.1.1.2) = 1 /\
  skippedFiles (m_statistics r.1.1.2) = 1 /\
  threatsFound (m_statistics r.1.1.2) = 1 /\
  r.2 = [SampleMonitor.ransom_verdict] /\
  log r.1.2
  = [ mkLog Warning "Threat detected: %s in file %s"
        ["Ransomware.Generic.Extension"%string; "C:\w\bad.exe"%string];
      mkLog Error "Error scanning file %s: %S"
        ["C:\w\bad.exe"%string; "callback failed"%string] ].
Proof.
  intros r.
  destruct (ScanSingleFile_callback_throws SampleCallbacks.throwing_scanner
              Sample.engine SampleMonitor.ransom_world "C:\w\bad.exe"
              "callback failed" [] eq_refl eq_refl) as [_ Hthreat].
  destruct (Hthreat eq_refl eq_refl eq_refl SampleMonitor.ransom_verdict
              (ThreatEngine.ScanFile Sample.engine SampleMonitor.ransom_world
                 "C:\w\bad.exe" ThreatEngine.empty_threat).2
              eq_refl eq_refl)
    as (H1 & H2 & H3 & H4 & H5 & H6 & H7).
  fold r in H1, H2, H3, H4, H5, H6, H7.
  repeat split; assumption.
Defined.
End Handler.

(** ** The progress callback *)

Section ScanProgress.
Import Scanner.

Lemma progress_extends_refl (s : Scanner) : progress_extends s s.
Proof.
  constructor; [done |]. exists []. rewrite app_nil_r.
  split; [done |]. split; [done |]. split; [constructor |].
  intros Hp. split; [done | constructor].
Qed.

Lemma progress_extends_trans (s1 s2 s3 : Scanner) :
  progress_extends s1 s2 -> progress_extends s2 s3 -> progress_extends s1 s3.
Proof.
  intros [Hcb1 (new1 & Hcalls1 & Hnone1 & Hall1 & Hpos1)]
         [Hcb2 (new2 & Hcalls2 & Hnone2 & Hall2 & Hpos2)].
  constructor; [congruence |].
  exists (new1 ++ new2). split; [by rewrite Hcalls2, Hcalls1, app_assoc |].
  split; [| split].
  - intros Hoff. rewrite Hnone1 by done. rewrite Hnone2 by congruence. done.
  - by apply Forall_app.
  - intros Hp. destruct (Hpos1 Hp) as [Hp2 Hf1]. destruct (Hpos2 Hp2) as [Hp3 Hf2].
    split; [done | by apply Forall_app].
Qed.

Lemma progress_extends_same (s s' : Scanner) :
  m_progressCallback s' = m_progressCallback s ->
  progress_calls s' = progress_calls s ->
  progressPercent (m_statistics s') = progressPercent (m_statistics s) ->
  progress_extends s s'.
Proof.
  intros Hcb Hcalls Hp. constructor; [done |]. exists []. rewrite app_nil_r.
  split; [done |]. split; [done |]. split; [constructor |].
  intros Hpos. split; [by rewrite Hp | constructor].
Qed.

Lemma UpdateProgress_percent (st : ScanStatistics) :
  progressPercent (UpdateProgress st) <= 100 /\
  (0 <= progressPercent st -> 0 <= progressPercent (UpdateProgress st)).
Proof.
  unfold UpdateProgress.
  destruct (Z.ltb_spec 0 (totalFiles st)) as [Htotal | _].
  - cbn [progressPercent set_progress].
    set (p := wrap32 _).
    assert (Hp : 0 <= p) by (subst p; unfold wrap32, UINT32_MOD; apply Z.mod_pos_bound; lia).
    destruct (Z.ltb_spec 100 p); cbn [progressPercent set_progress]; lia.
  - destruct (Z.ltb_spec 100 (progressPercent st));
      cbn [progressPercent set_progress]; lia.
Qed.

Lemma ScanSingleFile_progress (s : Scanner) (e : ThreatEngine.Engine) (w : World)
    (path : string) (threats : list ThreatEngine.ThreatInfo) :
  progress_extends s (ScanSingleFile s e w path threats).1.1.2.
Proof.
  unfold ScanSingleFile.
  destruct (m_cancelRequested s); [apply progress_extends_refl |].
  destruct (negb (ShouldScanFile s w path)); [by apply progress_extends_same |].
  set (s1 := if m_progressCallback s then _ else s).
  assert (Hs1 : progress_extends s s1).
  { subst s1. destruct (m_progressCallback s) eqn:Hcb;
      [| apply progress_extends_refl].
    destruct (UpdateProgress_percent (m_statistics s)) as [Hle Hpos].
    constructor; [done |]. eexists. split; [reflexivity |].
    split; [by rewrite Hcb |]. split; [by repeat constructor |].
    intros Hp. split; [by apply Hpos | repeat constructor; by apply Hpos]. }
  unfold scan_failed.
  destruct (if m_progressCallback s then progress_throws s1 (progress_calls s1)
            else None) as [what |]; clearbody s1.
  { cbn [fst snd]. eapply progress_extends_trans; [exact Hs1 |].
    by apply progress_extends_same. }
  destruct (if m_threatEngine s1 then _ else _) as [[isThreat threat] w1].
  destruct isThreat; cbn [fst snd].
  - cbn [m_threatCallback with_statistics].
    destruct (m_threatCallback s1);
      cbn [threat_throws threat_calls with_threat_calls with_statistics].
    + destruct (threat_throws s1 _); cbn [fst snd];
        (eapply progress_extends_trans; [exact Hs1 |]);
        by apply progress_extends_same.
    + cbn [fst snd]. eapply progress_extends_trans; [exact Hs1 |].
      by apply progress_extends_same.
  - eapply progress_extends_trans; [exact Hs1 |]. by apply progress_extends_same.
Qed.

Lemma ScanDirectoryRecursive_loop_progress (entries : list string) (s : Scanner)
    (e : ThreatEngine.Engine) (w : World) (threats : list ThreatEngine.ThreatInfo) :
  progress_extends s (ScanDirectoryRecursive_loop entries s e w threats).1.1.
Proof.
  revert s w threats. induction entries as [| path rest IH]; intros s w threats.
  - apply progress_extends_refl.
  - cbn [ScanDirectoryRecursive_loop].
    destruct (m_cancelRequested s); [apply progress_extends_refl |].
    set (s1 := with_statistics s _).
    assert (Hs1 : progress_extends s s1) by (by apply progress_extends_same).
    clearbody s1.
    pose proof (ScanSingleFile_progress s1 e w path threats) as Hsingle.
    destruct (ScanSingleFile s1 e w path threats) as [[[result s2] w2] threats2].
    cbn [fst snd] in Hsingle.
    eauto using progress_extends_trans.
Qed.

Lemma ScanPath_progress (s : Scanner) (e : ThreatEngine.Engine) (w : World)
    (path : string) (threats : list ThreatEngine.ThreatInfo) :
  progress_extends s (ScanPath s e w path threats).1.1.2.
Proof.
  unfold ScanPath.
  destruct (negb (Utils.FileExists w path) && negb (Utils.DirectoryExists w path));
    [apply progress_extends_refl |].
  destruct (IsExcludedPath s path); [apply progress_extends_refl |].
  destruct (Utils.FileExists w path); [apply ScanSingleFile_progress |].
  destruct (Utils.DirectoryExists w path); [| apply progress_extends_refl].
  unfold ScanDirectoryRecursive.
  pose proof (ScanDirectoryRecursive_loop_progress
                (default [] (directories w !! path)) s e w threats) as Hloop.
  by destruct (ScanDirectoryRecursive_loop _ s e w threats) as [[s1 w1] threats1].
Qed.

Lemma CustomScan_loop_progress (paths : list string) (final : ScanResult)
    (s : Scanner) (e : ThreatEngine.Engine) (w : World)
    (threats : list ThreatEngine.ThreatInfo) :
  progress_extends s (CustomScan_loop paths final s e w threats).1.1.2.
Proof.
  revert final s w threats.
  induction paths as [| path rest IH]; intros final s w threats.
  - apply progress_extends_refl.
  - cbn [CustomScan_loop].
    destruct (m_cancelRequested s); [apply progress_extends_refl |].
    pose proof (ScanPath_progress s e w path threats) as Hpath.
    destruct (ScanPath s e w path threats) as [[[result s1] w1] threats1].
    cbn [fst snd] in Hpath.
    eauto using progress_extends_trans.
Qed.

(** X16.  The progress callback during a custom scan.  No call is made
    when no callback is set.  Every call passes the percentage held by the
    statistics it passes, and that percentage lies between 0 and 100; when
    the scan returns the percentage is 100. *)
Theorem CustomScan_progress (s : Scanner) (e : ThreatEngine.Engine)
    (w : World) (paths : list string) (threats : list ThreatEngine.ThreatInfo)
    (now : Z) :
  let s' := (CustomScan s e w paths threats now).1.1.2 in
  progressPercent (m_statistics s') = 100 /\
  exists new,
    progress_calls s' = progress_calls s ++ new /\
    (m_progressCallback s = false -> new = []) /\
    Forall (fun c => pc_percent c = progressPercent (pc_stats c) /\
                     0 <= pc_percent c <= 100) new.
Proof.
  unfold CustomScan.
  set (w0 := log_if _ _ _ _ w). set (s0 := ResetStatistics s now).
  pose proof (CustomScan_loop_progress paths Success s0 e w0 threats) as Hloop.
  destruct (CustomScan_loop paths Success s0 e w0 threats)
    as [[[result s1] w1] threats1].
  cbn [fst snd] in *.
  destruct Hloop as [_ (new & Hcalls & Hnone & Hall & Hpos)].
  split; [done |]. exists new. split; [exact Hcalls |]. split; [exact Hnone |].
  destruct (Hpos ltac:(done)) as [_ Hnonneg].
  apply Forall_forall. intros c Hc.
  rewrite Forall_forall in Hall, Hnonneg.
  destruct (Hall c Hc) as [Heq Hle]. specialize (Hnonneg c Hc). lia.
Qed.
End ScanProgress.

(** ** Real-time protection and the vault *)

Section Vault.
Import ThreatEngine.

Lemma quarantineFile_in_vault (e : Engine) (w : World) (path : string) :
  in_vault e (quarantineFile e w path).
Proof. by eexists. Qed.

Lemma metadataFile_in_vault (e : Engine) : in_vault e (metadataFile e).
Proof. by exists "metadata.dat"%string. Qed.

Lemma kept_outside_vault_refl (e : Engine) (w w' : World) :
  files w' = files w -> kept_outside_vault e w w'.
Proof. intros Hf p _. left. by rewrite Hf. Qed.

Lemma kept_outside_vault_trans (e : Engine) (w1 w2 w3 : World) :
  kept_outside_vault e w1 w2 -> kept_outside_vault e w2 w3 ->
  kept_outside_vault e w1 w3.
Proof.
  intros H12 H23 p Hp.
  destruct (H23 p Hp) as [H | H]; [| by right].
  rewrite H. by apply H12.
Qed.

Lemma QuarantineFile_failure_frame (e e' : Engine) (w w' : World)
    (path threat : string) :
  QuarantineFile e w path threat = (false, e', w') -> e' = e /\ files w' = files w.
Proof.
  unfold QuarantineFile.
  destruct (m_initialized e); cbn [negb]; [| by intros [= <- <-]].
  destruct (Utils.FileExists w path); cbn [negb]; [| by intros [= <- <-]].
  destruct (MoveFile w path _) as [moved w1] eqn:Hmove.
  destruct moved; [discriminate |].
  apply MoveFile_failure in Hmove as ->.
  intros [= <- <-]. split; [done | apply files_log_if].
Qed.

Lemma QuarantineFile_outside (e : Engine) (w : World) (path threat : string) :
  let '(_, e', w') := QuarantineFile e w path threat in
  m_quarantinePath e' = m_quarantinePath e /\ kept_outside_vault e w w'.
Proof.
  destruct (QuarantineFile e w path threat) as [[ok e'] w'] eqn:Hq.
  destruct ok.
  - apply QuarantineFile_success in Hq
      as (c & Hsrc & Hdst & _ & -> & _ & _ & Hfiles).
    split; [done |]. intros p Hp.
    assert (Hmeta : p <> metadataFile e)
      by (intros ->; apply Hp, metadataFile_in_vault).
    assert (Htarget : p <> quarantineFile e w path)
      by (intros ->; apply Hp, quarantineFile_in_vault).
    rewrite Hfiles.
    assert (Hmoved : (<[quarantineFile e w path := c]> (delete path (files w))
                        : gmap string (list byte)) !! p = files w !! p \/
                     (<[quarantineFile e w path := c]> (delete path (files w))
                        : gmap string (list byte)) !! p = None).
    { rewrite lookup_insert_ne by done.
      destruct (decide (p = path)) as [-> | Hne].
      - right. apply lookup_delete_eq.
      - left. by apply lookup_delete_ne. }
    destruct (open_denied w (metadataFile e)); [done |].
    by rewrite lookup_insert_ne.
  - destruct (QuarantineFile_failure_frame e e' w w' path threat Hq) as [-> Hf].
    split; [done |]. by apply kept_outside_vault_refl.
Qed.


Lemma engine_ScanFile_files (e : Engine) (w : World) (path : string)
    (threat : ThreatInfo) :
  files (ScanFile e w path threat).2 = files w.
Proof.
  pose proof (engine_ScanFile_frame e w path threat) as H.
  destruct (ScanFile e w path threat) as [[found t] w1]. apply H.
Qed.

Lemma HandleThreatDetection_outside (m : FileMonitor.Monitor) (e : Engine)
    (w : World) (threat : ThreatInfo) :
  let '(e', w') := FileMonitor.HandleThreatDetection m e w threat in
  m_quarantinePath e' = m_quarantinePath e /\ kept_outside_vault e w w'.
Proof.
  unfold FileMonitor.HandleThreatDetection, FileMonitor.threat_report.
  set (w1 := log_if _ _ _ _ w).
  assert (Hw1 : kept_outside_vault e w w1)
    by (apply kept_outside_vault_refl, files_log_if).
  clearbody w1.
  destruct (8 <=? threat_level threat); [| done].
  destruct (FileMonitor.m_threatEngine m); [| done].
  pose proof (QuarantineFile_outside e w1 (file_path threat) (threat_name threat)) as Hq.
  destruct (QuarantineFile e w1 (file_path threat) (threat_name threat))
    as [[ok e1] w2].
  destruct Hq as [Hpath Hkept].
  destruct ok; (split; [done |]).
  - eapply kept_outside_vault_trans; [exact Hw1 |].
    eapply kept_outside_vault_trans; [exact Hkept |].
    apply kept_outside_vault_refl, files_log_if.
  - by eapply kept_outside_vault_trans.
Qed.

Lemma ProcessScanRequest_outside (m : FileMonitor.Monitor) (e : Engine)
    (w : World) (request : FileMonitor.ScanRequest) :
  let '(e', w') := FileMonitor.ProcessScanRequest m e w request in
  m_quarantinePath e' = m_quarantinePath e /\ kept_outside_vault e w w'.
Proof.
  unfold FileMonitor.ProcessScanRequest.
  destruct (Utils.FileExists w _); cbn [negb];
    [| split; [done | by apply kept_outside_vault_refl]].
  destruct (FileMonitor.m_threatEngine m);
    [| split; [done | by apply kept_outside_vault_refl]].
  pose proof (engine_ScanFile_files e w (FileMonitor.filePath request) empty_threat)
    as Hscan.
  destruct (ScanFile e w (FileMonitor.filePath request) empty_threat)
    as [[isThreat threat] w1].
  cbn [snd] in Hscan.
  destruct isThreat; [| split; [done | by apply kept_outside_vault_refl]].
  pose proof (HandleThreatDetection_outside m e w1 threat) as Hh.
  destruct (FileMonitor.HandleThreatDetection m e w1 threat) as [e' w'].
  destruct Hh as [Hpath Hkept]. split; [done |].
  eapply kept_outside_vault_trans; [| exact Hkept].
  by apply kept_outside_vault_refl.
Qed.

Lemma kept_outside_vault_path (e e' : Engine) (w w' : World) :
  m_quarantinePath e' = m_quarantinePath e ->
  kept_outside_vault e' w w' -> kept_outside_vault e w w'.
Proof.
  intros Hpath Hkept p Hp. apply Hkept. intros [rest ->]. apply Hp.
  exists rest. by rewrite Hpath.
Qed.

Lemma monitor_step_outside (m : FileMonitor.Monitor) (e : Engine) (w : World)
    (step : FileMonitor.MonitorStep) :
  let '(_, e', w') := FileMonitor.monitor_step (m, e, w) step in
  m_quarantinePath e' = m_quarantinePath e /\ kept_outside_vault e w w'.
Proof.
  destruct step as [path action now |]; cbn [FileMonitor.monitor_step].
  - unfold FileMonitor.ProcessFileEvent.
    destruct (negb _); [split; [done | by apply kept_outside_vault_refl] |].
    destruct (FileMonitor.ShouldSkipFile path);
      [split; [done | by apply kept_outside_vault_refl] |].
    destruct (_ || _); (split; [done |]);
      apply kept_outside_vault_refl; [apply files_log_if | done].
  - unfold FileMonitor.WorkerThread_step.
    destruct (negb _); [split; [done | by apply kept_outside_vault_refl] |].
    destruct (pq_top _) as [request |];
      [| split; [done | by apply kept_outside_vault_refl]].
    set (m1 := FileMonitor.with_scanQueue m _).
    pose proof (ProcessScanRequest_outside m1 e w request) as Hp.
    by destruct (FileMonitor.ProcessScanRequest m1 e w request) as [e1 w1].
Qed.

(** X17.  Real-time protection writes nowhere but in the vault.  Over any
    sequence of file events and worker steps, the quarantine directory of
    the engine stays the same, and every path outside it holds the file it
    held at the start or no file at all: the monitor creates no file and
    changes no content there; it only moves files away. *)
Theorem monitor_writes_only_in_vault (m : FileMonitor.Monitor) (e : Engine)
    (w : World) (steps : list FileMonitor.MonitorStep) :
  let '(_, e', w') := FileMonitor.run_monitor m e w steps in
  m_quarantinePath e' = m_quarantinePath e /\ kept_outside_vault e w w'.
Proof.
  unfold FileMonitor.run_monitor.
  revert m e w. induction steps as [| step steps IH]; intros m e w.
  - split; [done | by apply kept_outside_vault_refl].
  - cbn [fold_left].
    pose proof (monitor_step_outside m e w step) as Hstep.
    destruct (FileMonitor.monitor_step (m, e, w) step) as [[m1 e1] w1].
    destruct Hstep as [Hpath1 Hkept1].
    specialize (IH m1 e1 w1).
    destruct (fold_left FileMonitor.monitor_step steps (m1, e1, w1))
      as [[m2 e2] w2].
    destruct IH as [Hpath2 Hkept2]. split; [congruence |].
    eapply kept_outside_vault_trans; [exact Hkept1 |].
    by apply (kept_outside_vault_path e e1).
Qed.


(** [ThreatEngine::ScanFile] leaves the clock and the permissions alone,
    and only an initialised engine gives a positive verdict. *)
Lemma engine_ScanFile_world (e : Engine) (w : World) (path : string)
    (threat : ThreatInfo) :
  let '(found, _, w1) := ScanFile e w path threat in
  clock w1 = clock w /\ move_denied w1 = move_denied w /\
  (found = true -> m_initialized e = true).
Proof.
  unfold ScanFile.
  destruct (m_initialized e); cbn [negb]; [| by repeat split].
  destruct (Utils.FileExists w path); cbn [negb]; [| by repeat split].
  destruct (_ =? 0); [by repeat split |].
  destruct (MAX_SCAN_SIZE <? _).
  { unfold log_if. destruct (m_logger e); by repeat split. }
  destruct (open_denied w path); [by repeat split |].
  unfold scan_buffer.
  destruct (ScanWithSignatures _ _ _) as [found threat1].
  destruct found.
  { unfold log_if. destruct (m_logger e); by repeat split. }
  destruct (m_heuristicsEnabled e); [| by repeat split].
  destruct (ScanWithHeuristics _ _ _) as [hfound threat3].
  destruct hfound; [| by repeat split].
  unfold log_if. destruct (m_logger e); by repeat split.
Qed.

Lemma QuarantineFile_succeeds (e : Engine) (w : World) (path threat : string)
    (c : list byte) :
  m_initialized e = true ->
  files w !! path = Some c ->
  files w !! quarantineFile e w path = None ->
  move_denied w path (quarantineFile e w path) = false ->
  exists e1 w', QuarantineFile e w path threat = (true, e1, w').
Proof.
  intros Hinit Hsrc Hdst Hallowed. unfold QuarantineFile, Utils.FileExists, MoveFile.
  rewrite Hinit, Hsrc, Hdst, Hallowed. cbn [negb]. by eexists _, _.
Qed.

(** X18.  A detected file of high severity leaves its place.  When a
    worker takes a request for a file that the engine judges a threat of
    level 8 or more, the vault name for it is free, the system allows the
    move and the file is not the index file, then after the request the
    file is no longer at its path, the vault holds its content under the
    name built from the clock and the file name, and the quarantine index
    has one more entry, for this file and this threat. *)
Theorem worker_quarantines_detected_file (m : FileMonitor.Monitor) (e : Engine)
    (w w1 : World) (request : FileMonitor.ScanRequest) (threat : ThreatInfo) :
  let path := FileMonitor.filePath request in
  let target := quarantineFile e w path in
  FileMonitor.m_threatEngine m = true ->
  ScanFile e w path empty_threat = (true, threat, w1) ->
  8 <= threat_level threat ->
  files w !! target = None ->
  move_denied w path target = false ->
  path <> metadataFile e ->
  let '(e', w') := FileMonitor.ProcessScanRequest m e w request in
  is_Some (files w !! path) /\
  files w' !! path = None /\
  files w' !! target = files w !! path /\
  m_quarantineEntries e'
  = m_quarantineEntries e
    ++ [mkQuarantineEntry path target (threat_name threat) (clock w)].
Proof.
  intros path target Hengine Hscan Hlevel Hfree Hallowed Hmeta.
  pose proof (engine_ScanFile_frame e w path empty_threat) as Hframe.
  pose proof (engine_ScanFile_world e w path empty_threat) as Hworld.
  rewrite Hscan in Hframe, Hworld.
  destruct Hframe as (Hf1 & _ & _ & Hthreat).
  destruct (Hthreat eq_refl) as (Hpath & content & Hc & _).
  destruct Hworld as (Hclock1 & Hmove1 & Hinit). specialize (Hinit eq_refl).
  rewrite (ProcessScanRequest_threat m e w w1 request threat);
    [| by unfold Utils.FileExists; fold path; rewrite Hc | done | done].
  unfold FileMonitor.HandleThreatDetection.
  destruct (Z.leb_spec 8 (threat_level threat)) as [_ | ?]; [| lia].
  rewrite Hengine, Hpath.
  set (w2 := FileMonitor.threat_report m threat w1).
  assert (Hw2 : files w2 = files w /\ clock w2 = clock w /\
                move_denied w2 = move_denied w).
  { subst w2. unfold FileMonitor.threat_report, log_if.
    destruct (FileMonitor.m_logger m); cbn; by rewrite ?Hf1, ?Hclock1, ?Hmove1. }
  destruct Hw2 as (Hf2 & Hclock2 & Hmove2). clearbody w2.
  assert (Htarget : quarantineFile e w2 path = target)
    by (unfold target, quarantineFile; by rewrite Hclock2).
  destruct (QuarantineFile_succeeds e w2 path (threat_name threat) content)
    as (e1 & w3 & Hq); [done | by rewrite Hf2 | by rewrite Htarget, Hf2
                        | by rewrite Htarget, Hmove2 |].
  rewrite Hq.
  apply QuarantineFile_success in Hq
    as (c & Hsrc & _ & _ & -> & _ & _ & Hfiles3).
  rewrite Htarget, Hclock2, Hf2 in *.
  assert (c = content) as -> by congruence.
  pose proof (quarantineFile_ne_metadataFile e w path) as Htm. fold target in Htm.
  assert (Hpt : path <> target) by congruence.
  rewrite files_log_if, Hfiles3.
  split; [by rewrite Hc |]. split; [| split; [| done]].
  - destruct (open_denied w2 (metadataFile e));
      rewrite ?lookup_insert_ne by done; apply lookup_delete_eq.
  - rewrite Hc. destruct (open_denied w2 (metadataFile e));
      rewrite ?(lookup_insert_ne _ (metadataFile e)) by done; apply lookup_insert_eq.
Qed.

(** A file that carries the ransomware pattern, taken by a worker. *)
Lemma worker_quarantines_detected_file_witness :
  let w := Sample.world {[ "C:\w\bad.exe"%string := list_byte_of_string "x.locked" ]} in
  let request := FileMonitor.mkScanRequest "C:\w\bad.exe" 10 1 in
  let target := quarantineFile Sample.engine w "C:\w\bad.exe" in
  let r := ScanFile Sample.engine w "C:\w\bad.exe" empty_threat in
  let '(e', w') := FileMonitor.ProcessScanRequest SampleMonitor.monitor
                     Sample.engine w request in
  is_Some (files w !! "C:\w\bad.exe"%string) /\
  files w' !! "C:\w\bad.exe"%string = None /\
  files w' !! target = files w !! "C:\w\bad.exe"%string /\
  m_quarantineEntries e'
  = m_quarantineEntries Sample.engine
    ++ [mkQuarantineEntry "C:\w\bad.exe" target (threat_name r.1.2) (clock w)].
Proof.
  intros w request target r.
  apply (worker_quarantines_detected_file SampleMonitor.monitor Sample.engine
           w r.2 request r.1.2).
  - reflexivity.
  - reflexivity.
  - vm_compute. discriminate.
  - reflexivity.
  - reflexivity.
  - discriminate.
Defined.
End Vault.

(** ** What the worker does with a verdict *)

Section AutoQuarantineEffect.
Import ThreatEngine.







End AutoQuarantineEffect.

(** ** Letter case in paths *)

Section LetterCase.

Lemma towlower_idempotent (c : ascii) : towlower (towlower c) = towlower c.
Proof. destruct c as [[] [] [] [] [] [] [] []]; reflexivity. Qed.

Lemma is_separator_towlower (c : ascii) : is_separator (towlower c) = is_separator c.
Proof. destruct c as [[] [] [] [] [] [] [] []]; reflexivity. Qed.

Lemma is_drive_letter_towlower (c : ascii) :
  is_drive_letter (towlower c) = is_drive_letter c.
Proof. destruct c as [[] [] [] [] [] [] [] []]; reflexivity. Qed.

Lemma is_colon_towlower (c : ascii) :
  ascii_eqb (towlower c) ":" = ascii_eqb c ":".
Proof. destruct c as [[] [] [] [] [] [] [] []]; reflexivity. Qed.

Lemma is_dot_towlower (c : ascii) :
  ascii_eqb (towlower c) "." = ascii_eqb c ".".
Proof. destruct c as [[] [] [] [] [] [] [] []]; reflexivity. Qed.

Lemma strip_root_name_lower (p : list ascii) :
  strip_root_name (map towlower p) = map towlower (strip_root_name p).
Proof.
  destruct p as [| d [| c rest]]; [done | done |].
  cbn [map strip_root_name].
  rewrite is_drive_letter_towlower, is_colon_towlower.
  by destruct (is_drive_letter d && ascii_eqb c ":").
Qed.

Lemma after_last_separator_lower (p acc : list ascii) :
  after_last_separator (map towlower p) (map towlower acc)
  = map towlower (after_last_separator p acc).
Proof.
  revert acc. induction p as [| c rest IH]; intros acc; [done |].
  cbn [map after_last_separator]. rewrite is_separator_towlower.
  destruct (is_separator c); apply IH.
Qed.

Lemma last_dot_suffix_lower (f : list ascii) (first : bool) (acc : list ascii) :
  last_dot_suffix (map towlower f) first (map towlower acc)
  = map towlower (last_dot_suffix f first acc).
Proof.
  revert first acc. induction f as [| c rest IH]; intros first acc; [done |].
  cbn [map last_dot_suffix]. rewrite is_dot_towlower.
  destruct (ascii_eqb c "." && negb first); [apply (IH false (c :: rest)) | apply IH].
Qed.

Lemma path_filename_chars_lower (p : string) :
  path_filename_chars (wstring_lower p)
  = map towlower (path_filename_chars p).
Proof.
  unfold path_filename_chars, wstring_lower.
  rewrite list_ascii_of_string_of_list_ascii, strip_root_name_lower.
  apply after_last_separator_lower.
Qed.

Lemma eq_dot_towlower (c : ascii) : towlower c = "."%char <-> c = "."%char.
Proof.
  pose proof (is_dot_towlower c) as H. unfold ascii_eqb in H.
  split; intros Heq.
  - rewrite Heq, Ascii.eqb_refl in H. symmetry in H. by apply Ascii.eqb_eq in H.
  - by subst c.
Qed.

(** [path_extension] without the pattern matching on characters. *)
Lemma path_extension_unfold (p : string) :
  path_extension p
  = if decide (path_filename_chars p = ["."%char] \/
               path_filename_chars p = ["."%char; "."%char])
    then EmptyString
    else string_of_list_ascii (last_dot_suffix (path_filename_chars p) true []).
Proof.
  unfold path_extension. set (f := path_filename_chars p). clearbody f.
  destruct f as [| c1 [| c2 [| c3 rest]]].
  - case_decide as H; [by destruct H | done].
  - case_decide as H.
    + destruct H as [[= ->] | [=]]. done.
    + destruct c1 as [[] [] [] [] [] [] [] []]; reflexivity.
  - case_decide as H.
    + destruct H as [[=] | [= -> ->]]. done.
    + destruct c1 as [[] [] [] [] [] [] [] []]; try reflexivity.
      destruct c2 as [[] [] [] [] [] [] [] []]; try reflexivity.
      exfalso. apply H. by right.
  - case_decide as H; [by destruct H as [[=] | [=]] |].
    destruct c1 as [[] [] [] [] [] [] [] []]; try reflexivity.
    destruct c2 as [[] [] [] [] [] [] [] []]; reflexivity.
Qed.

Lemma map_towlower_dots (f : list ascii) :
  (map towlower f = ["."%char] \/ map towlower f = ["."%char; "."%char]) <->
  (f = ["."%char] \/ f = ["."%char; "."%char]).
Proof.
  split.
  - intros [H | H].
    + destruct f as [| c1 [| c2 rest]]; try discriminate.
      injection H as H1. apply eq_dot_towlower in H1 as ->. by left.
    + destruct f as [| c1 [| c2 [| c3 rest]]]; try discriminate.
      injection H as H1 H2.
      apply eq_dot_towlower in H1 as ->. apply eq_dot_towlower in H2 as ->.
      by right.
  - intros [-> | ->]; [by left | by right].
Qed.

(** Lowering a path lowers its extension. *)
Lemma path_extension_lower (p : string) :
  path_extension (wstring_lower p) = wstring_lower (path_extension p).
Proof.
  rewrite !path_extension_unfold, path_filename_chars_lower.
  set (f := path_filename_chars p).
  pose proof (map_towlower_dots f) as Hdots.
  destruct (decide (f = ["."%char] \/ f = ["."%char; "."%char])) as [Hf | Hf];
    case_decide as Hl; try tauto.
  unfold wstring_lower. rewrite list_ascii_of_string_of_list_ascii.
  by rewrite <- (last_dot_suffix_lower f true []).
Qed.

Lemma wstring_lower_idempotent (p : string) :
  wstring_lower (wstring_lower p) = wstring_lower p.
Proof.
  unfold wstring_lower. rewrite list_ascii_of_string_of_list_ascii, map_map.
  f_equal. apply map_ext. intros c. apply towlower_idempotent.
Qed.

(** X19.  The filters of the monitor ignore letter case.  Two paths that
    differ only in the case of letters get the same answer from
    [ShouldSkipFile], the same scan priority, and the same answer from the
    scanner's [IsExcludedPath]. *)
Theorem path_filters_ignore_case (s : Scanner.Scanner) (p q : string) :
  wstring_lower p = wstring_lower q ->
  FileMonitor.ShouldSkipFile p = FileMonitor.ShouldSkipFile q /\
  FileMonitor.DetermineScanPriority p = FileMonitor.DetermineScanPriority q /\
  Scanner.IsExcludedPath s p = Scanner.IsExcludedPath s q.
Proof.
  intros Heq.
  assert (Hext : wstring_lower (path_extension p) = wstring_lower (path_extension q))
    by (by rewrite <- !path_extension_lower, Heq).
  unfold FileMonitor.ShouldSkipFile, FileMonitor.DetermineScanPriority,
    Scanner.IsExcludedPath.
  by rewrite Heq, Hext.
Qed.

(** An executable dropped under an upper-case name. *)
Lemma path_filters_ignore_case_witness :
  FileMonitor.ShouldSkipFile "C:\Users\A\SETUP.EXE"
  = FileMonitor.ShouldSkipFile "c:\users\a\setup.exe" /\
  FileMonitor.DetermineScanPriority "C:\Users\A\SETUP.EXE"
  = FileMonitor.DetermineScanPriority "c:\users\a\setup.exe" /\
  Scanner.IsExcludedPath SampleScan.scanner "C:\Users\A\SETUP.EXE"
  = Scanner.IsExcludedPath SampleScan.scanner "c:\users\a\setup.exe".
Proof.
  apply (path_filters_ignore_case SampleScan.scanner
           "C:\Users\A\SETUP.EXE" "c:\users\a\setup.exe").
  reflexivity.
Defined.
End LetterCase.

(** ** The two directory scans *)

Section DirectoryScans.
Import Scanner.

Lemma filter_pointwise {A} (f g : A -> bool) (l : list A) :
  (forall x, f x = g x) -> List.filter f l = List.filter g l.
Proof.
  intros Hfg. induction l as [| x l IH]; [done |].
  cbn [List.filter]. by rewrite Hfg, IH.
Qed.

(** With an engine and callbacks that return, the scan of one file leaves
    the world and the threats that [ThreatEngine::ScanFile] gives for it,
    when the file passes the filters. *)
Lemma ScanSingleFile_engine (s : Scanner) (e : ThreatEngine.Engine) (w : World)
    (path : string) (threats : list ThreatEngine.ThreatInfo) :
  m_cancelRequested s = false ->
  m_threatEngine s = true ->
  progress_callback_returns s -> threat_callback_returns s ->
  let r := ScanSingleFile s e w path threats in
  (r.1.2, r.2)
  = if ShouldScanFile s w path
    then let '(found, threat, w1) :=
           ThreatEngine.ScanFile e w path ThreatEngine.empty_threat in
         (w1, if found then threats ++ [threat] else threats)
    else (w, threats).
Proof.
  intros Hrun Hengine Hprogress Hthreat. cbv zeta.
  unfold ScanSingleFile. rewrite Hrun.
  destruct (ShouldScanFile s w path); cbn [negb]; [| done].
  set (s1 := if m_progressCallback s then _ else s).
  assert (Hs1 : same_callbacks s s1 /\ m_threatEngine s1 = true).
  { subst s1. destruct (m_progressCallback s) eqn:Hp;
      [| split; [apply same_callbacks_refl | done]].
    by repeat split. }
  destruct Hs1 as [(_ & Hcb1 & Hpt1 & Hth1) Hengine1].
  assert (Hnone : (if m_progressCallback s then progress_throws s1 (progress_calls s1)
                   else None) = None).
  { destruct (m_progressCallback s) eqn:Hp; [| done].
    rewrite Hpt1. by apply Hprogress. }
  rewrite Hnone, Hengine1. clearbody s1.
  destruct (ThreatEngine.ScanFile e w path ThreatEngine.empty_threat)
    as [[isThreat threat] w1].
  destruct isThreat; [| done].
  cbn [m_threatCallback with_statistics]. rewrite Hcb1.
  destruct (m_threatCallback s) eqn:Hcb; [| done].
  cbn [threat_throws with_threat_calls with_statistics]. rewrite Hth1.
  by rewrite (Hthreat Hcb).
Qed.

(** X20.  The scanner's directory scan and the engine's directory scan
    agree.  With an engine attached, no cancellation and callbacks that
    return, the threats [Scanner::ScanDirectoryRecursive] appends, and
    the log lines written meanwhile, are those of
    [ThreatEngine::ScanDirectory]'s loop over the files that pass the
    scanner's filters, in the same order. *)
Theorem directory_scans_agree (entries : list string) (s : Scanner)
    (e : ThreatEngine.Engine) (w : World)
    (threats : list ThreatEngine.ThreatInfo) :
  m_cancelRequested s = false ->
  m_threatEngine s = true ->
  progress_callback_returns s -> threat_callback_returns s ->
  let '(_, w', threats') := ScanDirectoryRecursive_loop entries s e w threats in
  (w', threats')
  = ThreatEngine.ScanDirectory_loop
      (List.filter (ShouldScanFile s w) entries) e w threats.
Proof.
  revert s w threats.
  induction entries as [| path rest IH];
    intros s w threats Hrun Hengine Hprogress Hthreat; [done |].
  cbn [ScanDirectoryRecursive_loop List.filter]. rewrite Hrun.
  set (s1 := with_statistics s _).
  assert (Hs1 : m_cancelRequested s1 = false /\ m_threatEngine s1 = true /\
                m_options s1 = m_options s /\
                progress_callback_returns s1 /\ threat_callback_returns s1) by done.
  destruct Hs1 as (Hrun1 & Hengine1 & Hopt1 & Hprogress1 & Hthreat1). clearbody s1.
  pose proof (ScanSingleFile_extends s1 e w path threats) as Hext.
  pose proof (ScanSingleFile_callbacks s1 e w path threats) as Hsame.
  pose proof (ScanSingleFile_engine s1 e w path threats Hrun1 Hengine1
                Hprogress1 Hthreat1) as Hsingle.
  rewrite <- (ShouldScanFile_ext s s1 w w path Hopt1 eq_refl).
  destruct (ScanSingleFile s1 e w path threats) as [[[result s2] w2] threats2].
  cbn [fst snd] in Hsingle, Hsame. cbv zeta in Hsingle.
  destruct Hext as [Hf _ _ Hopt Hc He _ _ _].
  apply callbacks_return_same in Hsame as [Hp2 Ht2].
  specialize (IH s2 w2 threats2 ltac:(congruence) ltac:(congruence)
                (Hp2 Hprogress1) (Ht2 Hthreat1)).
  destruct (ScanDirectoryRecursive_loop rest s2 e w2 threats2)
    as [[s4 w4] threats4].
  rewrite IH.
  assert (Hfilter : List.filter (ShouldScanFile s2 w2) rest
                    = List.filter (ShouldScanFile s w) rest).
  { apply filter_pointwise. intros p. apply ShouldScanFile_ext; congruence. }
  rewrite Hfilter.
  destruct (ShouldScanFile s1 w path).
  - cbn [ThreatEngine.ScanDirectory_loop].
    destruct (ThreatEngine.ScanFile e w path ThreatEngine.empty_threat)
      as [[isThreat threat] w1].
    by injection Hsingle as -> ->.
  - by injection Hsingle as -> ->.
Qed.

(** A scanner with callbacks that return, over the one file of the sample
    directory. *)
Lemma directory_scans_agree_witness :
  let '(_, w', threats') :=
    ScanDirectoryRecursive_loop ["C:\w\notes.bin"%string] SampleCallbacks.scanner
      Sample.engine SampleScan.one_dir_world [] in
  (w', threats')
  = ThreatEngine.ScanDirectory_loop
      (List.filter (ShouldScanFile SampleCallbacks.scanner SampleScan.one_dir_world)
                   ["C:\w\notes.bin"%string])
      Sample.engine SampleScan.one_dir_world [].
Proof.
  apply (directory_scans_agree ["C:\w\notes.bin"%string] SampleCallbacks.scanner
           Sample.engine SampleScan.one_dir_world []).
  - reflexivity.
  - reflexivity.
  - intros _ calls. reflexivity.
  - intros _ calls. reflexivity.
Defined.
End DirectoryScans.

(** ** Extraction of archive entries *)

Section ExtractionShape.
Import ArchiveScanner.

Lemma length_ifstream_read (content : list byte) (pos n : nat) :
  length (ifstream_read content pos n) = n.
Proof.
  unfold ifstream_read. rewrite length_app, length_replicate, length_take. lia.
Qed.

Lemma ifstream_read_exact (before data after : list byte) :
  ifstream_read (before ++ data ++ after) (length before) (length data) = data.
Proof.
  unfold ifstream_read.
  rewrite drop_app_length, take_app_length, Nat.sub_diag. apply app_nil_r.
Qed.

Lemma le_value_2 (z : Z) :
  le_value [byte_of_Z z; byte_of_Z (z / 256)] = z mod 2 ^ 16.
Proof. exact (le_value_le_bytes 2 z). Qed.

Lemma le_value_4 (z : Z) :
  le_value [byte_of_Z z; byte_of_Z (z / 256); byte_of_Z (z / 256 / 256);
            byte_of_Z (z / 256 / 256 / 256)] = z mod 2 ^ 32.
Proof. exact (le_value_le_bytes 4 z). Qed.

Lemma length_lfh_bytes (h : ZipLocalFileHeader) : length (lfh_bytes h) = sizeof_lfh.
Proof. reflexivity. Qed.

(** Reading back the bytes of a header gives the header. *)
Lemma parse_lfh_bytes (h : ZipLocalFileHeader) :
  lfh_in_range h -> parse_lfh (lfh_bytes h) = h.
Proof.
  intros (H1 & H2 & H3 & H4 & H5 & H6 & H7 & H8 & H9 & H10 & H11).
  unfold uint32_range, uint16_range, UINT32_MOD in *.
  unfold parse_lfh, field, lfh_bytes.
  cbn [le_bytes app take drop firstn skipn].
  rewrite !le_value_2, !le_value_4.
  rewrite !Z.mod_small by lia. by destruct h.
Qed.

(** X21.  What an extraction does to the files when the local header of
    the entry lies within the archive.  The outcome is then determined.
    No file other than the output file is touched, and no directory
    other than the one named by the output path before its last separator
    is created.  When the extraction succeeds, the local header carries
    the signature, its method is Stored, or Deflate with equal sizes, and
    the output file holds as many bytes as its [compressedSize] says.
    When it fails, either no file has changed or the output file does not
    exist. *)
Theorem extractZipEntry_files (a : Archiver) (w : World)
    (zipPath outputPath : string) (entry : ArchiveEntry) :
  (forall zip, files w !! zipPath = Some zip -> header_complete zip entry) ->
  exists ok w',
    extractZipEntry a w zipPath entry outputPath = Some (ok, w') /\
    (forall p, p <> outputPath -> files w' !! p = files w !! p) /\
    (forall d, d <> output_directory outputPath ->
               directories w' !! d = directories w !! d) /\
    (ok = true ->
     exists zip content,
       files w !! zipPath = Some zip /\
       files w' !! outputPath = Some content /\
       let lfh := local_header zip entry in
       lfh_signature lfh = 0x04034b50 /\
       length content = Z.to_nat (lfh_compressedSize lfh) /\
       (lfh_compression lfh = 0 \/
        lfh_compression lfh = 8 /\ lfh_compressedSize lfh = lfh_uncompressedSize lfh)) /\
    (ok = false -> files w' = files w \/ files w' !! outputPath = None).
Proof.
  intros Hcomplete.
  destruct (encrypted entry) eqn:Henc.
  { unfold extractZipEntry. rewrite Henc. eexists _, _. split; [reflexivity |].
    by repeat split; auto. }
  destruct (Z.ltb_spec (m_maxExtractedSize a / 10) (uncompressedSize entry)) as [Hbig | Hsize].
  { unfold extractZipEntry. rewrite Henc.
    destruct (Z.ltb_spec (m_maxExtractedSize a / 10) (uncompressedSize entry)) as [_ | ?];
      [| lia].
    eexists _, _. split; [reflexivity |]. by repeat split; auto. }
  destruct (open_denied w zipPath) eqn:Hzip.
  { unfold extractZipEntry. rewrite Henc, Hzip.
    destruct (Z.ltb_spec (m_maxExtractedSize a / 10) (uncompressedSize entry)) as [? | _];
      [lia |].
    eexists _, _. split; [reflexivity |]. by repeat split; auto. }
  destruct (files w !! zipPath) as [zip |] eqn:Hfile.
  2: { unfold extractZipEntry. rewrite Henc, Hzip, Hfile.
       destruct (Z.ltb_spec (m_maxExtractedSize a / 10) (uncompressedSize entry)) as [? | _];
         [lia |].
       eexists _, _. split; [reflexivity |]. by repeat split; auto. }
  rewrite (extractZipEntry_complete a w zipPath outputPath entry zip) by auto.
  cbv zeta. set (lfh := local_header zip entry).
  set (w0 := CreateDirectoryA w (output_directory outputPath)).
  set (dataPos := (_ + _ + _)%nat).
  assert (Hf0 : files w0 = files w) by apply files_CreateDirectoryA.
  assert (Hd0 : forall d, d <> output_directory outputPath ->
                          directories w0 !! d = directories w !! d)
    by (intros d Hd; by apply directories_CreateDirectoryA).
  destruct (Z.eqb_spec (lfh_signature lfh) 67324752) as [Hsig | Hsig]; cbn [negb].
  2: { eexists _, _. split; [reflexivity |]. by repeat split; auto. }
  destruct (ofstream_opens w0 outputPath); cbn [negb].
  2: { eexists _, _. split; [reflexivity |]. cbn [files archive_log with_log directories].
       split; [by intros; rewrite Hf0 |]. split; [done |].
       split; [done |]. intros _. by left. }
  destruct (Z.eqb_spec (lfh_compression lfh) 0) as [H0 | H0].
  { eexists _, _. split; [reflexivity |]. split; [| split; [done |]; split; [| done]].
    - intros p Hp. cbn. by rewrite !lookup_insert_ne, Hf0.
    - intros _. eexists zip, _. split; [done |]. split.
      + cbn. apply lookup_insert_eq.
      + split; [done |]. split; [apply length_ifstream_read | by left]. }
  destruct (Z.eqb_spec (lfh_compression lfh) 8) as [H8 | H8].
  - destruct (Z.eqb_spec (lfh_compressedSize lfh) (lfh_uncompressedSize lfh))
      as [Heq | Hne].
    + eexists _, _. split; [reflexivity |]. split; [| split; [done |]; split; [| done]].
      * intros p Hp. cbn. by rewrite !lookup_insert_ne, Hf0.
      * intros _. eexists zip, _. split; [done |]. split.
        -- cbn. apply lookup_insert_eq.
        -- split; [done |]. split; [apply length_ifstream_read | by right].
    + eexists _, _. split; [reflexivity |]. split; [| split; [done |]; split; [done |]].
      * intros p Hp. cbn. by rewrite lookup_delete_ne, lookup_insert_ne, Hf0.
      * intros _. right. cbn. apply lookup_delete_eq.
  - eexists _, _. split; [reflexivity |]. split; [| split; [done |]; split; [done |]].
    + intros p Hp. cbn. by rewrite lookup_delete_ne, lookup_insert_ne, Hf0.
    + intros _. right. cbn. apply lookup_delete_eq.
Qed.

(** The Deflate entry of the sample archive. *)
Lemma extractZipEntry_files_witness :
  exists ok w',
    extractZipEntry Archiver_new SampleArchive.archive_world "C:\t\a.zip"
      SampleArchive.entry "C:\t\x\a.txt" = Some (ok, w') /\
    (forall p, p <> "C:\t\x\a.txt"%string ->
               files w' !! p = files SampleArchive.archive_world !! p) /\
    (forall d, d <> output_directory "C:\t\x\a.txt" ->
               directories w' !! d = directories SampleArchive.archive_world !! d) /\
    (ok = true ->
     exists zip content,
       files SampleArchive.archive_world !! "C:\t\a.zip"%string = Some zip /\
       files w' !! "C:\t\x\a.txt"%string = Some content /\
       let lfh := local_header zip SampleArchive.entry in
       lfh_signature lfh = 0x04034b50 /\
       length content = Z.to_nat (lfh_compressedSize lfh) /\
       (lfh_compression lfh = 0 \/
        lfh_compression lfh = 8 /\ lfh_compressedSize lfh = lfh_uncompressedSize lfh)) /\
    (ok = false -> files w' = files SampleArchive.archive_world \/
                   files w' !! "C:\t\x\a.txt"%string = None).
Proof.
  apply (extractZipEntry_files Archiver_new SampleArchive.archive_world
           "C:\t\a.zip" "C:\t\x\a.txt" SampleArchive.entry).
  intros zip Hzip. unfold SampleArchive.archive_world in Hzip. cbn [files Sample.world] in Hzip.
  rewrite lookup_singleton_eq in Hzip. injection Hzip as <-.
  unfold header_complete. vm_compute. lia.
Defined.

(** X22.  A Stored entry is extracted byte for byte.  When the archive
    holds, at the entry's offset, a local header with the right signature
    and method 0, followed by a file name, an extra field and data of the
    lengths the header states, the output path is not the archive itself
    and the output file can be opened, the extraction succeeds and the
    output file holds exactly the data. *)
Theorem extractZipEntry_stored (a : Archiver) (w : World)
    (zipPath outputPath : string) (entry : ArchiveEntry)
    (h : ZipLocalFileHeader) (before fname extra data after : list byte) :
  encrypted entry = false ->
  uncompressedSize entry <= m_maxExtractedSize a / 10 ->
  open_denied w zipPath = false ->
  outputPath <> zipPath ->
  output_opens w outputPath ->
  files w !! zipPath
  = Some (before ++ lfh_bytes h ++ fname ++ extra ++ data ++ after) ->
  localHeaderOffset entry = vsize before ->
  lfh_in_range h ->
  lfh_signature h = 0x04034b50 ->
  lfh_compression h = 0 ->
  lfh_fileNameLength h = vsize fname ->
  lfh_extraFieldLength h = vsize extra ->
  lfh_compressedSize h = vsize data ->
  exists w', extractZipEntry a w zipPath entry outputPath = Some (true, w') /\
             files w' !! outputPath = Some data.
Proof.
  intros Henc Hsize Hzip Hne Hout Hfile Hoff Hrange Hsig Hmethod Hname Hextra Hdata.
  set (zip := before ++ lfh_bytes h ++ fname ++ extra ++ data ++ after) in *.
  assert (Hpos : Z.to_nat (localHeaderOffset entry) = length before)
    by (rewrite Hoff; unfold vsize; lia).
  assert (Hc : header_complete zip entry).
  { unfold header_complete. rewrite Hpos. unfold zip.
    rewrite !length_app, length_lfh_bytes. lia. }
  assert (Hlfh : local_header zip entry = h).
  { unfold local_header. rewrite Hpos. unfold zip. rewrite drop_app_length.
    rewrite (take_app_length' (lfh_bytes h) _ sizeof_lfh (length_lfh_bytes h)).
    by apply parse_lfh_bytes. }
  rewrite (extractZipEntry_complete a w zipPath outputPath entry zip) by done.
  rewrite Hlfh. cbv zeta. unfold output_opens in Hout.
  rewrite Hsig, Hout, Hmethod, Hname, Hextra, Hdata, Hpos. cbn [Z.eqb negb].
  eexists. split; [reflexivity |].
  cbn [files write_file with_files]. rewrite lookup_insert_eq. f_equal.
  rewrite lookup_insert_ne by done. rewrite files_CreateDirectoryA, Hfile. cbn [default].
  unfold vsize. rewrite <- Nat2Z.inj_add, !Nat2Z.id. unfold zip.
  replace (before ++ lfh_bytes h ++ fname ++ extra ++ data ++ after)
    with ((before ++ lfh_bytes h ++ fname ++ extra) ++ data ++ after)
    by (by rewrite <- !app_assoc).
  replace (length before + sizeof_lfh + (length fname + length extra))%nat
    with (length (before ++ lfh_bytes h ++ fname ++ extra))
    by (rewrite !length_app, length_lfh_bytes; lia).
  apply ifstream_read_exact.
Qed.

(** An archive with one stored entry, [a.txt] holding ["aaaaa"]. *)
Lemma extractZipEntry_stored_witness :
  let h := mkLfh 0x04034b50 20 0 0 0 0 0xeeac93b9 5 5 5 0 in
  let zip := [] ++ lfh_bytes h ++ list_byte_of_string "a.txt" ++ []
             ++ list_byte_of_string "aaaaa" ++ [] in
  let w := Sample.world {[ "C:\t\s.zip"%string := zip ]} in
  let entry := mkArchiveEntry "a.txt" 5 5 0xeeac93b9 false false 0 0 in
  exists w', extractZipEntry Archiver_new w "C:\t\s.zip" entry "C:\t\x\a.txt"
             = Some (true, w') /\
             files w' !! "C:\t\x\a.txt"%string = Some (list_byte_of_string "aaaaa").
Proof.
  intros h zip w entry.
  apply (extractZipEntry_stored Archiver_new w "C:\t\s.zip" "C:\t\x\a.txt" entry h
           [] (list_byte_of_string "a.txt") [] (list_byte_of_string "aaaaa") []).
  - reflexivity.
  - vm_compute. discriminate.
  - reflexivity.
  - discriminate.
  - reflexivity.
  - reflexivity.
  - reflexivity.
  - unfold lfh_in_range, uint32_range, uint16_range, UINT32_MOD. simpl. lia.
  - reflexivity.
  - reflexivity.
  - reflexivity.
  - reflexivity.
  - reflexivity.
Defined.
End ExtractionShape.

(** ** Output paths of an extraction *)

Section ExtractionPaths.
Import ArchiveScanner.

Lemma ifstream_read_empty (pos n : nat) :
  ifstream_read [] pos n = replicate n "000"%byte.
Proof.
  unfold ifstream_read. rewrite drop_nil, take_nil. cbn [length app].
  by rewrite Nat.sub_0_r.
Qed.

(** X29.  Two output paths that do not receive the entry.  For an entry
    with a complete local header and the right signature: when the output
    path has no separator, names nothing that exists and the system lets
    the directory be created, [CreateDirectoryA] makes a directory of the
    output path itself, the output stream cannot be opened on it and the
    extraction fails, leaving that directory behind and every file as it
    was.  When the output path is the archive itself and the entry is
    Stored, opening the output stream empties the archive before the data
    is read: the extraction succeeds and the archive is replaced by as
    many zero bytes as the header's [compressedSize] says. *)
Theorem extractZipEntry_output_path (a : Archiver) (w : World)
    (zipPath outputPath : string) (entry : ArchiveEntry) (zip : list byte) :
  encrypted entry = false ->
  uncompressedSize entry <= m_maxExtractedSize a / 10 ->
  open_denied w zipPath = false ->
  files w !! zipPath = Some zip ->
  header_complete zip entry ->
  lfh_signature (local_header zip entry) = 0x04034b50 ->
  (find_last_separator (list_ascii_of_string outputPath) = None ->
   outputPath <> ""%string ->
   files w !! outputPath = None -> directories w !! outputPath = None ->
   mkdir_denied w outputPath = false ->
   exists w',
     extractZipEntry a w zipPath entry outputPath = Some (false, w') /\
     directories w' !! outputPath = Some [] /\ files w' = files w) /\
  (outputPath = zipPath ->
   output_opens w outputPath ->
   lfh_compression (local_header zip entry) = 0 ->
   exists w',
     extractZipEntry a w zipPath entry outputPath = Some (true, w') /\
     files w' !! zipPath
     = Some (replicate (Z.to_nat (lfh_compressedSize (local_header zip entry)))
                       "000"%byte)).
Proof.
  intros Henc Hsize Hzip Hfile Hc Hsig.
  rewrite (extractZipEntry_complete a w zipPath outputPath entry zip) by done.
  cbv zeta. rewrite Hsig. cbn [Z.eqb negb Pos.eqb]. split.
  - intros Hsep Hne Hnofile Hnodir Hmk.
    unfold output_directory. rewrite Hsep.
    assert (Hw0 : CreateDirectoryA w outputPath
                  = with_directories w (<[outputPath := []]> (directories w))).
    { unfold CreateDirectoryA. rewrite Hmk, Hnofile, Hnodir.
      apply String.eqb_neq in Hne. by rewrite Hne. }
    rewrite Hw0.
    assert (Hopen : ofstream_opens
                      (with_directories w (<[outputPath := []]> (directories w)))
                      outputPath = false).
    { unfold ofstream_opens. cbn [directories with_directories].
      rewrite lookup_insert_eq. rewrite bool_decide_eq_true_2 by by eexists.
      cbn [negb]. by rewrite andb_false_r. }
    rewrite Hopen. cbn [negb]. eexists. split; [reflexivity |].
    cbn [directories files archive_log with_log with_directories].
    by rewrite lookup_insert_eq.
  - intros -> Hout Hmethod. unfold output_opens in Hout.
    rewrite Hout, Hmethod. cbn [negb Z.eqb].
    eexists. split; [reflexivity |].
    cbn [files write_file with_files]. rewrite !lookup_insert_eq. cbn [default].
    by rewrite ifstream_read_empty.
Qed.

(** The stored entry of [a.txt], extracted to a bare file name and onto the
    archive itself. *)
Lemma extractZipEntry_output_path_witness :
  let h := mkLfh 0x04034b50 20 0 0 0 0 0xeeac93b9 5 5 5 0 in
  let zip := lfh_bytes h ++ list_byte_of_string "a.txt"
             ++ list_byte_of_string "aaaaa" in
  let w := Sample.world {[ "C:\t\s.zip"%string := zip ]} in
  let entry := mkArchiveEntry "a.txt" 5 5 0xeeac93b9 false false 0 0 in
  (exists w',
      extractZipEntry Archiver_new w "C:\t\s.zip" entry "plain.txt" = Some (false, w') /\
      directories w' !! "plain.txt"%string = Some [] /\ files w' = files w) /\
  (exists w',
      extractZipEntry Archiver_new w "C:\t\s.zip" entry "C:\t\s.zip" = Some (true, w') /\
      files w' !! "C:\t\s.zip"%string = Some (replicate 5 "000"%byte)).
Proof.
  intros h zip w entry. split.
  - apply (extractZipEntry_output_path Archiver_new w "C:\t\s.zip" "plain.txt"
             entry zip); try reflexivity; try discriminate.
    unfold header_complete. vm_compute. lia.
  - apply (extractZipEntry_output_path Archiver_new w "C:\t\s.zip" "C:\t\s.zip"
             entry zip); try reflexivity; try discriminate.
    unfold header_complete. vm_compute. lia.
Defined.
End ExtractionPaths.

(** ** Starting and restarting the engine *)

Section Startup.
Import ThreatEngine.




Lemma files_create_directories (w w' : World) (p : string) :
  create_directories w p = Some w' -> files w' = files w.
Proof.
  unfold create_directories. generalize (path_components p). intros comps.
  revert w. induction comps as [| c rest IH]; intros w; cbn [create_each].
  - by intros [= ->].
  - destruct (files w !! c); [discriminate |].
    destruct (directories w !! c); [apply IH |].
    intros H. by apply IH in H.
Qed.







End Startup.

(** ** Shutdown of the watch list *)

Section WatchShutdown.
Import FileMonitor.

(** What the loop over the handles has closed when it ends. *)
Lemma close_watch_loop (l : list (string * WatchInfo)) (closed0 : gset Z) (h : Z) :
  h ∈ foldl close_watch closed0 l <->
  h ∈ closed0 \/
  exists watch, watch ∈ l /\ handle (snd watch) = h /\ h <> INVALID_HANDLE_VALUE.
Proof.
  revert closed0. induction l as [| watch l IH]; intros closed0; cbn [foldl].
  - split; [by left |]. intros [Hold | (watch & Hin & _)]; [done |].
    by apply elem_of_nil in Hin.
  - rewrite IH. unfold close_watch.
    destruct (Z.eqb_spec (handle (snd watch)) INVALID_HANDLE_VALUE) as [Hinv | Hvalid].
    + split; (intros [Hold | (x & Hin & Hh & Hx)]; [by left | right]).
      * exists x. split; [by apply list_elem_of_further | done].
      * apply elem_of_cons in Hin as [-> | Hin]; [congruence |]. by exists x.
    + rewrite elem_of_union, elem_of_singleton.
      split.
      * intros [[Hold | ->] | (x & Hin & Hh & Hx)]; [by left | right | right].
        -- exists watch. split; [apply list_elem_of_here | done].
        -- exists x. split; [by apply list_elem_of_further | done].
      * intros [Hold | (x & Hin & Hh & Hx)]; [by left; left |].
        apply elem_of_cons in Hin as [-> | Hin]; [by left; right |].
        right. by exists x.
Qed.

(** X26.  Shutting a running monitor down clears the running flag,
    leaves no watch and leaks no handle: the path vector and the handle
    map are empty afterwards, every valid handle the map held has been
    closed, nothing else has been closed that was not closed before, and
    no file has changed.  Shutting down a monitor that is not running
    changes nothing at all, so a second shutdown is a no-op. *)
Theorem Shutdown_closes_every_handle (m : Monitor) (ws : Watches) (w : World) :
  let '(m', ws', w') := Shutdown m ws w in
  (m_running m = false -> (m', ws', w') = (m, ws, w)) /\
  (m_running m = true ->
   m_running m' = false /\
   m_watchedPaths ws' = [] /\ m_watchHandles ws' = ∅ /\
   watches_consistent ws' /\
   (forall h, h ∈ closed ws' <->
              h ∈ closed ws \/
              exists p info, m_watchHandles ws !! p = Some info /\
                             handle info = h /\ h <> INVALID_HANDLE_VALUE) /\
   files w' = files w) /\
  Shutdown m' ws' w' = (m', ws', w').
Proof.
  unfold Shutdown at 1. destruct (m_running m) eqn:Hrun; cbn [negb].
  - split; [intros; discriminate |]. split; [| reflexivity]. intros _.
    split; [done |]. split; [done |]. split; [done |]. split; [| split].
    + split; [constructor |]. split.
      * intros p. cbn. rewrite lookup_empty. split; [| by intros []].
        intros Hp. by apply elem_of_nil in Hp.
      * intros p info. cbn. by rewrite lookup_empty.
    + intros h. cbn [closed]. rewrite close_watch_loop.
      split; (intros [Hold | Hnew]; [by left | right]).
      * destruct Hnew as ([p info] & Hin & Hh & Hvalid).
        apply elem_of_map_to_list in Hin. by exists p, info.
      * destruct Hnew as (p & info & Hp & Hh & Hvalid).
        exists (p, info). split; [by apply elem_of_map_to_list | done].
    + by rewrite !files_log_if.
  - split; [done |]. split; [intros; discriminate |].
    unfold Shutdown. by rewrite Hrun.
Qed.
End WatchShutdown.

(** ** The engine's directory scan and the folder scan *)

Section EngineDirectory.
Import ThreatEngine.

Lemma ScanDirectory_loop_threats (entries : list string) (e : Engine) (w : World)
    (threats : list ThreatInfo) :
  let '(w', threats') := ScanDirectory_loop entries e w threats in
  files w' = files w /\
  exists new,
    threats' = threats ++ new /\
    Forall (fun t => file_path t ∈ entries /\
                     exists content, files w !! file_path t = Some content /\
                                     file_size t = vsize content) new.
Proof.
  revert w threats. induction entries as [| path rest IH]; intros w threats.
  - split; [done |]. exists []. by rewrite app_nil_r.
  - cbn [ScanDirectory_loop].
    pose proof (engine_ScanFile_frame e w path empty_threat) as Hscan.
    destruct (ScanFile e w path empty_threat) as [[found threat] w1].
    destruct Hscan as (Hf & _ & _ & Hthreat).
    specialize (IH w1 (if found then threats ++ [threat] else threats)).
    destruct (ScanDirectory_loop rest e w1 _) as [w' threats'].
    destruct IH as (Hf' & new & -> & Hnew).
    split; [congruence |].
    assert (Hrest : Forall (fun t => file_path t ∈ path :: rest /\
                       exists content, files w !! file_path t = Some content /\
                                       file_size t = vsize content) new).
    { eapply Forall_impl; [exact Hnew |]. cbv beta.
      intros t [Hin Hc]. split; [by apply list_elem_of_further |].
      by rewrite <- Hf. }
    destruct found.
    + exists (threat :: new). split; [by rewrite <- app_assoc |].
      constructor; [| done].
      destruct (Hthreat eq_refl) as (-> & Hc).
      split; [apply list_elem_of_here | done].
    + by exists new.
Qed.

(** X27.  [ThreatEngine::ScanDirectory] returns true exactly when the
    engine is initialised, the directory exists and no sub-directory below
    it is unreadable.  It changes no file.  The threats it finds are
    appended to the caller's vector, and each names a regular file the
    iterator has yielded, with that file's size.  When the engine is not
    initialised or the directory does not exist, nothing is appended and
    nothing logged.  When the iterator fails at an unreadable
    sub-directory, the scan returns false although the files yielded
    before have been scanned and their threats appended, and with a
    logger the last line of the log is the Error line that carries the
    directory and the message of the exception. *)
Theorem ScanDirectory_threats (e : Engine) (w : World) (dirPath : string)
    (threats : list ThreatInfo) :
  let '(ok, w', threats') := ScanDirectory e w dirPath threats in
  let entries := default [] (directories w !! dirPath) in
  let visited := match unreadable_below w dirPath with
                 | Some (yielded, _) => take yielded entries
                 | None => entries
                 end in
  (ok = true <->
   m_initialized e = true /\ Utils.DirectoryExists w dirPath = true /\
   unreadable_below w dirPath = None) /\
  files w' = files w /\
  (m_initialized e && Utils.DirectoryExists w dirPath = false ->
   w' = w /\ threats' = threats) /\
  (forall yielded what,
      m_initialized e = true -> Utils.DirectoryExists w dirPath = true ->
      unreadable_below w dirPath = Some (yielded, what) ->
      m_logger e = true ->
      last (log w')
      = Some (mkLog Error "Error scanning directory %s: %S" [dirPath; what])) /\
  exists new,
    threats' = threats ++ new /\
    Forall (fun t => file_path t ∈ visited /\
                     exists content, files w !! file_path t = Some content /\
                                     file_size t = vsize content) new.
Proof.
  unfold ScanDirectory.
  destruct (m_initialized e); cbn [negb andb].
  2: { split; [split; [done | by intros [? _]] |].
       repeat split; try done. exists []. by rewrite app_nil_r. }
  destruct (Utils.DirectoryExists w dirPath); cbn [negb].
  2: { split; [split; [done | by intros (_ & ? & _)] |].
       repeat split; try done. exists []. by rewrite app_nil_r. }
  set (w0 := log_if _ _ _ _ w).
  assert (Hf0 : files w0 = files w) by (subst w0; apply files_log_if).
  destruct (unreadable_below w dirPath) as [[yielded what] |].
  - pose proof (ScanDirectory_loop_threats
                  (take yielded (default [] (directories w !! dirPath)))
                  e w0 threats) as Hloop.
    destruct (ScanDirectory_loop _ e w0 threats) as [w1 threats1].
    destruct Hloop as (Hf & new & -> & Hnew).
    split; [split; [done | by intros (_ & _ & ?)] |].
    split; [by rewrite files_log_if, Hf |]. split; [done |]. split.
    + intros yielded' what' _ _ [= <- <-] ->. cbn [log_if log with_log].
      apply last_snoc.
    + exists new. split; [done |].
      eapply Forall_impl; [exact Hnew |]. cbv beta. intros t [Hin Hc].
      split; [done | by rewrite <- Hf0].
  - pose proof (ScanDirectory_loop_threats (default [] (directories w !! dirPath))
                  e w0 threats) as Hloop.
    destruct (ScanDirectory_loop _ e w0 threats) as [w1 threats1].
    destruct Hloop as (Hf & new & -> & Hnew).
    split; [done |]. split; [by rewrite files_log_if, Hf |]. split; [done |].
    split; [intros; discriminate |].
    exists new. split; [done |].
    eapply Forall_impl; [exact Hnew |]. cbv beta. intros t [Hin Hc].
    split; [done | by rewrite <- Hf0].
Qed.

(** A directory with an infected file followed by a sub-directory that
    cannot be read: the scan returns false, and the caller's vector holds
    the threat found before the iterator failed. *)
Lemma ScanDirectory_unreadable_example :
  let w := {| files := {[ "C:\w\bad.exe"%string := list_byte_of_string "x.locked" ]};
              directories := {[ "C:\w"%string := ["C:\w\bad.exe"%string] ]};
              open_denied := fun _ => false; move_denied := fun _ _ => false;
              mkdir_denied := fun _ => false;
              unreadable_below := fun _ => Some (1%nat, "Access is denied"%string);
              clock := 1700000000; log := [] |} in
  let r := ScanDirectory Sample.engine w "C:\w" [] in
  r.1.1 = false /\
  r.2 = [mkThreatInfo "C:\w\bad.exe" "Ransomware.Generic.Extension" 10 8] /\
  last (log r.1.2)
  = Some (mkLog Error "Error scanning directory %s: %S"
            ["C:\w"%string; "Access is denied"%string]).
Proof. vm_compute. done. Qed.


(** X28.  A folder scan continues the running statistics.  Unlike a
    custom scan, [Scanner::ScanFolder] does not reset the statistics: it
    changes no file, no directory, no option and no flag; it appends the
    threats it finds, hands each to the threat callback, and adds their
    number to the [threatsFound] it started with; each found threat names
    an existing file that passes the filters, with that file's size. *)
Theorem ScanFolder_extends (s : Scanner.Scanner) (e : Engine) (w : World)
    (folderPath : string) (threats : list ThreatInfo) :
  let '(_, s', w', threats') := Scanner.ScanFolder s e w folderPath threats in
  scan_extends s w threats s' w' threats'.
Proof.
  unfold Scanner.ScanFolder.
  set (w0 := log_if _ _ _ _ w).
  pose proof (ScanPath_extends s e w0 folderPath threats) as Hpath.
  destruct (Scanner.ScanPath s e w0 folderPath threats) as [[[result s1] w1] threats1].
  eapply scan_extends_trans; [| exact Hpath].
  apply scan_extends_log.
Qed.
End EngineDirectory.
